(** * Mapsforge [.map] header and tag-table reader

    A shallow embedding of [MapFileReader] from [src/extract_tags.py]
    (the primitive readers [read_variable_byte] and [read_utf8_string], and
    [extract_tags]) together with the properties stated about it.

    Modelling conventions.
    - A Python [bytes] value is a [list byte]; a Python [int] is a [Z]; a
      Python [str] is the list of its Unicode code points.
    - The open binary file is a cursor [pos] (what [f.tell()] would give) and
      the bytes not yet consumed.  [f.read(n)] returns at most [n] bytes; a
      short result at end of file is how the code learns about truncation.
    - Exceptions are values: a computation over the file returns either
      [Returned v] or [Raised e], always with the file state it leaves.
    - Console output ([print], [traceback.print_exc]) is not modelled, except
      that the three ways [extract_tags] can end are kept apart, since they
      print different things.  The [/ 1000000.0] applied to coordinates is a
      floating-point operation on values that are only printed; the model
      keeps the integers that were read.
    - [read] is the documented "return up to [size] bytes".  The limits the
      interpreter puts on [size] (the largest size [f.read] accepts, memory
      for the buffer) are modelled apart, in [CPython], with the reader and
      [extract_tags] once more on top of them; what is proved of
      [read_utf8_string] alone on lengths of any size is proved there, and
      [extract_tags] is shown to return the same with and without them. *)

From Stdlib Require Import NArith ZArith List Bool Lia FunInd.
From Stdlib Require Import Strings.String Strings.Ascii Strings.Byte.
Import ListNotations.
Local Open Scope Z_scope.

(* ------------------------------------------------------------------ *)
(** ** Python values and exceptions *)

Module Py.

(** The exceptions the modelled code can meet. *)
Inductive exn : Type :=
| StructError         (* struct.error: unpack needs a buffer of n bytes *)
| IndexError          (* b''[0] *)
| UnicodeDecodeError  (* bytes.decode with errors='strict' *)
| OSError.            (* open() on a path that cannot be opened *)

Inductive result (A : Type) : Type :=
| Returned (a : A)
| Raised (e : exn).
Arguments Returned {A} a.
Arguments Raised {A} e.

(** A Python [str]: its code points. *)
Definition str : Type := list Z.

Definition ord (a : ascii) : Z := Z.of_N (N_of_ascii a).

(** A string literal of the development as a Python [str] (ASCII only). *)
Definition str_of_string (s : string) : str := map ord (list_ascii_of_string s).

(** [b[0]], [b[1]], ... as an [int] in 0..255. *)
Definition byte_val (b : byte) : Z := Z.of_N (Byte.to_N b).

Fixpoint bytes_eqb (a b : list byte) : bool :=
  match a, b with
  | [], [] => true
  | x :: a', y :: b' => Byte.eqb x y && bytes_eqb a' b'
  | _, _ => false
  end.

End Py.
Export Py.

(* ------------------------------------------------------------------ *)
(** ** The binary file object *)

Record file : Type := mkfile {
  pos  : Z;           (* f.tell(): bytes consumed so far *)
  rest : list byte    (* bytes from the cursor to the end of the file *)
}.

(** [take n l]: the first [n] bytes of [l], fewer if [l] is shorter, and what
    follows them. *)
Fixpoint take (n : Z) (l : list byte) : list byte * list byte :=
  match l with
  | [] => ([], [])
  | b :: l' =>
      if n <=? 0 then ([], l)
      else let (got, left) := take (n - 1) l' in (b :: got, left)
  end.

Definition len {A : Type} (l : list A) : Z := Z.of_nat (List.length l).

(** [f.read(size)]: up to [size] bytes; a negative [size] reads to the end. *)
Definition read (size : Z) (f : file) : list byte * file :=
  if size <? 0 then (rest f, mkfile (pos f + len (rest f)) [])
  else let (got, left) := take size (rest f) in
       (got, mkfile (pos f + len got) left).

(** Computations over the open file that may raise. *)
Definition M (A : Type) : Type := file -> result A * file.

Definition ret {A : Type} (a : A) : M A := fun f => (Returned a, f).
Definition raise {A : Type} (e : exn) : M A := fun f => (Raised e, f).
Definition bind {A B : Type} (c : M A) (k : A -> M B) : M B :=
  fun f => match c f with
           | (Returned a, f') => k a f'
           | (Raised e, f') => (Raised e, f')
           end.
(** A call that cannot raise, such as [f.read]. *)
Definition lift {A : Type} (c : file -> A * file) : M A :=
  fun f => let (a, f') := c f in (Returned a, f').
(** A pure expression that may raise, such as [struct.unpack(...)]. *)
Definition eval {A : Type} (r : result A) : M A := fun f => (r, f).

Declare Scope py_scope.
Delimit Scope py_scope with py.
Notation "x <- c ;; k" := (bind c (fun x => k))
  (at level 61, c at next level, right associativity) : py_scope.
Local Open Scope py_scope.

(* ------------------------------------------------------------------ *)
(** ** struct.unpack and indexing *)

(** Big-endian value of a byte string. *)
Definition be_value (bs : list byte) : Z :=
  fold_left (fun acc b => acc * 256 + byte_val b) bs 0.

(** [struct.unpack('>H' | '>I' | '>Q', bs)[0]] for [width] 2, 4, 8: the
    buffer must have exactly [width] bytes. *)
Definition unpack_unsigned (width : Z) (bs : list byte) : result Z :=
  if len bs =? width then Returned (be_value bs) else Raised StructError.

(** [struct.unpack('>i', bs)[0]]: 4 bytes, two's complement. *)
Definition unpack_i (bs : list byte) : result Z :=
  if len bs =? 4 then
    let v := be_value bs in
    Returned (if v <? 2 ^ 31 then v else v - 2 ^ 32)
  else Raised StructError.

(** [bs[0]]. *)
Definition index0 (bs : list byte) : result Z :=
  match bs with
  | [] => Raised IndexError
  | b :: _ => Returned (byte_val b)
  end.

Definition read_H : M Z := bs <- lift (read 2) ;; eval (unpack_unsigned 2 bs).
Definition read_I : M Z := bs <- lift (read 4) ;; eval (unpack_unsigned 4 bs).
Definition read_Q : M Z := bs <- lift (read 8) ;; eval (unpack_unsigned 8 bs).
Definition read_i : M Z := bs <- lift (read 4) ;; eval (unpack_i bs).
Definition read_B : M Z := bs <- lift (read 1) ;; eval (index0 bs).

(* ------------------------------------------------------------------ *)
(** ** bytes.decode('utf-8', errors=...)

    Python's UTF-8 decoder.  A well-formed sequence yields one code point.
    On an ill-formed one the error handler is applied to the offending
    range of bytes (one byte for an invalid start byte, the bytes before the
    bad one for an invalid continuation byte, everything that is left for a
    sequence cut off by the end of the data) and decoding resumes after that
    range: ['strict'] raises, ['ignore'] contributes nothing, ['replace']
    contributes U+FFFD. *)

Inductive errors : Type := strict | ignore | replace.

Definition REPLACEMENT_CHARACTER : Z := 0xFFFD.

(** [(c & 0xC0) == 0x80] *)
Definition is_cont (c : Z) : bool := Z.land c 0xC0 =? 0x80.

Definition cp2 (c c2 : Z) : Z :=
  Z.lor (Z.shiftl (Z.land c 0x1F) 6) (Z.land c2 0x3F).
Definition cp3 (c c2 c3 : Z) : Z :=
  Z.lor (Z.lor (Z.shiftl (Z.land c 0x0F) 12) (Z.shiftl (Z.land c2 0x3F) 6))
        (Z.land c3 0x3F).
Definition cp4 (c c2 c3 c4 : Z) : Z :=
  Z.lor (Z.lor (Z.lor (Z.shiftl (Z.land c 0x07) 18)
                      (Z.shiftl (Z.land c2 0x3F) 12))
               (Z.shiftl (Z.land c3 0x3F) 6))
        (Z.land c4 0x3F).

Definition emit (c : Z) (k : result str) : result str :=
  match k with
  | Returned s => Returned (c :: s)
  | Raised e => Raised e
  end.

(** The error handler, given the decoding of what follows the bad range. *)
Definition on_error (h : errors) (k : result str) : result str :=
  match h with
  | strict => Raised UnicodeDecodeError
  | ignore => k
  | replace => emit REPLACEMENT_CHARACTER k
  end.

(** Second byte of a 3-byte sequence: E0 needs A0..BF (no overlong forms),
    ED needs 80..9F (no surrogates). *)
Definition bad_second3 (c c2 : Z) : bool :=
  negb (is_cont c2) || (if c2 <? 0xA0 then c =? 0xE0 else c =? 0xED).

(** Second byte of a 4-byte sequence: F0 needs 90..BF, F4 needs 80..8F. *)
Definition bad_second4 (c c2 : Z) : bool :=
  negb (is_cont c2) || (if c2 <? 0x90 then c =? 0xF0 else c =? 0xF4).

Fixpoint utf8_decode (h : errors) (bs : list byte) : result str :=
  match bs with
  | [] => Returned []
  | b :: r0 =>
      let c := byte_val b in
      if c <? 0x80 then emit c (utf8_decode h r0)
      else if c <? 0xC2 then on_error h (utf8_decode h r0)
      else if c <? 0xE0 then
        match r0 with
        | [] => on_error h (Returned [])
        | b2 :: r1 =>
            let c2 := byte_val b2 in
            if is_cont c2 then emit (cp2 c c2) (utf8_decode h r1)
            else on_error h (utf8_decode h r0)
        end
      else if c <? 0xF0 then
        match r0 with
        | [] => on_error h (Returned [])
        | b2 :: r1 =>
            let c2 := byte_val b2 in
            if bad_second3 c c2 then on_error h (utf8_decode h r0)
            else
              match r1 with
              | [] => on_error h (Returned [])
              | b3 :: r2 =>
                  let c3 := byte_val b3 in
                  if is_cont c3 then emit (cp3 c c2 c3) (utf8_decode h r2)
                  else on_error h (utf8_decode h r1)
              end
        end
      else if c <? 0xF5 then
        match r0 with
        | [] => on_error h (Returned [])
        | b2 :: r1 =>
            let c2 := byte_val b2 in
            if bad_second4 c c2 then on_error h (utf8_decode h r0)
            else
              match r1 with
              | [] => on_error h (Returned [])
              | b3 :: r2 =>
                  let c3 := byte_val b3 in
                  if negb (is_cont c3) then on_error h (utf8_decode h r1)
                  else
                    match r2 with
                    | [] => on_error h (Returned [])
                    | b4 :: r3 =>
                        let c4 := byte_val b4 in
                        if is_cont c4
                        then emit (cp4 c c2 c3 c4) (utf8_decode h r3)
                        else on_error h (utf8_decode h r2)
                    end
              end
        end
      else on_error h (utf8_decode h r0)
  end.

(* ------------------------------------------------------------------ *)
(** ** MapFileReader: the primitive readers *)

(** [MAGIC_BYTE = b"mapsforge binary OSM"] *)
Definition MAGIC_BYTE : list byte := list_byte_of_string "mapsforge binary OSM".

(** The [while True] loop of [read_variable_byte], entered with the current
    [result] and [shift].  Each turn does [f.read(1)]; the recursion is on
    the bytes that are left, so the loop ends at the latest when they do. *)
Fixpoint read_variable_byte_loop (result shift : Z) (p : Z) (bs : list byte)
  : option Z * file :=
  match bs with
  | [] => (None, mkfile p [])                       (* if not byte: return None *)
  | byte :: bs' =>
      let b := byte_val byte in
      let result := Z.lor result (Z.shiftl (Z.land b 0x7F) shift) in
      if Z.land b 0x80 =? 0
      then (Some result, mkfile (p + 1) bs')        (* break; return result *)
      else read_variable_byte_loop result (shift + 7) (p + 1) bs'
  end.

(** [read_variable_byte(f)]: [None] is Python's [None]. *)
Definition read_variable_byte (f : file) : option Z * file :=
  read_variable_byte_loop 0 0 (pos f) (rest f).

(** [read_utf8_string(f)] *)
Definition read_utf8_string : M str :=
  length <- lift read_variable_byte ;;
  match length with
  | None => ret []
  | Some 0 => ret []
  | Some length =>
      string_bytes <- lift (read length) ;;
      eval (utf8_decode ignore string_bytes)
  end.

(* ------------------------------------------------------------------ *)
(** ** MapFileReader.extract_tags *)

Record ZoomInterval : Type := mkZoomInterval {
  base_zoom : Z;
  min_zoom : Z;
  max_zoom : Z;
  subfile_start : Z;
  subfile_size : Z
}.

(** What [self.tags] holds: the list [[]] that [__init__] stores, or the dict
    that a successful [extract_tags] assigns. *)
Inductive tags_value : Type :=
| EmptyList
| TagsDict (poi_tags way_tags : list str) (zoom_intervals : list ZoomInterval).

Record MapFileReader : Type := mkMapFileReader {
  filepath : string;
  tags : tags_value
}.

(** [MapFileReader(filepath)] *)
Definition init (path : string) : MapFileReader :=
  {| filepath := path; tags := EmptyList |}.

(** [for i in range(n): x = body(); acc.append(x)] *)
Fixpoint for_range {A : Type} (n : nat) (body : M A) (acc : list A)
  : M (list A) :=
  match n with
  | O => ret acc
  | S k => x <- body ;; for_range k body (acc ++ [x])
  end.

(** [bool(flags & mask)] *)
Definition flag (flags mask : Z) : bool := negb (Z.land flags mask =? 0).

(** Locals of lines 48-97: everything up to and including the flags byte.
    Coordinates are the integers read, in millionths of a degree. *)
Record header : Type := mkheader {
  header_size : Z;
  file_version : Z;
  file_size : Z;
  date_created : Z;
  min_lat : Z;
  min_lon : Z;
  max_lat : Z;
  max_lon : Z;
  tile_size : Z;
  projection : str;
  flags : Z
}.

(** Lines 48-97.  [None] is the early [return False] of line 52. *)
Definition read_header : M (option header) :=
  magic <- lift (read (len MAGIC_BYTE)) ;;
  if negb (bytes_eqb magic MAGIC_BYTE) then ret None
  else
    header_size <- read_I ;;
    file_version <- read_I ;;
    file_size <- read_Q ;;
    date_created <- read_Q ;;
    min_lat <- read_i ;;
    min_lon <- read_i ;;
    max_lat <- read_i ;;
    max_lon <- read_i ;;
    tile_size <- read_H ;;
    projection <- read_utf8_string ;;
    flags <- read_B ;;
    ret (Some (mkheader header_size file_version file_size date_created
                        min_lat min_lon max_lat max_lon
                        tile_size projection flags)).

(** Locals of lines 108-133; [None] for a field whose flag is clear. *)
Record optional : Type := mkoptional {
  start_position : option (Z * Z);
  start_zoom : option Z;
  language : option str;
  comment : option str;
  created_by : option str
}.

(** [if cond: x = body] *)
Definition when {A : Type} (cond : bool) (body : M A) : M (option A) :=
  if cond then x <- body ;; ret (Some x) else ret None.

(** Lines 108-133. *)
Definition read_optional (flags : Z) : M optional :=
  start_position <- when (flag flags 0x40)
                      (start_lat <- read_i ;;
                       start_lon <- read_i ;;
                       ret (start_lat, start_lon)) ;;
  start_zoom <- when (flag flags 0x20) read_B ;;
  language <- when (flag flags 0x10) read_utf8_string ;;
  comment <- when (flag flags 0x08) read_utf8_string ;;
  created_by <- when (flag flags 0x04) read_utf8_string ;;
  ret (mkoptional start_position start_zoom language comment created_by).

(** Locals of lines 135-184. *)
Record tables : Type := mktables {
  num_poi_tags : Z;
  poi_tags : list str;
  num_way_tags : Z;
  way_tags : list str;
  num_zoom_intervals : Z;
  zoom_intervals : list ZoomInterval
}.

(** Body of the loop of lines 164-177. *)
Definition read_zoom_interval : M ZoomInterval :=
  base_zoom <- read_B ;;
  min_zoom <- read_B ;;
  max_zoom <- read_B ;;
  subfile_start <- read_Q ;;
  subfile_size <- read_Q ;;
  ret (mkZoomInterval base_zoom min_zoom max_zoom subfile_start subfile_size).

(** Lines 135-184. *)
Definition read_tables : M tables :=
  num_poi_tags <- read_H ;;
  poi_tags <- for_range (Z.to_nat num_poi_tags) read_utf8_string [] ;;
  num_way_tags <- read_H ;;
  way_tags <- for_range (Z.to_nat num_way_tags) read_utf8_string [] ;;
  num_zoom_intervals <- read_B ;;
  zoom_intervals <- for_range (Z.to_nat num_zoom_intervals)
                      read_zoom_interval [] ;;
  ret (mktables num_poi_tags poi_tags num_way_tags way_tags
                num_zoom_intervals zoom_intervals).

(** The block under [with open(...) as f], lines 48-192, up to the
    assignment to [self.tags]. *)
Definition extract_tags_body : M (option (header * optional * tables)) :=
  h <- read_header ;;
  match h with
  | None => ret None
  | Some h =>
      o <- read_optional (flags h) ;;
      t <- read_tables ;;
      ret (Some (h, o, t))
  end.

(** The three ways [extract_tags] ends once the file is open. *)
Inductive exit : Type :=
| Extracted (h : header) (o : optional) (t : tables)   (* line 192 *)
| NotValidMapFile                                      (* lines 51-52 *)
| ErrorReading (e : exn).                              (* lines 194-198 *)

(** Running the block on the content of a file, with the cursor it leaves. *)
Definition decode (content : list byte) : exit * file :=
  match extract_tags_body (mkfile 0 content) with
  | (Returned (Some (h, o, t)), f) => (Extracted h o t, f)
  | (Returned None, f) => (NotValidMapFile, f)
  | (Raised e, f) => (ErrorReading e, f)
  end.

(** The files that can be opened, by path. *)
Definition filesystem : Type := string -> option (list byte).

(** [self.extract_tags()]: the returned [bool] and the reader afterwards.
    A path that cannot be opened raises inside the [try] and ends in the
    [except] branch like any other exception. *)
Definition extract_tags (fs : filesystem) (self : MapFileReader)
  : bool * MapFileReader :=
  match fs (filepath self) with
  | None => (false, self)
  | Some content =>
      match fst (decode content) with
      | Extracted _ _ t =>
          (true, {| filepath := filepath self;
                    tags := TagsDict (poi_tags t) (way_tags t)
                                     (zoom_intervals t) |})
      | NotValidMapFile => (false, self)
      | ErrorReading _ => (false, self)
      end
  end.

(** The failure kinds of the specification, as they show in the code: a
    marker mismatch is the early return; a truncated input is an exception
    raised by a read that came back short. *)
Definition InvalidMagic (x : exit) : Prop := x = NotValidMapFile.
Definition TruncatedInput (x : exit) : Prop :=
  x = ErrorReading StructError \/ x = ErrorReading IndexError.

(* ------------------------------------------------------------------ *)
(** ** The sizes [f.read] can serve

    [read] above is [f.read] as its documentation has it.  The interpreter
    has limits of its own, and [read_utf8_string] passes [f.read] a size
    that comes from the file, with no bound on it.  On a 64-bit CPython,
    for the buffered binary file that [open(path, 'rb')] gives:
    - a size above [sys.maxsize] does not fit an index, and a size above
      [sys.maxsize - 33] is more than a [bytes] object can hold: both raise
      [OverflowError], before anything is read;
    - for any other positive size, a [bytes] object of that size is
      allocated before anything is read, and [MemoryError] is raised when
      there is no room for it.  Whether there is room depends on the machine
      and the moment: it is a parameter, [can_allocate], taken to answer the
      same for the same size throughout one run;
    - a negative size other than -1 raises [ValueError].
    The module models [f.read] with these limits and, on top of it, the
    reader once more.  The reads of a fixed size (1, 2, 4, 8 and 20 bytes)
    stay as above: that the interpreter cannot allocate a few bytes can
    happen at any step of any program, and is not modelled. *)

(** [f.read(len(self.MAGIC_BYTE))] *)
Definition read_magic_bytes : M (list byte) := lift (read (len MAGIC_BYTE)).

(** Lines 110-111. *)
Definition read_start_position : M (Z * Z) :=
  start_lat <- read_i ;;
  start_lon <- read_i ;;
  ret (start_lat, start_lon).

Module CPython.

(** [sys.maxsize] *)
Definition sys_maxsize : Z := 2 ^ 63 - 1.

(** What a [bytes] object takes besides its content. *)
Definition PyBytesObject_SIZE : Z := 33.

(** The longest [bytes] object there can be. *)
Definition bytes_max : Z := sys_maxsize - PyBytesObject_SIZE.

Inductive exn : Type :=
| OverflowError       (* cannot fit 'int' into an index-sized integer;
                         byte string is too large *)
| MemoryError
| ValueError          (* read length must be non-negative or -1 *)
| Reader (e : Py.exn). (* an exception of the reader as modelled above *)

Inductive result (A : Type) : Type :=
| Returned (a : A)
| Raised (e : exn).
Arguments Returned {A} a.
Arguments Raised {A} e.

Definition M (A : Type) : Type := file -> result A * file.

Definition ret {A : Type} (a : A) : M A := fun f => (Returned a, f).
Definition bind {A B : Type} (c : M A) (k : A -> M B) : M B :=
  fun f => match c f with
           | (Returned a, f') => k a f'
           | (Raised e, f') => (Raised e, f')
           end.
(** A computation that calls [f.read] with fixed sizes only. *)
Definition plain {A : Type} (c : file -> Py.result A * file) : M A :=
  fun f => match c f with
           | (Py.Returned a, f') => (Returned a, f')
           | (Py.Raised e, f') => (Raised (Reader e), f')
           end.

Declare Scope cpy_scope.
Delimit Scope cpy_scope with cpy.
Notation "x <- c ;; k" := (bind c (fun x => k))
  (at level 61, c at next level, right associativity) : cpy_scope.

Section Interpreter.

(** Whether the interpreter gets a buffer of [size] bytes when asked. *)
Variable can_allocate : Z -> bool.

(** The sizes above 0 that [f.read] serves. *)
Definition accepts (size : Z) : bool :=
  (size <=? bytes_max) && can_allocate size.

(** [f.read(size)].  Nothing is allocated for [size] 0; for -1, "to the
    end", the buffer is sized by the file and taken to be there. *)
Definition read (size : Z) : M (list byte) :=
  fun f =>
    if size <? -1 then (Raised ValueError, f)
    else if size <=? 0 then plain (lift (read size)) f
    else if bytes_max <? size then (Raised OverflowError, f)
    else if can_allocate size then plain (lift (read size)) f
    else (Raised MemoryError, f).

(** [read_utf8_string(f)] *)
Definition read_utf8_string : M str :=
  (length <- plain (lift read_variable_byte) ;;
   match length with
   | None => ret []
   | Some 0 => ret []
   | Some length =>
       string_bytes <- read length ;;
       plain (eval (utf8_decode ignore string_bytes))
   end)%cpy.

(** [for i in range(n): x = body(); acc.append(x)] *)
Fixpoint for_range {A : Type} (n : nat) (body : M A) (acc : list A)
  : M (list A) :=
  match n with
  | O => ret acc
  | S k => (x <- body ;; for_range k body (acc ++ [x]))%cpy
  end.

(** [if cond: x = body] *)
Definition when {A : Type} (cond : bool) (body : M A) : M (option A) :=
  if cond then (x <- body ;; ret (Some x))%cpy else ret None.

(** Lines 48-97. *)
Definition read_header : M (option header) :=
  (magic <- plain read_magic_bytes ;;
   if negb (bytes_eqb magic MAGIC_BYTE) then ret None
   else
     header_size <- plain read_I ;;
     file_version <- plain read_I ;;
     file_size <- plain read_Q ;;
     date_created <- plain read_Q ;;
     min_lat <- plain read_i ;;
     min_lon <- plain read_i ;;
     max_lat <- plain read_i ;;
     max_lon <- plain read_i ;;
     tile_size <- plain read_H ;;
     projection <- read_utf8_string ;;
     flags <- plain read_B ;;
     ret (Some (mkheader header_size file_version file_size date_created
                         min_lat min_lon max_lat max_lon
                         tile_size projection flags)))%cpy.

(** Lines 108-133. *)
Definition read_optional (flags : Z) : M optional :=
  (start_position <- when (flag flags 0x40) (plain read_start_position) ;;
   start_zoom <- when (flag flags 0x20) (plain read_B) ;;
   language <- when (flag flags 0x10) read_utf8_string ;;
   comment <- when (flag flags 0x08) read_utf8_string ;;
   created_by <- when (flag flags 0x04) read_utf8_string ;;
   ret (mkoptional start_position start_zoom language comment created_by))%cpy.

(** Lines 135-184. *)
Definition read_tables : M tables :=
  (num_poi_tags <- plain read_H ;;
   poi_tags <- for_range (Z.to_nat num_poi_tags) read_utf8_string [] ;;
   num_way_tags <- plain read_H ;;
   way_tags <- for_range (Z.to_nat num_way_tags) read_utf8_string [] ;;
   num_zoom_intervals <- plain read_B ;;
   zoom_intervals <- for_range (Z.to_nat num_zoom_intervals)
                       (plain read_zoom_interval) [] ;;
   ret (mktables num_poi_tags poi_tags num_way_tags way_tags
                 num_zoom_intervals zoom_intervals))%cpy.

(** Lines 48-192, up to the assignment to [self.tags]. *)
Definition extract_tags_body : M (option (header * optional * tables)) :=
  (h <- read_header ;;
   match h with
   | None => ret None
   | Some h =>
       o <- read_optional (flags h) ;;
       t <- read_tables ;;
       ret (Some (h, o, t))
   end)%cpy.

(** The three ways [extract_tags] ends once the file is open. *)
Inductive exit : Type :=
| Extracted (h : header) (o : optional) (t : tables)
| NotValidMapFile
| ErrorReading (e : exn).

Definition decode (content : list byte) : exit * file :=
  match extract_tags_body (mkfile 0 content) with
  | (Returned (Some (h, o, t)), f) => (Extracted h o t, f)
  | (Returned None, f) => (NotValidMapFile, f)
  | (Raised e, f) => (ErrorReading e, f)
  end.

(** [self.extract_tags()].  [OverflowError], [MemoryError] and [ValueError]
    are caught by [except Exception] like the others. *)
Definition extract_tags (fs : filesystem) (self : MapFileReader)
  : bool * MapFileReader :=
  match fs (filepath self) with
  | None => (false, self)
  | Some content =>
      match fst (decode content) with
      | Extracted _ _ t =>
          (true, {| filepath := filepath self;
                    tags := TagsDict (poi_tags t) (way_tags t)
                                     (zoom_intervals t) |})
      | NotValidMapFile => (false, self)
      | ErrorReading _ => (false, self)
      end
  end.

End Interpreter.

(** An interpreter that gets every buffer it asks for, and one that gets
    the buffers of less than 4 GiB. *)
Definition every_buffer : Z -> bool := fun _ => true.
Definition below_4GiB : Z -> bool := fun size => size <? 2 ^ 32.

(** A header whose projection announces [2^64 - 1] bytes and has three. *)
Definition announces_too_much : list byte :=
  MAGIC_BYTE ++ repeat x00 42
  ++ [xff; xff; xff; xff; xff; xff; xff; xff; xff; x01; x61; x62; x63].

End CPython.

(* ------------------------------------------------------------------ *)
(** ** The writer's side

    The source has no encoder.  The definitions of this module follow the
    layout the specification gives (section 4) and are used only to build
    inputs: the variable-length integer with 7 data bits per byte, least
    significant group first, high bit set on every byte but the last;
    fixed-width big-endian integers; length-prefixed strings. *)

Module Writer.

Definition byte_of (z : Z) : byte :=
  match Byte.of_N (Z.to_N z) with
  | Some b => b
  | None => x00
  end.

Fixpoint encode_varint_fuel (fuel : nat) (n : Z) : list byte :=
  match fuel with
  | O => []
  | S k =>
      if n <? 0x80 then [byte_of n]
      else byte_of (Z.lor (Z.land n 0x7F) 0x80)
             :: encode_varint_fuel k (Z.shiftr n 7)
  end.

(** One byte per started group of 7 bits; [Z.log2 n + 1] turns are more
    than enough. *)
Definition encode_varint (n : Z) : list byte :=
  encode_varint_fuel (S (Z.to_nat (Z.log2 n))) n.

(** [width] bytes, most significant first. *)
Fixpoint encode_fixed (width : nat) (v : Z) : list byte :=
  match width with
  | O => []
  | S w => byte_of ((v / 256 ^ Z.of_nat w) mod 256) :: encode_fixed w v
  end.

(** An ASCII string with its length prefix. *)
Definition encode_string (s : string) : list byte :=
  encode_varint (len (list_byte_of_string s)) ++ list_byte_of_string s.

(** The synthetic file of the round-trip scenario. *)
Definition synthetic : list byte :=
  MAGIC_BYTE
    ++ encode_fixed 4 0                (* header size *)
    ++ encode_fixed 4 5                (* file version *)
    ++ encode_fixed 8 100              (* file size *)
    ++ encode_fixed 8 0                (* creation timestamp *)
    ++ encode_fixed 4 1000000          (* min_lat 1.0 *)
    ++ encode_fixed 4 2000000          (* min_lon 2.0 *)
    ++ encode_fixed 4 3000000          (* max_lat 3.0 *)
    ++ encode_fixed 4 4000000          (* max_lon 4.0 *)
    ++ encode_fixed 2 256              (* tile size *)
    ++ encode_string "EPSG:3857"
    ++ encode_fixed 1 0x00             (* flags *)
    ++ encode_fixed 2 2
    ++ encode_string "amenity=restaurant"
    ++ encode_string "shop=bakery"
    ++ encode_fixed 2 1
    ++ encode_string "highway=primary"
    ++ encode_fixed 1 1
    ++ encode_fixed 1 14 ++ encode_fixed 1 8 ++ encode_fixed 1 17
    ++ encode_fixed 8 1000 ++ encode_fixed 8 5000.

End Writer.

(* ------------------------------------------------------------------ *)
(** ** Sample files *)

Module Sample.

(** A file whose 20th byte is wrong. *)
Definition bad_magic : list byte :=
  list_byte_of_string "mapsforge binary OSX and more".

(** A file that stops two bytes after the marker. *)
Definition two_after_magic : list byte := MAGIC_BYTE ++ [x00; x00].

(** The synthetic file up to its projection string. *)
Definition header_to_projection : list byte :=
  MAGIC_BYTE
    ++ Writer.encode_fixed 4 0 ++ Writer.encode_fixed 4 5
    ++ Writer.encode_fixed 8 100 ++ Writer.encode_fixed 8 0
    ++ Writer.encode_fixed 4 1000000 ++ Writer.encode_fixed 4 2000000
    ++ Writer.encode_fixed 4 3000000 ++ Writer.encode_fixed 4 4000000
    ++ Writer.encode_fixed 2 256
    ++ Writer.encode_string "EPSG:3857".

(** Flags 0x00, three POI tags announced, two present, end of file. *)
Definition two_of_three_tags : list byte :=
  header_to_projection
    ++ [x00]
    ++ Writer.encode_fixed 2 3
    ++ Writer.encode_string "amenity=restaurant"
    ++ Writer.encode_string "shop=bakery".

(** Flags 0x10 (language preference present), end of file. *)
Definition ends_at_flags : list byte := header_to_projection ++ [x10].

Definition fs_of (content : list byte) : filesystem := fun _ => Some content.

(** What the header of the synthetic file holds. *)
Definition expected_header : header :=
  {| header_size := 0; file_version := 5; file_size := 100;
     date_created := 0;
     min_lat := 1000000; min_lon := 2000000;
     max_lat := 3000000; max_lon := 4000000;
     tile_size := 256;
     projection := str_of_string "EPSG:3857";
     flags := 0 |}.

(** The header of [ends_at_flags]: the same, with flags 0x10. *)
Definition header_with_language : header :=
  {| header_size := 0; file_version := 5; file_size := 100;
     date_created := 0;
     min_lat := 1000000; min_lon := 2000000;
     max_lat := 3000000; max_lon := 4000000;
     tile_size := 256;
     projection := str_of_string "EPSG:3857";
     flags := 0x10 |}.

Definition no_optional : optional :=
  {| start_position := None; start_zoom := None; language := None;
     comment := None; created_by := None |}.

Definition expected_tables : tables :=
  {| num_poi_tags := 2;
     poi_tags := [str_of_string "amenity=restaurant";
                  str_of_string "shop=bakery"];
     num_way_tags := 1;
     way_tags := [str_of_string "highway=primary"];
     num_zoom_intervals := 1;
     zoom_intervals := [mkZoomInterval 14 8 17 1000 5000] |}.

End Sample.

(* ------------------------------------------------------------------ *)
(** ** Vocabulary for the statements *)

(** The file after [i] calls of [body] that all returned. *)
Fixpoint after {A : Type} (i : nat) (body : M A) (f : file) : option file :=
  match i with
  | O => Some f
  | S j =>
      match body f with
      | (Returned _, f') => after j body f'
      | (Raised _, _) => None
      end
  end.

(** What call number [i] (from 0) of [body] returns, the calls being made
    one after the other from [f]. *)
Definition ith_read {A : Type} (i : nat) (body : M A) (f : file) : option A :=
  match after i body f with
  | Some fi =>
      match body fi with
      | (Returned a, _) => Some a
      | (Raised _, _) => None
      end
  | None => None
  end.

(** A table was read from [f0] to [f1]: first [count] with [read_count],
    then the entries, entry [i] being what call [i] of [body] returned. *)
Definition table_read {A : Type} (read_count : M Z) (body : M A)
    (f0 : file) (count : Z) (entries : list A) (f1 : file) : Prop :=
  exists f,
    read_count f0 = (Returned count, f)
    /\ len entries = count
    /\ (forall i, (i < List.length entries)%nat ->
                  nth_error entries i = ith_read i body f)
    /\ after (List.length entries) body f = Some f1.

(** [s] is [r] with some of its replacement characters taken out and
    nothing else changed. *)
Inductive drops_replacements : str -> str -> Prop :=
| drops_nil : drops_replacements [] []
| drops_keep c s r :
    drops_replacements s r -> drops_replacements (c :: s) (c :: r)
| drops_drop s r :
    drops_replacements s r ->
    drops_replacements s (REPLACEMENT_CHARACTER :: r).

(** The bytes EF BF BD, the UTF-8 form of U+FFFD, occur in [bs]. *)
Definition encodes_replacement (bs : list byte) : Prop :=
  exists pre post, bs = pre ++ [xef; xbf; xbd] ++ post.

(** Every byte, for checks by enumeration. *)
Definition all_bytes : list byte :=
  flat_map (fun n => match Byte.of_N (N.of_nat n) with
                     | Some b => [b]
                     | None => []
                     end) (seq 0 256).

(** Checks by enumeration, one function per nesting level: no two-byte
    sequence decodes to U+FFFD ... *)
Definition cp2_cell (b b2 : byte) : bool :=
  negb (cp2 (byte_val b) (byte_val b2) =? REPLACEMENT_CHARACTER).

Definition cp2_row (b : byte) : bool :=
  if negb (byte_val b <? 0xC2) && (byte_val b <? 0xE0)
  then forallb (cp2_cell b) all_bytes
  else true.

(** ... the only three-byte sequence that does is EF BF BD ... *)
Definition cp3_cell (b b2 b3 : byte) : bool :=
  if is_cont (byte_val b3)
     && (cp3 (byte_val b) (byte_val b2) (byte_val b3)
         =? REPLACEMENT_CHARACTER)
  then Byte.eqb b xef && Byte.eqb b2 xbf && Byte.eqb b3 xbd
  else true.

Definition cp3_mid (b b2 : byte) : bool :=
  if bad_second3 (byte_val b) (byte_val b2) then true
  else forallb (cp3_cell b b2) all_bytes.

Definition cp3_row (b : byte) : bool :=
  if negb (byte_val b <? 0xE0) && (byte_val b <? 0xF0)
  then forallb (cp3_mid b) all_bytes
  else true.

(** ... and an accepted four-byte sequence has a bit set at 16 or above;
    those bits come from the first two bytes only. *)
Definition cp4_high (c c2 : Z) : Z :=
  Z.lor (Z.shiftr (Z.shiftl (Z.land c 0x07) 18) 16)
        (Z.shiftr (Z.shiftl (Z.land c2 0x3F) 12) 16).

Definition cp4_cell (b b2 : byte) : bool :=
  if bad_second4 (byte_val b) (byte_val b2) then true
  else negb (cp4_high (byte_val b) (byte_val b2) =? 0).

Definition cp4_row (b : byte) : bool :=
  if negb (byte_val b <? 0xF0) && (byte_val b <? 0xF5)
  then forallb (cp4_cell b) all_bytes
  else true.

(* ------------------------------------------------------------------ *)
(** * The rest of the two scripts

    The definitions from here to the properties model what the statements
    above leave out: how the reader moves its cursor, a writer to read back
    from, the text export and the folder run of [extract_tags.py], and the
    tag counting, tool selection, exports and command line of
    [extract_tags_pbf.py]. *)

From Stdlib Require Import DecimalString Sorting.Sorted Sorting.Permutation.

(* ------------------------------------------------------------------ *)
(** ** More vocabulary: how a computation moves the cursor *)

(** [c] only moves forward: what it leaves unread is a suffix of what it
    found, and the cursor has advanced by the number of bytes taken.  This
    covers the runs that raise as well as those that return. *)
Definition advances {A : Type} (c : M A) : Prop :=
  forall f r f',
    c f = (r, f') ->
    exists got, rest f = got ++ rest f' /\ pos f' = pos f + len got.

(** [c] reads the value [a] from exactly the bytes [bytes], wherever they
    stand and whatever follows them. *)
Definition reads {A : Type} (c : M A) (bytes : list byte) (a : A) : Prop :=
  forall p tail,
    c (mkfile p (bytes ++ tail)) = (Returned a, mkfile (p + len bytes) tail).

Definition is_some {A : Type} (o : option A) : bool :=
  match o with
  | Some _ => true
  | None => false
  end.

(** What [read_utf8_string] makes of a payload. *)
Definition lenient (payload : list byte) : str :=
  match utf8_decode ignore payload with
  | Returned s => s
  | Raised _ => []
  end.

(** How the reader with the limits of [f.read] relates to the reader
    without them.

    [follows c' c]: whatever [c'] does, short of raising from those limits,
    [c] does too. *)
Definition follows {A : Type} (c' : CPython.M A) (c : M A) : Prop :=
  forall f,
    match c' f with
    | (CPython.Returned a, f') => c f = (Returned a, f')
    | (CPython.Raised (CPython.Reader e), f') => c f = (Raised e, f')
    | (CPython.Raised _, _) => True
    end.

(** [tracks bound c' c]: with at most [bound] bytes to read, when [c]
    returns, [c'] has returned the same, unless [c] has reached the end of
    the file. *)
Definition tracks {A : Type} (bound : Z) (c' : CPython.M A) (c : M A)
  : Prop :=
  forall f a f',
    len (rest f) <= bound ->
    c f = (Returned a, f') ->
    c' f = (CPython.Returned a, f') \/ rest f' = [].

(** The same without the exception. *)
Definition tracks_all {A : Type} (bound : Z) (c' : CPython.M A) (c : M A)
  : Prop :=
  forall f a f',
    len (rest f) <= bound ->
    c f = (Returned a, f') ->
    c' f = (CPython.Returned a, f').

(** [c] does not return once the file is exhausted. *)
Definition starves {A : Type} (c : M A) : Prop :=
  forall f a f', rest f = [] -> c f <> (Returned a, f').

(** The ranges of the fixed-width fields. *)
Definition u8 (v : Z) : Prop := 0 <= v < 2 ^ 8.
Definition u16 (v : Z) : Prop := 0 <= v < 2 ^ 16.
Definition u32 (v : Z) : Prop := 0 <= v < 2 ^ 32.
Definition u64 (v : Z) : Prop := 0 <= v < 2 ^ 64.
Definition i32 (v : Z) : Prop := - 2 ^ 31 <= v < 2 ^ 31.

Definition zoom_interval_in_range (z : ZoomInterval) : Prop :=
  u8 (base_zoom z) /\ u8 (min_zoom z) /\ u8 (max_zoom z)
  /\ u64 (subfile_start z) /\ u64 (subfile_size z).

(** The smallest file that decodes: an empty projection, no optional field,
    no tag, no zoom interval. *)
Definition smallest_file : list byte := MAGIC_BYTE ++ repeat x00 49.

(* ------------------------------------------------------------------ *)
(** ** A writer for whole files

    As with [Writer], the source has no encoder; this one lays a file out
    in the order [extract_tags] reads it.  Strings are given as their
    payload bytes. *)

Module MapWriter.

(** A string with its length prefix. *)
Definition encode_payload (payload : list byte) : list byte :=
  Writer.encode_varint (len payload) ++ payload.

(** A signed 32-bit value, two's complement. *)
Definition encode_i (v : Z) : list byte := Writer.encode_fixed 4 (v mod 2 ^ 32).

Definition encode_zoom_interval (z : ZoomInterval) : list byte :=
  Writer.encode_fixed 1 (base_zoom z)
    ++ Writer.encode_fixed 1 (min_zoom z)
    ++ Writer.encode_fixed 1 (max_zoom z)
    ++ Writer.encode_fixed 8 (subfile_start z)
    ++ Writer.encode_fixed 8 (subfile_size z).

(** What goes into a file: the integers as in [header], the strings as
    payload bytes. *)
Record source : Type := mksource {
  s_header_size : Z;
  s_file_version : Z;
  s_file_size : Z;
  s_date_created : Z;
  s_min_lat : Z;
  s_min_lon : Z;
  s_max_lat : Z;
  s_max_lon : Z;
  s_tile_size : Z;
  s_projection : list byte;
  s_debug : bool;                       (* flag bit 0x80 *)
  s_start_position : option (Z * Z);
  s_start_zoom : option Z;
  s_language : option (list byte);
  s_comment : option (list byte);
  s_created_by : option (list byte);
  s_poi_tags : list (list byte);
  s_way_tags : list (list byte);
  s_zoom_intervals : list ZoomInterval
}.

Definition present {A : Type} (o : option A) (mask : Z) : Z :=
  match o with
  | Some _ => mask
  | None => 0
  end.

(** The flags byte that announces the optional fields of [s]. *)
Definition flags_of (s : source) : Z :=
  (if s_debug s then 0x80 else 0)
  + present (s_start_position s) 0x40
  + present (s_start_zoom s) 0x20
  + present (s_language s) 0x10
  + present (s_comment s) 0x08
  + present (s_created_by s) 0x04.

Definition encode_option {A : Type} (enc : A -> list byte) (o : option A)
  : list byte :=
  match o with
  | Some a => enc a
  | None => []
  end.

Definition encode_header (s : source) : list byte :=
  MAGIC_BYTE
    ++ Writer.encode_fixed 4 (s_header_size s)
    ++ Writer.encode_fixed 4 (s_file_version s)
    ++ Writer.encode_fixed 8 (s_file_size s)
    ++ Writer.encode_fixed 8 (s_date_created s)
    ++ encode_i (s_min_lat s)
    ++ encode_i (s_min_lon s)
    ++ encode_i (s_max_lat s)
    ++ encode_i (s_max_lon s)
    ++ Writer.encode_fixed 2 (s_tile_size s)
    ++ encode_payload (s_projection s)
    ++ Writer.encode_fixed 1 (flags_of s).

Definition encode_optional (s : source) : list byte :=
  encode_option (fun '(lat, lon) => encode_i lat ++ encode_i lon)
    (s_start_position s)
    ++ encode_option (Writer.encode_fixed 1) (s_start_zoom s)
    ++ encode_option encode_payload (s_language s)
    ++ encode_option encode_payload (s_comment s)
    ++ encode_option encode_payload (s_created_by s).

Definition encode_tables (s : source) : list byte :=
  Writer.encode_fixed 2 (len (s_poi_tags s))
    ++ flat_map encode_payload (s_poi_tags s)
    ++ Writer.encode_fixed 2 (len (s_way_tags s))
    ++ flat_map encode_payload (s_way_tags s)
    ++ Writer.encode_fixed 1 (len (s_zoom_intervals s))
    ++ flat_map encode_zoom_interval (s_zoom_intervals s).

Definition encode (s : source) : list byte :=
  encode_header s ++ encode_optional s ++ encode_tables s.

(** What decoding the file of [s] should give. *)
Definition header_of (s : source) : header :=
  {| header_size := s_header_size s;
     file_version := s_file_version s;
     file_size := s_file_size s;
     date_created := s_date_created s;
     min_lat := s_min_lat s;
     min_lon := s_min_lon s;
     max_lat := s_max_lat s;
     max_lon := s_max_lon s;
     tile_size := s_tile_size s;
     projection := lenient (s_projection s);
     flags := flags_of s |}.

Definition optional_of (s : source) : optional :=
  {| start_position := s_start_position s;
     start_zoom := s_start_zoom s;
     language := option_map lenient (s_language s);
     comment := option_map lenient (s_comment s);
     created_by := option_map lenient (s_created_by s) |}.

Definition tables_of (s : source) : tables :=
  {| num_poi_tags := len (s_poi_tags s);
     poi_tags := map lenient (s_poi_tags s);
     num_way_tags := len (s_way_tags s);
     way_tags := map lenient (s_way_tags s);
     num_zoom_intervals := len (s_zoom_intervals s);
     zoom_intervals := s_zoom_intervals s |}.

(** Every field of [s] fits the width the layout gives it. *)
Definition in_range (s : source) : Prop :=
  u32 (s_header_size s) /\ u32 (s_file_version s)
  /\ u64 (s_file_size s) /\ u64 (s_date_created s)
  /\ i32 (s_min_lat s) /\ i32 (s_min_lon s)
  /\ i32 (s_max_lat s) /\ i32 (s_max_lon s)
  /\ u16 (s_tile_size s)
  /\ match s_start_position s with
     | Some (lat, lon) => i32 lat /\ i32 lon
     | None => True
     end
  /\ match s_start_zoom s with
     | Some z => u8 z
     | None => True
     end
  /\ u16 (len (s_poi_tags s))
  /\ u16 (len (s_way_tags s))
  /\ u8 (len (s_zoom_intervals s))
  /\ Forall zoom_interval_in_range (s_zoom_intervals s).

End MapWriter.

(* ------------------------------------------------------------------ *)
(** ** Unicode scalar values *)

(** A code point that is not a surrogate and not above U+10FFFF: what a
    well-formed UTF-8 sequence stands for, and what the UTF-8 encoder of a
    text file accepts. *)
Definition is_scalar (c : Z) : bool :=
  ((0 <=? c) && (c <? 0xD800)) || ((0xE000 <=? c) && (c <=? 0x10FFFF)).

Definition all_scalar (l : list str) : Prop :=
  Forall (fun s => forallb is_scalar s = true) l.

Definition scalar_cp2_cell (b b2 : byte) : bool :=
  is_scalar (cp2 (byte_val b) (byte_val b2)).

Definition scalar_cp2_row (b : byte) : bool :=
  if negb (byte_val b <? 0xC2) && (byte_val b <? 0xE0)
  then forallb (scalar_cp2_cell b) all_bytes
  else true.

Definition scalar_cp3_cell (b b2 b3 : byte) : bool :=
  is_scalar (cp3 (byte_val b) (byte_val b2) (byte_val b3)).

Definition scalar_cp3_mid (b b2 : byte) : bool :=
  if bad_second3 (byte_val b) (byte_val b2) then true
  else forallb (scalar_cp3_cell b b2) all_bytes.

Definition scalar_cp3_row (b : byte) : bool :=
  if negb (byte_val b <? 0xE0) && (byte_val b <? 0xF0)
  then forallb (scalar_cp3_mid b) all_bytes
  else true.

(** For four bytes the first two decide: bits 16 and up are between 1 and
    0x10. *)
Definition scalar_cp4_cell (b b2 : byte) : bool :=
  if bad_second4 (byte_val b) (byte_val b2) then true
  else (1 <=? cp4_high (byte_val b) (byte_val b2))
       && (cp4_high (byte_val b) (byte_val b2) <=? 0x10).

Definition scalar_cp4_row (b : byte) : bool :=
  if negb (byte_val b <? 0xF0) && (byte_val b <? 0xF5)
  then forallb (scalar_cp4_cell b) all_bytes
  else true.

(* ------------------------------------------------------------------ *)
(** ** MapFileReader.export_tags_to_file

    The text file opened with [open(output_file, 'w', encoding='utf-8')]
    is the text written to it so far.  [f.write(s)] encodes [s] at once and
    raises [UnicodeEncodeError] on a surrogate, nothing of [s] being
    written; what was written before stays in the file when the [with]
    block is left. *)

Module TextFile.

Inductive exn : Type :=
| AttributeError       (* [].get *)
| UnicodeEncodeError   (* f.write of a surrogate *)
| OSError.             (* open() for writing *)

Inductive outcome (A : Type) : Type :=
| Done (a : A)
| Failed (e : exn).
Arguments Done {A} a.
Arguments Failed {A} e.

(** Computations that write to the open text file. *)
Definition W (A : Type) : Type := str -> outcome A * str.

Definition done {A : Type} (a : A) : W A := fun t => (Done a, t).
Definition fail {A : Type} (e : exn) : W A := fun t => (Failed e, t).
Definition then_ {A B : Type} (c : W A) (k : A -> W B) : W B :=
  fun t => match c t with
           | (Done a, t') => k a t'
           | (Failed e, t') => (Failed e, t')
           end.

(** [f.write(s)] *)
Definition write (s : str) : W unit :=
  fun t => if forallb is_scalar s then (Done tt, t ++ s)
           else (Failed UnicodeEncodeError, t).

End TextFile.

(** [str(i)] for an index. *)
Definition decimal (i : nat) : str :=
  str_of_string (NilZero.string_of_uint (Nat.to_uint i)).

Definition newline : str := [10].

(** [f"{i}: {tag}\n"] *)
Definition tag_line (i : nat) (tag : str) : str :=
  decimal i ++ str_of_string ": " ++ tag ++ newline.

(** [for i, tag in enumerate(tags): f.write(f"{i}: {tag}\n")], entered at
    index [i]. *)
Fixpoint write_tag_lines (i : nat) (tags : list str) : TextFile.W unit :=
  match tags with
  | [] => TextFile.done tt
  | tag :: tags' =>
      TextFile.then_ (TextFile.write (tag_line i tag))
        (fun _ => write_tag_lines (S i) tags')
  end.

(** [self.tags.get(key, [])] for the keys ['poi_tags'] and ['way_tags']: a
    list has no [get]; the dict has both keys. *)
Definition tags_get (t : tags_value) (poi : bool) : TextFile.W (list str) :=
  match t with
  | EmptyList => TextFile.fail TextFile.AttributeError
  | TagsDict poi_tags way_tags _ =>
      TextFile.done (if poi then poi_tags else way_tags)
  end.

(** The block under [with open(...) as f] of [export_tags_to_file]. *)
Definition export_body (self : MapFileReader) : TextFile.W unit :=
  TextFile.then_ (TextFile.write (str_of_string "=== POI Tags ===" ++ newline))
  (fun _ =>
  TextFile.then_ (tags_get (tags self) true) (fun poi =>
  TextFile.then_ (write_tag_lines 0 poi) (fun _ =>
  TextFile.then_
    (TextFile.write (newline ++ str_of_string "=== Way Tags ===" ++ newline))
  (fun _ =>
  TextFile.then_ (tags_get (tags self) false) (fun way =>
  write_tag_lines 0 way))))).

(** [self.export_tags_to_file(output_file)]: the returned [bool], and the
    text of the output file when it could be opened ([can_open]); the file
    is not touched otherwise. *)
Definition export_tags_to_file (self : MapFileReader) (can_open : bool)
  : bool * option str :=
  if can_open then
    match export_body self [] with
    | (TextFile.Done _, text) => (true, Some text)
    | (TextFile.Failed _, text) => (false, Some text)
    end
  else (false, None).

(** The text of a complete export. *)
Definition export_text (poi way : list str) : str :=
  str_of_string "=== POI Tags ===" ++ newline
    ++ List.concat (map (fun '(i, tag) => tag_line i tag)
                 (combine (seq 0 (List.length poi)) poi))
    ++ newline ++ str_of_string "=== Way Tags ===" ++ newline
    ++ List.concat (map (fun '(i, tag) => tag_line i tag)
                 (combine (seq 0 (List.length way)) way)).

(** [process_single_file(map_file, output_file)]: [output] is [None] when
    no output file is named, and otherwise tells whether it can be
    opened.  The result is the returned [bool] and the text of the output
    file if one was written. *)
Definition process_single_file (fs : filesystem) (map_file : string)
    (output : option bool) : bool * option str :=
  let reader := init map_file in
  match extract_tags fs reader with
  | (true, reader') =>
      match output with
      | Some can_open => (true, snd (export_tags_to_file reader' can_open))
      | None => (true, None)
      end
  | (false, _) => (false, None)
  end.

(* ------------------------------------------------------------------ *)
(** ** process_folder (without an output folder) *)

(** [a < b] on [str]: code point by code point, a proper prefix first. *)
Fixpoint str_ltb (a b : str) : bool :=
  match a, b with
  | [], [] => false
  | [], _ :: _ => true
  | _ :: _, [] => false
  | x :: a', y :: b' =>
      if x <? y then true else if y <? x then false else str_ltb a' b'
  end.

Definition str_eqb (a b : str) : bool :=
  if list_eq_dec Z.eq_dec a b then true else false.

(** [sorted(...)] by insertion; [a] goes before the first element that is
    greater, so equal elements keep their order. *)
Fixpoint insert_sorted (a : str) (l : list str) : list str :=
  match l with
  | [] => [a]
  | b :: l' => if str_ltb a b then a :: l else b :: insert_sorted a l'
  end.

Fixpoint sorted (l : list str) : list str :=
  match l with
  | [] => []
  | a :: l' => insert_sorted a (sorted l')
  end.

(** A [set] of strings, as the list of its elements without repetition;
    [set.update(l)] adds the elements of [l] that are not there yet. *)
Definition set_add (s : list str) (a : str) : list str :=
  if existsb (str_eqb a) s then s else s ++ [a].

Definition set_update (s : list str) (l : list str) : list str :=
  fold_left set_add l s.

(** Whether [extract_tags] succeeds on a file, and the tags it then
    stores. *)
Definition extracts (fs : filesystem) (map_file : string) : bool :=
  fst (extract_tags fs (init map_file)).

Definition tags_of_file (fs : filesystem) (map_file : string) : tags_value :=
  tags (snd (extract_tags fs (init map_file))).

(** [a < b], as a proposition. *)
Definition str_lt (a b : str) : Prop := str_ltb a b = true.

(** The locals of [process_folder] that the loop updates. *)
Record folder_state : Type := mkfolder_state {
  success_count : nat;
  failed_files : list string;
  all_poi_tags : list str;
  all_way_tags : list str
}.

(** One turn of the loop over [map_files]. *)
Definition process_one (fs : filesystem) (st : folder_state)
    (map_file : string) : folder_state :=
  match extract_tags fs (init map_file) with
  | (true, reader) =>
      match tags reader with
      | TagsDict poi way _ =>
          {| success_count := S (success_count st);
             failed_files := failed_files st;
             all_poi_tags := set_update (all_poi_tags st) poi;
             all_way_tags := set_update (all_way_tags st) way |}
      | EmptyList =>
          (* [].get raises; the except branch of the loop *)
          {| success_count := S (success_count st);
             failed_files := failed_files st ++ [map_file];
             all_poi_tags := all_poi_tags st;
             all_way_tags := all_way_tags st |}
      end
  | (false, _) =>
      {| success_count := success_count st;
         failed_files := failed_files st ++ [map_file];
         all_poi_tags := all_poi_tags st;
         all_way_tags := all_way_tags st |}
  end.

(** What [process_folder] reports at the end. *)
Record folder_report : Type := mkfolder_report {
  total_files : nat;
  successful : nat;
  failed : list string;
  sorted_poi_tags : list str;
  sorted_way_tags : list str
}.

(** [process_folder(folder_path)], no output folder given.  [folder] is
    [None] when the path does not exist or is no directory, and otherwise
    the [.map] files found in it, in sorted order.  The result is the
    returned [bool] and the summary, if the function got that far. *)
Definition process_folder (fs : filesystem) (folder : option (list string))
  : bool * option folder_report :=
  match folder with
  | None => (false, None)
  | Some [] => (false, None)
  | Some map_files =>
      let st := fold_left (process_one fs) map_files
                  (mkfolder_state 0 [] [] []) in
      (Nat.eqb (List.length (failed_files st)) 0,
       Some {| total_files := List.length map_files;
               successful := success_count st;
               failed := failed_files st;
               sorted_poi_tags := sorted (all_poi_tags st);
               sorted_way_tags := sorted (all_way_tags st) |})
  end.

(* ------------------------------------------------------------------ *)
(** ** PBFTagExtractor ([src/extract_tags_pbf.py])

    The two external tools are inputs of the model: what running
    [osmium] gives (exit status and output, or the exception
    [subprocess.run] raises) and what pyosmium does (not installed, fails
    while reading the file, or calls the handler on a sequence of
    objects). *)

Module PBF.

(** Python text operations, on [str]. *)

(** [c.isspace()] for one character. *)
Definition isspace (c : Z) : bool :=
  ((0x09 <=? c) && (c <=? 0x0D)) || ((0x1C <=? c) && (c <=? 0x20))
  || (c =? 0x85) || (c =? 0xA0) || (c =? 0x1680)
  || ((0x2000 <=? c) && (c <=? 0x200A))
  || (c =? 0x2028) || (c =? 0x2029) || (c =? 0x202F) || (c =? 0x205F)
  || (c =? 0x3000).

Fixpoint lstrip (s : str) : str :=
  match s with
  | [] => []
  | c :: s' => if isspace c then lstrip s' else s
  end.

(** [s.strip()] *)
Definition strip (s : str) : str := rev (lstrip (rev (lstrip s))).

(** [s.split(sep)] for a one-character separator. *)
Fixpoint split (sep : Z) (s : str) : list str :=
  match s with
  | [] => [[]]
  | c :: s' =>
      if c =? sep then [] :: split sep s'
      else match split sep s' with
           | w :: ws => (c :: w) :: ws
           | [] => [[c]]
           end
  end.

(** [s.split(sep, 1)] when [sep] occurs in [s]: what is before the first
    occurrence and what is after it. *)
Fixpoint split_once (sep : Z) (s : str) : str * str :=
  match s with
  | [] => ([], [])
  | c :: s' =>
      if c =? sep then ([], s')
      else let (k, v) := split_once sep s' in (c :: k, v)
  end.

(** [sep in s] *)
Definition contains (sep : Z) (s : str) : bool := existsb (Z.eqb sep) s.

(** A [Counter]: its items in insertion order. *)
Definition Counter : Type := list (str * Z).

(** [c[k]] *)
Fixpoint get (c : Counter) (k : str) : Z :=
  match c with
  | [] => 0
  | (k', n) :: c' => if str_eqb k' k then n else get c' k
  end.

(** [c[k] += 1] *)
Fixpoint incr (c : Counter) (k : str) : Counter :=
  match c with
  | [] => [(k, 1)]
  | (k', n) :: c' =>
      if str_eqb k' k then (k', n + 1) :: c' else (k', n) :: incr c' k
  end.

(** The three counters of an extractor. *)
Record counters : Type := mkcounters {
  node_tags : Counter;
  way_tags : Counter;
  relation_tags : Counter
}.

(** [PBFTagExtractor(filepath)] *)
Definition fresh : counters := mkcounters [] [] [].

Definition char_n : Z := 110.
Definition char_w : Z := 119.
Definition char_r : Z := 114.
Definition char_T : Z := 84.
Definition char_eq : Z := 61.
Definition char_space : Z := 32.
Definition char_newline : Z := 10.

(** Lines 86-91: count [tag_str] for the element type of the line. *)
Definition count_tag (elem_type : Z) (tag_str : str) (st : counters)
  : counters :=
  if elem_type =? char_n then
    mkcounters (incr (node_tags st) tag_str) (way_tags st) (relation_tags st)
  else if elem_type =? char_w then
    mkcounters (node_tags st) (incr (way_tags st) tag_str) (relation_tags st)
  else if elem_type =? char_r then
    mkcounters (node_tags st) (way_tags st) (incr (relation_tags st) tag_str)
  else st.

(** Lines 80-91, for one [part]. *)
Definition count_part (elem_type : Z) (part : str) (st : counters)
  : counters :=
  match part with
  | c :: tag =>
      if c =? char_T then                       (* part.startswith('T') *)
        if contains char_eq tag then
          let (key, value) := split_once char_eq tag in
          let tag_str := key ++ [char_eq] ++ value in
          count_tag elem_type tag_str st
        else st
      else st
  | [] => st
  end.

(** Lines 79-91: [for part in parts]. *)
Definition count_parts (elem_type : Z) (parts : list str) (st : counters)
  : counters :=
  fold_left (fun st part => count_part elem_type part st) parts st.

(** Lines 69-91, one line of the output.  [None] is the [IndexError] of
    [parts[0][0]] on an empty first part. *)
Definition count_line (line : str) (st : counters) : option counters :=
  match strip line with
  | [] => Some st                                   (* continue *)
  | _ :: _ =>
      let parts := split char_space line in
      if (len parts <? 2) then Some st              (* continue *)
      else
        match parts with
        | (elem_type :: _) :: _ => Some (count_parts elem_type parts st)
        | _ => None
        end
  end.

(** Lines 68-91: the loop over the lines.  The counters are updated in
    place, so when a line raises they keep what the lines before it
    added. *)
Fixpoint count_lines (lines : list str) (st : counters)
  : bool * counters :=
  match lines with
  | [] => (true, st)
  | line :: lines' =>
      match count_line line st with
      | Some st' => count_lines lines' st'
      | None => (false, st)
      end
  end.

(** What [subprocess.run] does. *)
Inductive run : Type :=
| Completed (returncode : Z) (stdout stderr : str)
| FileNotFoundError
| TimeoutExpired
| OtherError.

(** [check_osmium_installed()]: [None] when an exception other than
    [FileNotFoundError] leaves it. *)
Definition check_osmium_installed (version : run) : option bool :=
  match version with
  | Completed returncode _ _ => Some (returncode =? 0)
  | FileNotFoundError => Some false
  | TimeoutExpired => None
  | OtherError => None
  end.

(** [extract_tags_with_osmium()]: [version] is the run of
    [osmium --version], [filter] the run of [osmium tags-filter].  Every
    exception ends in one of the two [except] branches, which return
    [False]. *)
Definition extract_tags_with_osmium (st : counters) (version filter : run)
  : bool * counters :=
  match check_osmium_installed version with
  | None => (false, st)
  | Some false => (false, st)
  | Some true =>
      match filter with
      | Completed returncode stdout _ =>
          if negb (returncode =? 0) then (false, st)
          else count_lines (split char_newline stdout) st
      | FileNotFoundError => (false, st)
      | TimeoutExpired => (false, st)
      | OtherError => (false, st)
      end
  end.

Inductive kind : Type := node | way | relation.

(** An object pyosmium hands to the handler: its kind and its tags. *)
Record osm_object : Type := mkobject {
  okind : kind;
  otags : list (str * str)
}.

(** What pyosmium does. *)
Inductive pyosmium : Type :=
| NotInstalled                          (* import osmium raises ImportError *)
| ApplyFails                            (* apply_file raises *)
| Applied (objects : list osm_object).

(** [for tag in x.tags: counter[f"{tag.k}={tag.v}"] += 1] *)
Definition count_tags (tags : list (str * str)) (c : Counter) : Counter :=
  fold_left (fun c '(k, v) => incr c (k ++ [char_eq] ++ v)) tags c.

(** The callbacks [node], [way], [relation] of [TagHandler]. *)
Definition handle (st : counters) (x : osm_object) : counters :=
  match okind x with
  | node =>
      mkcounters (count_tags (otags x) (node_tags st))
                 (way_tags st) (relation_tags st)
  | way =>
      mkcounters (node_tags st) (count_tags (otags x) (way_tags st))
                 (relation_tags st)
  | relation =>
      mkcounters (node_tags st) (way_tags st)
                 (count_tags (otags x) (relation_tags st))
  end.

(** [extract_tags_with_pyosmium()]: [None] when the exception of
    [apply_file] leaves it.  The handler starts from empty counters, and
    they replace the extractor's. *)
Definition extract_tags_with_pyosmium (st : counters) (py : pyosmium)
  : option bool * counters :=
  match py with
  | NotInstalled => (Some false, st)
  | ApplyFails => (None, st)
  | Applied objects => (Some true, fold_left handle objects fresh)
  end.

(** [extract_tags(use_osmium=...)] *)
Definition extract_tags (st : counters) (use_osmium : option bool)
    (py : pyosmium) (version filter : run) : option bool * counters :=
  match use_osmium with
  | None =>
      match extract_tags_with_pyosmium st py with
      | (Some b, st') => (Some b, st')
      | (None, st') =>
          let (b, st'') := extract_tags_with_osmium st' version filter in
          (Some b, st'')
      end
  | Some true =>
      let (b, st') := extract_tags_with_osmium st version filter in
      (Some b, st')
  | Some false => extract_tags_with_pyosmium st py
  end.

(** [sorted(c.items(), key=itemgetter(1), reverse=True)]: by count, larger
    first, items of equal count in the order they have in [c]. *)
Fixpoint insert_by_count (x : str * Z) (l : list (str * Z))
  : list (str * Z) :=
  match l with
  | [] => [x]
  | y :: l' =>
      if snd y <=? snd x then x :: l else y :: insert_by_count x l'
  end.

(** [c.most_common()] *)
Fixpoint most_common (c : Counter) : list (str * Z) :=
  match c with
  | [] => []
  | x :: c' => insert_by_count x (most_common c')
  end.

(** [for tag, count in items: if count < min_count: break; ...]: the
    items the loop body is run on. *)
Fixpoint until_below (min_count : Z) (items : list (str * Z))
  : list (str * Z) :=
  match items with
  | [] => []
  | (tag, count) :: items' =>
      if count <? min_count then []
      else (tag, count) :: until_below min_count items'
  end.

(** A cell of a CSV row. *)
Inductive cell : Type :=
| Text (s : str)
| Number (n : Z).

(** [_export_csv]: the rows handed to [writer.writerow], in order. *)
Definition export_csv_rows (st : counters) (min_count : Z)
  : list (list cell) :=
  [Text (str_of_string "Element Type"); Text (str_of_string "Tag");
   Text (str_of_string "Count")]
  :: map (fun '(tag, count) =>
            [Text (str_of_string "node"); Text tag; Number count])
       (until_below min_count (most_common (node_tags st)))
  ++ map (fun '(tag, count) =>
            [Text (str_of_string "way"); Text tag; Number count])
       (until_below min_count (most_common (way_tags st)))
  ++ map (fun '(tag, count) =>
            [Text (str_of_string "relation"); Text tag; Number count])
       (until_below min_count (most_common (relation_tags st))).

(** [_export_json]: the value of one of the keys ['node_tags'],
    ['way_tags'], ['relation_tags'] of [data], a dict comprehension over
    [c.items()]. *)
Definition export_json_tags (c : Counter) (min_count : Z) : list (str * Z) :=
  filter (fun '(tag, count) => min_count <=? count) c.

End PBF.

(** A counter is in order: no key twice, no count below 1. *)
Definition counter_ok (c : PBF.Counter) : Prop :=
  NoDup (map fst c) /\ Forall (fun kv => 1 <= snd kv) c.

Definition counters_ok (st : PBF.counters) : Prop :=
  counter_ok (PBF.node_tags st) /\ counter_ok (PBF.way_tags st)
  /\ counter_ok (PBF.relation_tags st).

(** Counter by counter and key by key, [st] holds the counts of [st0]
    plus those of [d]. *)
Definition sums (st0 d st : PBF.counters) : Prop :=
  forall k,
    PBF.get (PBF.node_tags st) k
    = PBF.get (PBF.node_tags st0) k + PBF.get (PBF.node_tags d) k
    /\ PBF.get (PBF.way_tags st) k
       = PBF.get (PBF.way_tags st0) k + PBF.get (PBF.way_tags d) k
    /\ PBF.get (PBF.relation_tags st) k
       = PBF.get (PBF.relation_tags st0) k + PBF.get (PBF.relation_tags d) k.

(** Larger counts first. *)
Definition count_ge (x y : str * Z) : Prop := snd y <= snd x.

(** The sum of the counts of a counter. *)
Definition total (c : PBF.Counter) : Z :=
  fold_right (fun kv acc => snd kv + acc) 0 c.

Definition same_kind (a b : PBF.kind) : bool :=
  match a, b with
  | PBF.node, PBF.node => true
  | PBF.way, PBF.way => true
  | PBF.relation, PBF.relation => true
  | _, _ => false
  end.

(** How many tags the objects of kind [k] carry, all in all. *)
Definition tags_of_kind (k : PBF.kind) (objects : list PBF.osm_object) : Z :=
  fold_right (fun x acc =>
                (if same_kind (PBF.okind x) k then len (PBF.otags x) else 0)
                + acc) 0 objects.

(* ------------------------------------------------------------------ *)
(** ** Command line of [extract_tags_pbf.py]

    Lines 476-512 of [main]: the options after the input path.  [int] is
    Python's [int(...)] on a string, [None] where it raises
    [ValueError]. *)

Module CommandLine.

Record options : Type := mkoptions {
  output_path : option string;
  format_type : string;
  min_count : Z;
  max_display : Z
}.

(** The values set before the loop. *)
Definition defaults : options := mkoptions None "text" 1 50.

(** [arg in [a, b]] *)
Definition one_of (arg a b : string) : bool :=
  String.eqb arg a || String.eqb arg b.

Definition known_format (f : string) : bool :=
  String.eqb f "text" || String.eqb f "json" || String.eqb f "csv".

Section Parse.

Variable int : string -> option Z.

(** The [while i < len(sys.argv)] loop, on the arguments from index [i]
    on.  [None] is [sys.exit(1)].  An option is recognised only when
    another argument follows it ([i + 1 < len(sys.argv)]). *)
Fixpoint parse (args : list string) (o : options) : option options :=
  match args with
  | [] => Some o
  | arg :: rest =>
      match rest with
      | value :: rest' =>
          if one_of arg "-o" "--output" then
            parse rest' (mkoptions (Some value) (format_type o)
                           (min_count o) (max_display o))
          else if one_of arg "-f" "--format" then
            if negb (known_format value) then None
            else parse rest' (mkoptions (output_path o) value
                                (min_count o) (max_display o))
          else if one_of arg "-m" "--min-count" then
            match int value with
            | Some n => parse rest' (mkoptions (output_path o)
                                       (format_type o) n (max_display o))
            | None => None
            end
          else if one_of arg "-d" "--display" then
            match int value with
            | Some n => parse rest' (mkoptions (output_path o)
                                       (format_type o) (min_count o) n)
            | None => None
            end
          else None
      | [] => None
      end
  end.

End Parse.

End CommandLine.

(* ------------------------------------------------------------------ *)
(** ** More sample inputs *)

Module Sample2.

(** A source with every optional field, a negative latitude, and a tag
    whose payload is not well-formed UTF-8. *)
Definition source : MapWriter.source :=
  {| MapWriter.s_header_size := 0;
     MapWriter.s_file_version := 5;
     MapWriter.s_file_size := 4096;
     MapWriter.s_date_created := 1700000000000;
     MapWriter.s_min_lat := -23500000;
     MapWriter.s_min_lon := -46600000;
     MapWriter.s_max_lat := 1000000;
     MapWriter.s_max_lon := 2000000;
     MapWriter.s_tile_size := 256;
     MapWriter.s_projection := list_byte_of_string "Mercator";
     MapWriter.s_debug := true;
     MapWriter.s_start_position := Some (-23000000, -46000000);
     MapWriter.s_start_zoom := Some 12;
     MapWriter.s_language := Some (list_byte_of_string "pt");
     MapWriter.s_comment := None;
     MapWriter.s_created_by := Some (list_byte_of_string "writer");
     MapWriter.s_poi_tags := [list_byte_of_string "amenity=cafe";
                              [x61; xff; x62]];
     MapWriter.s_way_tags := [list_byte_of_string "highway=primary"];
     MapWriter.s_zoom_intervals := [mkZoomInterval 14 8 17 1000 5000;
                                    mkZoomInterval 5 0 7 6000 100] |}.

(** A folder with a good file and a bad one. *)
Definition folder_fs : filesystem :=
  fun path =>
    if String.eqb path "good.map" then Some Writer.synthetic
    else if String.eqb path "bad.map" then Some Sample.bad_magic
    else None.

Definition folder_files : list string :=
  ["bad.map"%string; "good.map"%string].

Definition folder_report_expected : folder_report :=
  {| total_files := 2;
     successful := 1;
     failed := ["bad.map"%string];
     sorted_poi_tags := [str_of_string "amenity=restaurant";
                         str_of_string "shop=bakery"];
     sorted_way_tags := [str_of_string "highway=primary"] |}.

(** Output of the tool, the third line starting with a space. *)
Definition lines_before : list str :=
  [str_of_string "n1 v1 Tamenity=cafe Tname=x";
   str_of_string "w2 Thighway=primary"].

Definition stdout_with_bad_line : str :=
  str_of_string "n1 v1 Tamenity=cafe Tname=x" ++ [10]
    ++ str_of_string "w2 Thighway=primary" ++ [10]
    ++ str_of_string " n3 Tamenity=bar" ++ [10]
    ++ str_of_string "n4 Tamenity=cafe".

Definition counters_before_bad_line : PBF.counters :=
  {| PBF.node_tags := [(str_of_string "amenity=cafe", 1);
                       (str_of_string "name=x", 1)];
     PBF.way_tags := [(str_of_string "highway=primary", 1)];
     PBF.relation_tags := [] |}.

End Sample2.

(* ------------------------------------------------------------------ *)
(** * Properties *)

Functional Scheme utf8_decode_ind := Induction for utf8_decode Sort Prop.

(** ** Reading from the file *)

Arguments len : simpl never.

Lemma len_cons {A : Type} (a : A) (l : list A) : len (a :: l) = len l + 1.
Proof. unfold len; simpl List.length; lia. Qed.

Lemma len_nonneg {A : Type} (l : list A) : 0 <= len l.
Proof. unfold len; lia. Qed.

Lemma take_cons (n : Z) (b : byte) (l : list byte) :
  take n (b :: l) =
  if n <=? 0 then ([], b :: l)
  else let (got, left) := take (n - 1) l in (b :: got, left).
Proof. reflexivity. Qed.

(** Asking for exactly the bytes that are there returns them. *)
Lemma take_exact (l r : list byte) : take (len l) (l ++ r) = (l, r).
Proof.
  induction l as [|b l IH].
  - destruct r; reflexivity.
  - rewrite <- app_comm_cons, take_cons, len_cons.
    pose proof (len_nonneg l).
    destruct (Z.leb_spec (len l + 1) 0); [lia|].
    replace (len l + 1 - 1) with (len l) by lia.
    now rewrite IH.
Qed.

(** Asking for more than is left returns what is left. *)
Lemma take_short (n : Z) (l : list byte) : len l <= n -> take n l = (l, []).
Proof.
  revert n; induction l as [|b l IH]; intros n Hn; [reflexivity|].
  rewrite len_cons in Hn. pose proof (len_nonneg l).
  rewrite take_cons.
  destruct (Z.leb_spec n 0); [lia|].
  now rewrite IH by lia.
Qed.

(** ** The decoder with [errors='ignore'] *)

(** It returns a string on every input. *)
Lemma utf8_decode_ignore_returns (bs : list byte) :
  exists s, utf8_decode ignore bs = Returned s.
Proof.
  functional induction (utf8_decode ignore bs);
    simpl on_error;
    repeat match goal with
           | IH : exists _, _ = Returned _ |- _ =>
               let s := fresh "s" in destruct IH as [s ->]
           end;
    simpl; eauto.
Qed.

(** ** The variable-length integer *)

(** The loop hands back the bytes it did not consume, and on [None] there
    are none left. *)
Lemma read_variable_byte_loop_eof (bs : list byte) :
  forall result shift p f,
    read_variable_byte_loop result shift p bs = (None, f) ->
    f = mkfile (p + len bs) [].
Proof.
  induction bs as [|b bs IH]; intros result shift p f; simpl.
  - intros [= <-]. f_equal. unfold len; simpl List.length; lia.
  - destruct (Z.land (byte_val b) 128 =? 0); [discriminate|].
    intros H. apply IH in H. subst f. f_equal. rewrite len_cons. lia.
Qed.

(** The two tests the loop makes on a byte, arithmetically. *)
Lemma low_seven_bits (b : byte) : Z.land (byte_val b) 0x7F = byte_val b mod 128.
Proof. destruct b; reflexivity. Qed.

Lemma high_bit_clear (b : byte) :
  (Z.land (byte_val b) 0x80 =? 0) = (byte_val b <? 128).
Proof. destruct b; reflexivity. Qed.

Lemma byte_val_range (b : byte) : 0 <= byte_val b < 256.
Proof.
  unfold byte_val. pose proof (Byte.to_N_bounded b). lia.
Qed.

Lemma byte_val_byte_of (z : Z) : 0 <= z < 256 -> byte_val (Writer.byte_of z) = z.
Proof.
  intros Hz. unfold byte_val, Writer.byte_of.
  destruct (Byte.of_N (Z.to_N z)) as [b|] eqn:E.
  - apply Byte.to_of_N in E. rewrite E. lia.
  - apply Byte.of_N_None_iff in E. lia.
Qed.

(** A group of 7 bits and what is above it make up the number again. *)
Lemma split_low_seven (n : Z) :
  Z.lor (n mod 128) (Z.shiftl (Z.shiftr n 7) 7) = n.
Proof.
  change 128 with (2 ^ 7). rewrite <- Z.land_ones by lia.
  apply Z.bits_inj'. intros i Hi.
  rewrite Z.lor_spec, Z.land_spec.
  destruct (Z.lt_ge_cases i 7) as [Hlt|Hge].
  - rewrite Z.ones_spec_low, Z.shiftl_spec_low by lia.
    now rewrite andb_true_r, orb_false_r.
  - rewrite Z.ones_spec_high, Z.shiftl_spec, Z.shiftr_spec by lia.
    rewrite andb_false_r. simpl. f_equal. lia.
Qed.

(** Setting the continuation bit on a 7-bit group adds 128. *)
Lemma set_high_bit (x : Z) : 0 <= x < 128 -> Z.lor x 0x80 = x + 128.
Proof.
  intros Hx.
  assert (Hland : Z.land x 128 = 0).
  { rewrite <- (byte_val_byte_of x) by lia.
    apply Z.eqb_eq. rewrite high_bit_clear, byte_val_byte_of by lia.
    now apply Z.ltb_lt. }
  rewrite <- Z.lxor_lor by exact Hland.
  symmetry. now apply Z.add_nocarry_lxor.
Qed.

Lemma encode_varint_fuel_S (k : nat) (n : Z) :
  Writer.encode_varint_fuel (S k) n =
  if n <? 0x80 then [Writer.byte_of n]
  else Writer.byte_of (Z.lor (Z.land n 0x7F) 0x80)
         :: Writer.encode_varint_fuel k (Z.shiftr n 7).
Proof. reflexivity. Qed.

(** The loop on an encoded number: it picks the number up at [shift],
    consumes the encoding and nothing else. *)
Lemma read_variable_byte_loop_encode (k : nat) :
  forall n result shift p tail,
    0 <= n < 2 ^ (7 * Z.of_nat (S k)) ->
    0 <= shift ->
    read_variable_byte_loop result shift p
      (Writer.encode_varint_fuel (S k) n ++ tail)
    = (Some (Z.lor result (Z.shiftl n shift)),
       mkfile (p + len (Writer.encode_varint_fuel (S k) n)) tail).
Proof.
  induction k as [|k IH]; intros n result shift p tail Hn Hs;
    rewrite encode_varint_fuel_S;
    destruct (Z.ltb_spec n 128) as [Hsmall|Hbig].
  - cbn [app read_variable_byte_loop].
    rewrite high_bit_clear, low_seven_bits, byte_val_byte_of by lia.
    rewrite Z.mod_small by lia.
    destruct (Z.ltb_spec n 128); [|lia]. reflexivity.
  - change (2 ^ (7 * Z.of_nat 1)) with 128 in Hn. lia.
  - cbn [app read_variable_byte_loop].
    rewrite high_bit_clear, low_seven_bits, byte_val_byte_of by lia.
    rewrite Z.mod_small by lia.
    destruct (Z.ltb_spec n 128); [|lia]. reflexivity.
  - change 127 with (Z.ones 7). rewrite Z.land_ones by lia.
    change (2 ^ 7) with 128.
    assert (Hm : 0 <= n mod 128 < 128) by (apply Z.mod_pos_bound; lia).
    rewrite set_high_bit by exact Hm.
    rewrite <- app_comm_cons. cbn [read_variable_byte_loop].
    rewrite high_bit_clear, low_seven_bits, byte_val_byte_of by lia.
    destruct (Z.ltb_spec (n mod 128 + 128) 128); [lia|].
    replace (n mod 128 + 128) with (n mod 128 + 1 * 128) by lia.
    rewrite Z.mod_add, Z.mod_mod by lia.
    rewrite IH.
    + f_equal.
      * f_equal. rewrite <- Z.lor_assoc. f_equal.
        replace (shift + 7) with (7 + shift) by lia.
        rewrite <- Z.shiftl_shiftl by lia.
        rewrite <- Z.shiftl_lor. now rewrite split_low_seven.
      * f_equal. rewrite len_cons. lia.
    + rewrite Z.shiftr_div_pow2 by lia. split.
      * apply Z.div_pos; lia.
      * apply Z.div_lt_upper_bound; [lia|].
        rewrite <- Z.pow_add_r by lia.
        replace (7 + 7 * Z.of_nat (S k)) with (7 * Z.of_nat (S (S k))) by lia.
        lia.
    + lia.
Qed.

Lemma encode_varint_fuel_enough (n : Z) :
  0 <= n -> n < 2 ^ (7 * Z.of_nat (S (Z.to_nat (Z.log2 n)))).
Proof.
  intros Hn. pose proof (Z.log2_nonneg n) as Hl.
  destruct (Z.eq_dec n 0) as [->|Hnz].
  - apply Z.pow_pos_nonneg; lia.
  - apply Z.lt_le_trans with (2 ^ (Z.log2 n + 1)).
    + replace (Z.log2 n + 1) with (Z.succ (Z.log2 n)) by lia.
      apply Z.log2_spec. lia.
    + apply Z.pow_le_mono_r; lia.
Qed.

Example encode_varint_300 : Writer.encode_varint 300 = [xac; x02].
Proof. reflexivity. Qed.

Example encode_varint_max :
  Writer.encode_varint (2 ^ 63 - 1)
  = [xff; xff; xff; xff; xff; xff; xff; xff; x7f].
Proof. reflexivity. Qed.

(** Reading back any encoded non-negative number. *)
Lemma read_variable_byte_encode (n p : Z) (tail : list byte) :
  0 <= n ->
  read_variable_byte (mkfile p (Writer.encode_varint n ++ tail))
  = (Some n, mkfile (p + len (Writer.encode_varint n)) tail).
Proof.
  intros Hn. unfold read_variable_byte, Writer.encode_varint. cbn [pos rest].
  rewrite read_variable_byte_loop_encode.
  - now rewrite Z.shiftl_0_r, Z.lor_0_l.
  - split; [exact Hn | now apply encode_varint_fuel_enough].
  - lia.
Qed.

(** C4.  For every unsigned integer [n] in [0, 2^63), [read_variable_byte]
    on the variable-length encoding of [n] (7 data bits per byte, low group
    first, high bit set on all bytes but the last) returns [n]; it consumes
    the encoding and leaves whatever follows it. *)
Theorem read_variable_byte_roundtrip (n p : Z) (tail : list byte) :
  0 <= n < 2 ^ 63 ->
  read_variable_byte (mkfile p (Writer.encode_varint n ++ tail))
  = (Some n, mkfile (p + len (Writer.encode_varint n)) tail).
Proof.
  intros [Hn _]. now apply read_variable_byte_encode.
Qed.

Lemma read_variable_byte_roundtrip_witness :
  0 <= 300 < 2 ^ 63 /\
  read_variable_byte (mkfile 0 (Writer.encode_varint 300 ++ [x41]))
  = (Some 300, mkfile (0 + len (Writer.encode_varint 300)) [x41]).
Proof.
  split; [lia | apply (read_variable_byte_roundtrip 300 0 [x41]); lia].
Defined.

(** ** The length-prefixed string *)

(** [read_utf8_string], one case per path through its body. *)
Lemma read_utf8_string_cases (f : file) :
  read_utf8_string f =
  match read_variable_byte f with
  | (None, f1) => (Returned [], f1)
  | (Some n, f1) =>
      if n =? 0 then (Returned [], f1)
      else let (string_bytes, f2) := read n f1 in
           (utf8_decode ignore string_bytes, f2)
  end.
Proof.
  unfold read_utf8_string, bind, lift, ret, eval.
  destruct (read_variable_byte f) as [[[|n|n]|] f1]; cbn [Z.eqb];
    try reflexivity;
    now destruct (read _ f1).
Qed.

(** C7.  When the next byte of the stream is the single byte 0x00 (the
    variable-length integer 0), [read_utf8_string] returns the empty string,
    and the cursor has moved by exactly that one byte: everything after it
    is still unread. *)
Theorem read_utf8_string_zero_length (p : Z) (tail : list byte) :
  read_utf8_string (mkfile p (x00 :: tail)) = (Returned [], mkfile (p + 1) tail).
Proof. reflexivity. Qed.

(** With [f.read] as documented, [read_utf8_string] returns a string from
    every file state. *)
Lemma read_utf8_string_returns (f : file) :
  exists s f', read_utf8_string f = (Returned s, f').
Proof.
  rewrite read_utf8_string_cases.
  destruct (read_variable_byte f) as [[n|] f1]; [|eauto].
  destruct (n =? 0); [eauto|].
  destruct (read n f1) as [bs f2].
  destruct (utf8_decode_ignore_returns bs) as [s ->]. eauto.
Qed.

(** With [f.read] as documented, that is, without the limits the
    interpreter puts on its size: [read_utf8_string] returns a string on
    every finite stream.  When the stream ends before the length integer is
    complete the result is the empty string, with the stream exhausted.
    When fewer bytes are left than the length announces, the result is the
    lenient decoding of the bytes that are left. *)
Lemma read_utf8_string_unlimited :
  (forall f, exists s f', read_utf8_string f = (Returned s, f'))
  /\ (forall f f1,
        read_variable_byte f = (None, f1) ->
        read_utf8_string f = (Returned [], f1) /\ rest f1 = [])
  /\ (forall f n f1,
        read_variable_byte f = (Some n, f1) ->
        len (rest f1) < n ->
        exists s,
          utf8_decode ignore (rest f1) = Returned s /\
          read_utf8_string f
          = (Returned s, mkfile (pos f1 + len (rest f1)) [])).
Proof.
  split; [exact read_utf8_string_returns | split].
  - intros f f1 H. rewrite read_utf8_string_cases, H. split; [reflexivity|].
    unfold read_variable_byte in H.
    apply read_variable_byte_loop_eof in H. now subst f1.
  - intros f n f1 H Hshort.
    destruct (utf8_decode_ignore_returns (rest f1)) as [s Hs].
    exists s. split; [exact Hs|].
    rewrite read_utf8_string_cases, H.
    pose proof (len_nonneg (rest f1)).
    destruct (Z.eqb_spec n 0); [lia|].
    unfold read. destruct (Z.ltb_spec n 0); [lia|].
    rewrite take_short by lia. now rewrite Hs.
Qed.

(** ** The length-prefixed string and the sizes [f.read] can serve *)

(** The length that [read_variable_byte] returns is never negative. *)
Lemma read_variable_byte_loop_nonneg (bs : list byte) :
  forall result shift p n f1,
    0 <= result -> 0 <= shift ->
    read_variable_byte_loop result shift p bs = (Some n, f1) -> 0 <= n.
Proof.
  induction bs as [|b bs IH]; intros result shift p n f1 Hr Hs;
    cbn [read_variable_byte_loop].
  - discriminate.
  - cbv zeta.
    assert (0 <= Z.lor result (Z.shiftl (Z.land (byte_val b) 0x7F) shift)).
    { apply Z.lor_nonneg. split; [exact Hr|].
      apply Z.shiftl_nonneg, Z.land_nonneg. right. lia. }
    destruct (Z.land (byte_val b) 0x80 =? 0).
    + intros H0. injection H0 as <- _. assumption.
    + apply IH; lia.
Qed.

Lemma declared_length_nonneg (f f1 : file) (n : Z) :
  read_variable_byte f = (Some n, f1) -> 0 <= n.
Proof.
  unfold read_variable_byte. apply read_variable_byte_loop_nonneg; lia.
Qed.

(** [CPython.read_utf8_string], one case per path through its body. *)
Lemma limited_read_utf8_string_cases (can_allocate : Z -> bool) (f : file) :
  CPython.read_utf8_string can_allocate f =
  match read_variable_byte f with
  | (None, f1) => (CPython.Returned [], f1)
  | (Some n, f1) =>
      if n =? 0 then (CPython.Returned [], f1)
      else if CPython.bytes_max <? n
      then (CPython.Raised CPython.OverflowError, f1)
      else if can_allocate n
      then CPython.plain
             (fun f1 => let (string_bytes, f2) := read n f1 in
                        (utf8_decode ignore string_bytes, f2)) f1
      else (CPython.Raised CPython.MemoryError, f1)
  end.
Proof.
  unfold CPython.read_utf8_string, CPython.bind, CPython.plain at 1, lift.
  destruct (read_variable_byte f) as [[n|] f1] eqn:E; [|reflexivity].
  apply declared_length_nonneg in E.
  destruct (Z.eqb_spec n 0) as [->|Hn]; [reflexivity|].
  assert (CPython.bind (CPython.read can_allocate n)
            (fun string_bytes =>
               CPython.plain (eval (utf8_decode ignore string_bytes))) f1
          = if CPython.bytes_max <? n
            then (CPython.Raised CPython.OverflowError, f1)
            else if can_allocate n
            then CPython.plain
                   (fun f1 => let (string_bytes, f2) := read n f1 in
                              (utf8_decode ignore string_bytes, f2)) f1
            else (CPython.Raised CPython.MemoryError, f1)) as Hread.
  { unfold CPython.bind, CPython.read.
    destruct (Z.ltb_spec n (-1)); [lia|].
    destruct (Z.leb_spec n 0); [lia|].
    destruct (CPython.bytes_max <? n); [reflexivity|].
    destruct (can_allocate n); [|reflexivity].
    unfold CPython.plain, lift, eval.
    destruct (read n f1) as [bs f2].
    now destruct (utf8_decode ignore bs). }
  destruct n as [|n|n]; [congruence| exact Hread | lia].
Qed.

(** On a length that [f.read] serves, the reader with the limits does what
    the reader without them does. *)
Lemma limited_read_utf8_string_served (can_allocate : Z -> bool)
    (f f1 : file) (length : option Z) :
  read_variable_byte f = (length, f1) ->
  match length with
  | None => True
  | Some n => n = 0 \/ CPython.accepts can_allocate n = true
  end ->
  CPython.read_utf8_string can_allocate f = CPython.plain read_utf8_string f.
Proof.
  intros E Hn.
  rewrite limited_read_utf8_string_cases. unfold CPython.plain.
  rewrite read_utf8_string_cases, E.
  destruct length as [n|]; [|reflexivity].
  destruct (Z.eqb_spec n 0); [reflexivity|].
  destruct Hn as [Hn|Hn]; [contradiction|].
  unfold CPython.accepts in Hn. apply andb_true_iff in Hn as [Hmax Hal].
  apply Z.leb_le in Hmax.
  destruct (Z.ltb_spec CPython.bytes_max n); [lia|].
  rewrite Hal. reflexivity.
Qed.

(** C10.  [read_utf8_string] returns a string, and raises nothing, on every
    finite stream whose announced length [f.read] can serve: one of at most
    [sys.maxsize - 33] bytes for which the interpreter gets a buffer.  When
    the stream ends before the length integer is complete the result is the
    empty string, with the stream exhausted.  When fewer bytes are left than
    the length announces, the result is the lenient decoding of the bytes
    that are left.  On any other length [f.read] raises, [OverflowError]
    above the limit and [MemoryError] below it, and [read_utf8_string] lets
    the exception through, the cursor standing after the length integer. *)
Theorem read_utf8_string_total_when_served (can_allocate : Z -> bool) :
  (forall f f1,
     read_variable_byte f = (None, f1) ->
     CPython.read_utf8_string can_allocate f = (CPython.Returned [], f1)
     /\ rest f1 = [])
  /\ (forall f n f1,
        read_variable_byte f = (Some n, f1) ->
        n = 0 \/ CPython.accepts can_allocate n = true ->
        exists s f',
          CPython.read_utf8_string can_allocate f = (CPython.Returned s, f'))
  /\ (forall f n f1,
        read_variable_byte f = (Some n, f1) ->
        CPython.accepts can_allocate n = true ->
        len (rest f1) < n ->
        exists s,
          utf8_decode ignore (rest f1) = Returned s /\
          CPython.read_utf8_string can_allocate f
          = (CPython.Returned s, mkfile (pos f1 + len (rest f1)) []))
  /\ (forall f n f1,
        read_variable_byte f = (Some n, f1) ->
        CPython.bytes_max < n ->
        CPython.read_utf8_string can_allocate f
        = (CPython.Raised CPython.OverflowError, f1))
  /\ (forall f n f1,
        read_variable_byte f = (Some n, f1) ->
        0 < n <= CPython.bytes_max ->
        can_allocate n = false ->
        CPython.read_utf8_string can_allocate f
        = (CPython.Raised CPython.MemoryError, f1)).
Proof.
  destruct read_utf8_string_unlimited as (Hret & Heof & Hshort).
  repeat match goal with |- _ /\ _ => split end.
  - intros f f1 E. destruct (Heof f f1 E) as [Hs Hrest].
    rewrite (limited_read_utf8_string_served can_allocate f f1 None E I).
    unfold CPython.plain. rewrite Hs. now split.
  - intros f n f1 E Hn.
    rewrite (limited_read_utf8_string_served can_allocate f f1 (Some n) E Hn).
    unfold CPython.plain. destruct (Hret f) as (s & f' & ->). eauto.
  - intros f n f1 E Hn Hlt.
    destruct (Hshort f n f1 E Hlt) as (s & Hs & Hr). exists s. split; [exact Hs|].
    rewrite (limited_read_utf8_string_served can_allocate f f1 (Some n) E
               (or_intror Hn)).
    unfold CPython.plain. now rewrite Hr.
  - intros f n f1 E Hn.
    rewrite limited_read_utf8_string_cases, E.
    assert (0 < CPython.bytes_max) by (vm_compute; reflexivity).
    destruct (Z.eqb_spec n 0); [lia|].
    destruct (Z.ltb_spec CPython.bytes_max n); [reflexivity | lia].
  - intros f n f1 E [Hpos Hmax] Hal.
    rewrite limited_read_utf8_string_cases, E.
    destruct (Z.eqb_spec n 0); [lia|].
    destruct (Z.ltb_spec CPython.bytes_max n); [lia|].
    now rewrite Hal.
Qed.

Lemma read_utf8_string_total_when_served_witness :
  (CPython.read_utf8_string CPython.below_4GiB (mkfile 0 [x83; x81])
   = (CPython.Returned [], mkfile 2 [])
   /\ rest (mkfile 2 []) = [])
  /\ (exists s f',
        CPython.read_utf8_string CPython.below_4GiB
          (mkfile 0 [x02; xff; x41; x42])
        = (CPython.Returned s, f'))
  /\ (exists s,
        utf8_decode ignore [x41; xc3] = Returned s /\
        CPython.read_utf8_string CPython.below_4GiB (mkfile 0 [x05; x41; xc3])
        = (CPython.Returned s, mkfile (1 + len [x41; xc3]) []))
  /\ CPython.read_utf8_string CPython.below_4GiB
       (mkfile 0 [xff; xff; xff; xff; xff; xff; xff; xff; xff; x01; x61])
     = (CPython.Raised CPython.OverflowError, mkfile 10 [x61])
  /\ CPython.read_utf8_string CPython.below_4GiB
       (mkfile 0 [x80; x80; x80; x80; x80; x20; x61])
     = (CPython.Raised CPython.MemoryError, mkfile 6 [x61]).
Proof.
  destruct (read_utf8_string_total_when_served CPython.below_4GiB)
    as (H1 & H2 & H3 & H4 & H5).
  repeat match goal with |- _ /\ _ => split end.
  - apply (H1 (mkfile 0 [x83; x81])). reflexivity.
  - reflexivity.
  - apply (H2 (mkfile 0 [x02; xff; x41; x42]) 2 (mkfile 1 [xff; x41; x42])).
    + reflexivity.
    + right. vm_compute. reflexivity.
  - apply (H3 (mkfile 0 [x05; x41; xc3]) 5 (mkfile 1 [x41; xc3])).
    + reflexivity.
    + vm_compute. reflexivity.
    + vm_compute. reflexivity.
  - apply (H4 (mkfile 0 [xff; xff; xff; xff; xff; xff; xff; xff; xff; x01; x61])
              (2 ^ 64 - 1)).
    + vm_compute. reflexivity.
    + vm_compute. reflexivity.
  - apply (H5 (mkfile 0 [x80; x80; x80; x80; x80; x20; x61]) (2 ^ 40)).
    + vm_compute. reflexivity.
    + vm_compute. split; [reflexivity | discriminate].
    + vm_compute. reflexivity.
Defined.

(** C10, as stated, fails.  Ten bytes announce a length of [2^64 - 1]:
    [f.read] raises [OverflowError] on it, also in an interpreter that gets
    every buffer it asks for, and [read_utf8_string], which has no handler,
    raises with it.  (In [extract_tags] the exception ends in the [except]
    branch.) *)
Lemma read_utf8_string_length_above_maxsize :
  read_variable_byte
    (mkfile 0 [xff; xff; xff; xff; xff; xff; xff; xff; xff; x01;
               x61; x62; x63])
  = (Some (2 ^ 64 - 1), mkfile 10 [x61; x62; x63])
  /\ CPython.sys_maxsize < 2 ^ 64 - 1
  /\ CPython.read_utf8_string CPython.every_buffer
       (mkfile 0 [xff; xff; xff; xff; xff; xff; xff; xff; xff; x01;
                  x61; x62; x63])
     = (CPython.Raised CPython.OverflowError, mkfile 10 [x61; x62; x63])
  /\ ~ (forall f, exists s f',
          CPython.read_utf8_string CPython.every_buffer f
          = (CPython.Returned s, f')).
Proof.
  repeat match goal with |- _ /\ _ => split end;
    try (vm_compute; reflexivity).
  intros H.
  destruct (H (mkfile 0 [xff; xff; xff; xff; xff; xff; xff; xff; xff; x01;
                         x61; x62; x63])) as (s & f' & E).
  vm_compute in E. discriminate E.
Qed.

(** ** Sequencing *)

Lemma bind_returned {A B : Type} (c : M A) (k : A -> M B) f b f' :
  bind c k f = (Returned b, f') ->
  exists a f1, c f = (Returned a, f1) /\ k a f1 = (Returned b, f').
Proof.
  unfold bind. destruct (c f) as [[a|e] f1]; [eauto | discriminate].
Qed.

Lemma bind_step {A B : Type} (c : M A) (k : A -> M B) f a f1 :
  c f = (Returned a, f1) -> bind c k f = k a f1.
Proof. unfold bind. now intros ->. Qed.

Lemma bind_raised {A B : Type} (c : M A) (k : A -> M B) f e f1 :
  c f = (Raised e, f1) -> bind c k f = (Raised e, f1).
Proof. unfold bind. now intros ->. Qed.

(** ** The marker *)

Lemma bytes_eqb_eq (a b : list byte) : bytes_eqb a b = true <-> a = b.
Proof.
  revert b; induction a as [|x a IH]; intros [|y b]; simpl;
    try (split; [discriminate || reflexivity | discriminate || reflexivity]).
  rewrite andb_true_iff, IH. split.
  - intros [Hxy ->]. apply Byte.byte_dec_bl in Hxy. now subst.
  - intros [= -> ->]. split; [now apply Byte.byte_dec_lb | reflexivity].
Qed.

Lemma take_firstn_skipn (l : list byte) :
  forall n, 0 <= n ->
    take n l = (firstn (Z.to_nat n) l, skipn (Z.to_nat n) l).
Proof.
  induction l as [|b l IH]; intros n Hn.
  - now destruct (Z.to_nat n).
  - rewrite take_cons. destruct (Z.leb_spec n 0).
    + now replace n with 0 by lia.
    + rewrite IH by lia.
      replace (Z.to_nat n) with (S (Z.to_nat (n - 1))) by lia.
      reflexivity.
Qed.

(** C5.  When the first 20 bytes of the file are not the marker
    ["mapsforge binary OSM"] (this includes a file shorter than 20 bytes),
    the decode ends at the early return for an invalid file; the only read
    made is that of the marker, so the cursor is where that read left it, at
    most 20; [extract_tags] returns [False] and leaves the reader as it
    was. *)
Theorem invalid_magic_stops (content : list byte) :
  firstn 20 content <> MAGIC_BYTE ->
  decode content
  = (NotValidMapFile, mkfile (len (firstn 20 content)) (skipn 20 content))
  /\ InvalidMagic (fst (decode content))
  /\ pos (snd (decode content)) <= 20
  /\ (forall fs self,
        fs (filepath self) = Some content ->
        extract_tags fs self = (false, self)).
Proof.
  intros Hmagic.
  assert (Hd : decode content
               = (NotValidMapFile,
                  mkfile (len (firstn 20 content)) (skipn 20 content))).
  { unfold decode, extract_tags_body, read_header.
    rewrite (bind_step _ _ _ None
               (mkfile (len (firstn 20 content)) (skipn 20 content)));
      [reflexivity|].
    rewrite (bind_step _ _ _ (firstn 20 content)
               (mkfile (len (firstn 20 content)) (skipn 20 content))).
    - destruct (bytes_eqb (firstn 20 content) MAGIC_BYTE) eqn:E;
        [|reflexivity].
      apply bytes_eqb_eq in E. contradiction.
    - unfold lift, read. change (len MAGIC_BYTE) with 20.
      cbn [pos rest Z.ltb Z.compare].
      rewrite take_firstn_skipn by lia. reflexivity. }
  rewrite Hd. repeat split.
  - cbn [snd pos]. unfold len. rewrite length_firstn. lia.
  - intros fs self Hfs. unfold extract_tags. now rewrite Hfs, Hd.
Qed.

Lemma invalid_magic_stops_witness :
  firstn 20 Sample.bad_magic <> MAGIC_BYTE
  /\ decode Sample.bad_magic
     = (NotValidMapFile,
        mkfile (len (firstn 20 Sample.bad_magic)) (skipn 20 Sample.bad_magic))
  /\ InvalidMagic (fst (decode Sample.bad_magic))
  /\ pos (snd (decode Sample.bad_magic)) <= 20
  /\ (forall fs self,
        fs (filepath self) = Some Sample.bad_magic ->
        extract_tags fs self = (false, self)).
Proof.
  assert (H : firstn 20 Sample.bad_magic <> MAGIC_BYTE)
    by (vm_compute; discriminate).
  split; [exact H | exact (invalid_magic_stops Sample.bad_magic H)].
Defined.

(** ** The reader object *)

(** C9.  When [extract_tags] returns [False], whatever the reason (the file
    cannot be opened, the marker is wrong, a read raised), the [tags] field
    is what it was before the call; for a reader fresh from [__init__] that
    is the empty list.  The dict is assigned only on the path that returns
    [True]. *)
Theorem extract_tags_failure_keeps_tags fs self self' :
  extract_tags fs self = (false, self') ->
  tags self' = tags self
  /\ (tags self = tags (init (filepath self)) -> tags self' = EmptyList).
Proof.
  unfold extract_tags.
  destruct (fs (filepath self)) as [content|].
  - destruct (fst (decode content)); intros [= <-]; auto.
  - intros [= <-]; auto.
Qed.

Lemma extract_tags_failure_keeps_tags_witness :
  extract_tags (Sample.fs_of Sample.two_after_magic) (init "truncated.map")
  = (false, init "truncated.map")
  /\ tags (init "truncated.map") = tags (init "truncated.map")
  /\ (tags (init "truncated.map")
      = tags (init (filepath (init "truncated.map"))) ->
      tags (init "truncated.map") = EmptyList).
Proof.
  assert (H : extract_tags (Sample.fs_of Sample.two_after_magic)
                (init "truncated.map")
              = (false, init "truncated.map")) by reflexivity.
  split; [exact H | exact (extract_tags_failure_keeps_tags _ _ _ H)].
Defined.

(** ** The synthetic file *)

(** The bytes of the synthetic file, written out. *)
Lemma synthetic_bytes :
  Writer.synthetic =
  list_byte_of_string "mapsforge binary OSM"
    ++ [x00; x00; x00; x00]  ++ [x00; x00; x00; x05]
    ++ [x00; x00; x00; x00; x00; x00; x00; x64]
    ++ [x00; x00; x00; x00; x00; x00; x00; x00]
    ++ [x00; x0f; x42; x40] ++ [x00; x1e; x84; x80]
    ++ [x00; x2d; xc6; xc0] ++ [x00; x3d; x09; x00]
    ++ [x01; x00]
    ++ [x09] ++ list_byte_of_string "EPSG:3857"
    ++ [x00]
    ++ [x00; x02]
    ++ [x12] ++ list_byte_of_string "amenity=restaurant"
    ++ [x0b] ++ list_byte_of_string "shop=bakery"
    ++ [x00; x01]
    ++ [x0f] ++ list_byte_of_string "highway=primary"
    ++ [x01]
    ++ [x0e; x08; x11]
    ++ [x00; x00; x00; x00; x00; x00; x03; xe8]
    ++ [x00; x00; x00; x00; x00; x00; x13; x88].
Proof. vm_compute. reflexivity. Qed.

(** C3.  Decoding the synthetic file (marker, header size 0, version 5, file
    size 100, timestamp 0, bounding box 1.0, 2.0, 3.0, 4.0 in millionths,
    tile size 256, projection "EPSG:3857", flags 0x00, POI tags
    "amenity=restaurant" and "shop=bakery", way tag "highway=primary", one
    zoom interval 14/8/17 at 1000 of size 5000) reads every byte of it and
    yields those values in that order; [extract_tags] returns [True] and
    stores the three sequences in [tags]. *)
Theorem synthetic_roundtrip :
  decode Writer.synthetic
  = (Extracted
       {| header_size := 0; file_version := 5; file_size := 100;
          date_created := 0;
          min_lat := 1000000; min_lon := 2000000;
          max_lat := 3000000; max_lon := 4000000;
          tile_size := 256;
          projection := str_of_string "EPSG:3857";
          flags := 0 |}
       {| start_position := None; start_zoom := None; language := None;
          comment := None; created_by := None |}
       {| num_poi_tags := 2;
          poi_tags := [str_of_string "amenity=restaurant";
                       str_of_string "shop=bakery"];
          num_way_tags := 1;
          way_tags := [str_of_string "highway=primary"];
          num_zoom_intervals := 1;
          zoom_intervals := [mkZoomInterval 14 8 17 1000 5000] |},
     mkfile (len Writer.synthetic) [])
  /\ extract_tags (Sample.fs_of Writer.synthetic) (init "synthetic.map")
     = (true,
        {| filepath := "synthetic.map";
           tags := TagsDict
                     [str_of_string "amenity=restaurant";
                      str_of_string "shop=bakery"]
                     [str_of_string "highway=primary"]
                     [mkZoomInterval 14 8 17 1000 5000] |}).
Proof. split; vm_compute; reflexivity. Qed.

(** ** Loops that append *)

Section ForRange.
Context {A : Type}.
Variable body : M A.

Lemma after_S (i : nat) (f f1 : file) (a : A) :
  body f = (Returned a, f1) -> after (S i) body f = after i body f1.
Proof. cbn [after]. now intros ->. Qed.

Lemma ith_read_O (f f1 : file) (a : A) :
  body f = (Returned a, f1) -> ith_read 0 body f = Some a.
Proof. unfold ith_read. cbn [after]. now intros ->. Qed.

Lemma ith_read_S (i : nat) (f f1 : file) (a : A) :
  body f = (Returned a, f1) -> ith_read (S i) body f = ith_read i body f1.
Proof. intros H. unfold ith_read. now rewrite (after_S i f f1 a H). Qed.

(** A loop that returns has made [n] calls; it returns the accumulator
    followed by what the calls returned, in call order. *)
Lemma for_range_returned (n : nat) :
  forall acc f l f',
    for_range n body acc f = (Returned l, f') ->
    exists new,
      l = acc ++ new
      /\ List.length new = n
      /\ (forall i, (i < n)%nat -> nth_error new i = ith_read i body f)
      /\ after n body f = Some f'.
Proof.
  induction n as [|n IH]; intros acc f l f' H; cbn [for_range] in H.
  - injection H as <- <-. exists []. rewrite app_nil_r.
    repeat split; [intros i Hi; lia].
  - apply bind_returned in H as (x & f1 & Hx & H).
    apply IH in H as (new & -> & Hlen & Hnth & Hafter).
    exists (x :: new). rewrite <- app_assoc. repeat split.
    + cbn [List.length]. now rewrite Hlen.
    + intros [|i] Hi.
      * now rewrite (ith_read_O f f1 x Hx).
      * rewrite (ith_read_S i f f1 x Hx). apply Hnth. lia.
    + now rewrite (after_S n f f1 x Hx).
Qed.

(** The other way round: if [n] calls in a row return, so does the loop. *)
Lemma for_range_after (n : nat) :
  forall acc f f',
    after n body f = Some f' ->
    exists new,
      for_range n body acc f = (Returned (acc ++ new), f')
      /\ List.length new = n.
Proof.
  induction n as [|n IH]; intros acc f f' H; cbn [after for_range] in *.
  - injection H as <-. exists []. now rewrite app_nil_r.
  - destruct (body f) as [[x|e] f1] eqn:Hx; [|discriminate].
    destruct (IH (acc ++ [x]) f1 f' H) as (new & Hrun & Hlen).
    exists (x :: new). rewrite (bind_step _ _ _ _ _ Hx), Hrun.
    rewrite <- app_assoc. cbn [List.length]. now rewrite Hlen.
Qed.

End ForRange.

Lemma be_value_nonneg (bs : list byte) : 0 <= be_value bs.
Proof.
  unfold be_value.
  assert (H : forall acc, 0 <= acc ->
            0 <= fold_left (fun a b => a * 256 + byte_val b) bs acc).
  { induction bs as [|b bs IH]; intros acc Hacc; cbn [fold_left]; [lia|].
    apply IH. pose proof (byte_val_range b). lia. }
  apply H. lia.
Qed.

Lemma read_unsigned_nonneg (width : Z) (f f' : file) (v : Z) :
  bind (lift (read width)) (fun bs => eval (unpack_unsigned width bs)) f
  = (Returned v, f') ->
  0 <= v.
Proof.
  unfold bind, lift, eval, unpack_unsigned.
  destruct (read width f) as [bs f1].
  destruct (len bs =? width); [|discriminate].
  intros [= <- _]. apply be_value_nonneg.
Qed.

Lemma read_B_nonneg (f f' : file) (v : Z) :
  read_B f = (Returned v, f') -> 0 <= v.
Proof.
  unfold read_B, bind, lift, eval, index0.
  destruct (read 1 f) as [[|b bs] f1]; [discriminate|].
  intros [= <- _]. apply byte_val_range.
Qed.

(** A count and the loop it drives make a table. *)
Lemma table_read_intro {A : Type} (read_count : M Z) (body : M A)
    f0 count f entries f1 :
  read_count f0 = (Returned count, f) ->
  0 <= count ->
  for_range (Z.to_nat count) body [] f = (Returned entries, f1) ->
  table_read read_count body f0 count entries f1.
Proof.
  intros Hcount Hpos Hloop.
  apply for_range_returned in Hloop as (new & -> & Hlen & Hnth & Hafter).
  exists f. cbn [app]. rewrite Hlen. repeat split; auto.
  unfold len. rewrite Hlen. lia.
Qed.

(** C8.  When the decode succeeds, each of [poi_tags], [way_tags] and
    [zoom_intervals] has as many entries as the count read from the stream
    just before it, and entry number [i] of each is what the [i]-th read of
    that table returned: the three tables are read one after the other, in
    this order, after the header and the optional fields. *)
Theorem decode_tables (content : list byte) h o t f_end :
  decode content = (Extracted h o t, f_end) ->
  exists f_h f0 f1 f2,
    read_header (mkfile 0 content) = (Returned (Some h), f_h)
    /\ read_optional (flags h) f_h = (Returned o, f0)
    /\ table_read read_H read_utf8_string
         f0 (num_poi_tags t) (poi_tags t) f1
    /\ table_read read_H read_utf8_string
         f1 (num_way_tags t) (way_tags t) f2
    /\ table_read read_B read_zoom_interval
         f2 (num_zoom_intervals t) (zoom_intervals t) f_end.
Proof.
  unfold decode. intros H.
  destruct (extract_tags_body (mkfile 0 content)) as [[[[[h' o'] t']|]|e] f]
    eqn:Hbody; try discriminate.
  injection H as -> -> -> ->.
  unfold extract_tags_body in Hbody.
  apply bind_returned in Hbody as ([h'|] & f_h & Hh & Hbody);
    [|discriminate].
  apply bind_returned in Hbody as (o' & f0 & Ho & Hbody).
  apply bind_returned in Hbody as (t' & f3 & Ht & Hbody).
  injection Hbody as -> -> -> ->.
  exists f_h, f0.
  unfold read_tables in Ht.
  apply bind_returned in Ht as (n1 & g1 & Hn1 & Ht).
  apply bind_returned in Ht as (l1 & f1 & Hl1 & Ht).
  apply bind_returned in Ht as (n2 & g2 & Hn2 & Ht).
  apply bind_returned in Ht as (l2 & f2 & Hl2 & Ht).
  apply bind_returned in Ht as (n3 & g3 & Hn3 & Ht).
  apply bind_returned in Ht as (l3 & f3 & Hl3 & Ht).
  injection Ht as <- <-. cbn [num_poi_tags poi_tags num_way_tags way_tags
                              num_zoom_intervals zoom_intervals].
  exists f1, f2. repeat split; auto.
  - eapply table_read_intro; eauto. eapply read_unsigned_nonneg, Hn1.
  - eapply table_read_intro; eauto. eapply read_unsigned_nonneg, Hn2.
  - eapply table_read_intro; eauto. eapply read_B_nonneg, Hn3.
Qed.

Lemma decode_synthetic :
  decode Writer.synthetic
  = (Extracted Sample.expected_header Sample.no_optional
       Sample.expected_tables,
     mkfile 144 []).
Proof. vm_compute. reflexivity. Qed.

Lemma decode_tables_witness :
  decode Writer.synthetic
  = (Extracted Sample.expected_header Sample.no_optional
       Sample.expected_tables,
     mkfile 144 [])
  /\ exists f_h f0 f1 f2,
       read_header (mkfile 0 Writer.synthetic)
       = (Returned (Some Sample.expected_header), f_h)
       /\ read_optional (flags Sample.expected_header) f_h
          = (Returned Sample.no_optional, f0)
       /\ table_read read_H read_utf8_string f0
            (num_poi_tags Sample.expected_tables)
            (poi_tags Sample.expected_tables) f1
       /\ table_read read_H read_utf8_string f1
            (num_way_tags Sample.expected_tables)
            (way_tags Sample.expected_tables) f2
       /\ table_read read_B read_zoom_interval f2
            (num_zoom_intervals Sample.expected_tables)
            (zoom_intervals Sample.expected_tables) (mkfile 144 []).
Proof.
  split; [exact decode_synthetic|].
  exact (decode_tables Writer.synthetic _ _ _ _ decode_synthetic).
Defined.

(** ** Truncated files *)

Lemma read_utf8_string_at_end (p : Z) :
  read_utf8_string (mkfile p []) = (Returned [], mkfile p []).
Proof. reflexivity. Qed.

Lemma read_H_at_end (p : Z) :
  read_H (mkfile p []) = (Raised StructError, mkfile (p + 0) []).
Proof. reflexivity. Qed.

(** [extract_tags] on a file whose decode did not extract anything. *)
Lemma extract_tags_not_extracted (content : list byte) :
  (forall h o t, fst (decode content) <> Extracted h o t) ->
  forall fs self,
    fs (filepath self) = Some content -> extract_tags fs self = (false, self).
Proof.
  intros Hno fs self Hfs. unfold extract_tags. rewrite Hfs.
  destruct (fst (decode content)) as [h o t| |e]; [|reflexivity..].
  now destruct (Hno h o t).
Qed.

(** Three POI tags announced, the stream at its end after two reads. *)
Lemma read_tables_two_of_three (f0 f1 f2 : file) :
  read_H f0 = (Returned 3, f1) ->
  after 2 read_utf8_string f1 = Some f2 ->
  rest f2 = [] ->
  read_tables f0 = (Raised StructError, mkfile (pos f2 + 0) []).
Proof.
  intros Hcount Hafter Hend. unfold read_tables.
  rewrite (bind_step _ _ _ _ _ Hcount).
  change (Z.to_nat 3) with 3%nat. cbn [for_range after] in *.
  destruct (read_utf8_string f1) as [[s1|e1] g1] eqn:H1; [|discriminate].
  destruct (read_utf8_string g1) as [[s2|e2] g2] eqn:H2; [|discriminate].
  injection Hafter as ->. destruct f2 as [p r]. cbn [rest pos] in *. subst r.
  rewrite (bind_step _ _ _ [s1; s2; []] (mkfile p [])).
  - now rewrite (bind_raised _ _ _ _ _ (read_H_at_end p)).
  - rewrite (bind_step _ _ _ _ _ H1), (bind_step _ _ _ _ _ H2).
    now rewrite (bind_step _ _ _ _ _ (read_utf8_string_at_end p)).
Qed.

(** C1.  A file with a good header that announces 3 POI tags, in which the
    stream is at its end once two tag entries have been read: the third
    read finds nothing and the next fixed-width read (the way tag count)
    raises [struct.error], the truncation failure.  The decode extracts
    nothing: [extract_tags] returns [False] and the reader is unchanged, so
    no tag sequence of any length reaches the caller. *)
Theorem truncated_poi_table (content : list byte) h o f_h f0 f1 f2 :
  read_header (mkfile 0 content) = (Returned (Some h), f_h) ->
  read_optional (flags h) f_h = (Returned o, f0) ->
  read_H f0 = (Returned 3, f1) ->
  after 2 read_utf8_string f1 = Some f2 ->
  rest f2 = [] ->
  fst (decode content) = ErrorReading StructError
  /\ TruncatedInput (fst (decode content))
  /\ (forall fs self,
        fs (filepath self) = Some content ->
        extract_tags fs self = (false, self)).
Proof.
  intros Hh Ho Hcount Hafter Hend.
  assert (Hd : fst (decode content) = ErrorReading StructError).
  { unfold decode, extract_tags_body.
    rewrite (bind_step _ _ _ _ _ Hh), (bind_step _ _ _ _ _ Ho).
    now rewrite (bind_raised _ _ _ _ _
                   (read_tables_two_of_three f0 f1 f2 Hcount Hafter Hend)). }
  split; [exact Hd | split].
  - now left.
  - apply extract_tags_not_extracted. rewrite Hd. discriminate.
Qed.

Lemma truncated_poi_table_witness :
  (read_header (mkfile 0 Sample.two_of_three_tags)
   = (Returned (Some Sample.expected_header),
      mkfile 73 (skipn 73 Sample.two_of_three_tags))
   /\ read_optional (flags Sample.expected_header)
        (mkfile 73 (skipn 73 Sample.two_of_three_tags))
      = (Returned Sample.no_optional,
         mkfile 73 (skipn 73 Sample.two_of_three_tags))
   /\ read_H (mkfile 73 (skipn 73 Sample.two_of_three_tags))
      = (Returned 3, mkfile 75 (skipn 75 Sample.two_of_three_tags))
   /\ after 2 read_utf8_string
        (mkfile 75 (skipn 75 Sample.two_of_three_tags))
      = Some (mkfile 106 [])
   /\ rest (mkfile 106 []) = [])
  /\ fst (decode Sample.two_of_three_tags) = ErrorReading StructError
  /\ TruncatedInput (fst (decode Sample.two_of_three_tags))
  /\ (forall fs self,
        fs (filepath self) = Some Sample.two_of_three_tags ->
        extract_tags fs self = (false, self)).
Proof.
  assert (H : read_header (mkfile 0 Sample.two_of_three_tags)
              = (Returned (Some Sample.expected_header),
                 mkfile 73 (skipn 73 Sample.two_of_three_tags))
              /\ read_optional (flags Sample.expected_header)
                   (mkfile 73 (skipn 73 Sample.two_of_three_tags))
                 = (Returned Sample.no_optional,
                    mkfile 73 (skipn 73 Sample.two_of_three_tags))
              /\ read_H (mkfile 73 (skipn 73 Sample.two_of_three_tags))
                 = (Returned 3, mkfile 75 (skipn 75 Sample.two_of_three_tags))
              /\ after 2 read_utf8_string
                   (mkfile 75 (skipn 75 Sample.two_of_three_tags))
                 = Some (mkfile 106 [])
              /\ rest (mkfile 106 []) = [])
    by (repeat split; vm_compute; reflexivity).
  split; [exact H|].
  destruct H as (Hh & Ho & Hc & Ha & He).
  exact (truncated_poi_table _ _ _ _ _ _ _ Hh Ho Hc Ha He).
Defined.

(** C6.  A file that is good up to its flags byte and ends right after it,
    with at least one of the optional-field bits 0x40, 0x20, 0x10, 0x08,
    0x04 set: the decode fails on a read that comes back short.  With 0x40
    it is the start position ([struct.error]); otherwise with 0x20 it is
    the start zoom ([IndexError]); otherwise the optional strings read as
    empty and it is the POI tag count ([struct.error]). *)
Theorem truncated_after_flags (content : list byte) h f_h :
  read_header (mkfile 0 content) = (Returned (Some h), f_h) ->
  rest f_h = [] ->
  flag (flags h) 0x40 || flag (flags h) 0x20 || flag (flags h) 0x10
    || flag (flags h) 0x08 || flag (flags h) 0x04 = true ->
  TruncatedInput (fst (decode content))
  /\ fst (decode content)
     = ErrorReading (if flag (flags h) 0x40 then StructError
                     else if flag (flags h) 0x20 then IndexError
                     else StructError)
  /\ (forall fs self,
        fs (filepath self) = Some content ->
        extract_tags fs self = (false, self)).
Proof.
  intros Hh Hend _.
  destruct f_h as [p r]. cbn [rest] in Hend. subst r.
  assert (Hd : fst (decode content)
               = ErrorReading (if flag (flags h) 0x40 then StructError
                               else if flag (flags h) 0x20 then IndexError
                               else StructError)).
  { unfold decode, extract_tags_body.
    rewrite (bind_step _ _ _ _ _ Hh). unfold read_optional.
    destruct (flag (flags h) 0x40), (flag (flags h) 0x20),
      (flag (flags h) 0x10), (flag (flags h) 0x08), (flag (flags h) 0x04);
      reflexivity. }
  split; [|split; [exact Hd|]].
  - rewrite Hd. unfold TruncatedInput.
    destruct (flag (flags h) 0x40), (flag (flags h) 0x20); auto.
  - apply extract_tags_not_extracted. rewrite Hd. discriminate.
Qed.

Lemma truncated_after_flags_witness :
  (read_header (mkfile 0 Sample.ends_at_flags)
   = (Returned (Some Sample.header_with_language), mkfile 73 [])
   /\ rest (mkfile 73 []) = []
   /\ flag (flags Sample.header_with_language) 0x40
      || flag (flags Sample.header_with_language) 0x20
      || flag (flags Sample.header_with_language) 0x10
      || flag (flags Sample.header_with_language) 0x08
      || flag (flags Sample.header_with_language) 0x04 = true)
  /\ TruncatedInput (fst (decode Sample.ends_at_flags))
  /\ fst (decode Sample.ends_at_flags)
     = ErrorReading
         (if flag (flags Sample.header_with_language) 0x40 then StructError
          else if flag (flags Sample.header_with_language) 0x20
               then IndexError
               else StructError)
  /\ (forall fs self,
        fs (filepath self) = Some Sample.ends_at_flags ->
        extract_tags fs self = (false, self)).
Proof.
  assert (H : read_header (mkfile 0 Sample.ends_at_flags)
              = (Returned (Some Sample.header_with_language), mkfile 73 [])
              /\ rest (mkfile 73 []) = []
              /\ flag (flags Sample.header_with_language) 0x40
                 || flag (flags Sample.header_with_language) 0x20
                 || flag (flags Sample.header_with_language) 0x10
                 || flag (flags Sample.header_with_language) 0x08
                 || flag (flags Sample.header_with_language) 0x04 = true)
    by (repeat split; vm_compute; reflexivity).
  split; [exact H|].
  destruct H as (Hh & He & Hf).
  exact (truncated_after_flags _ _ _ Hh He Hf).
Defined.

(** ** Lenient decoding *)

Lemma all_bytes_complete (b : byte) : In b all_bytes.
Proof.
  unfold all_bytes. apply in_flat_map.
  exists (N.to_nat (Byte.to_N b)). split.
  - apply in_seq. pose proof (Byte.to_N_bounded b). lia.
  - rewrite N2Nat.id, Byte.of_to_N. now left.
Qed.

Lemma forallb_all_bytes (P : byte -> bool) (b : byte) :
  forallb P all_bytes = true -> P b = true.
Proof.
  intros H. rewrite forallb_forall in H. apply H, all_bytes_complete.
Qed.

Lemma if_then_true (c x : bool) :
  c = true -> (if c then x else true) = true -> x = true.
Proof. now intros ->. Qed.

Lemma if_else_true (c x : bool) :
  c = false -> (if c then true else x) = true -> x = true.
Proof. now intros ->. Qed.

Lemma start_in_range (lo hi c : Z) :
  (c <? lo) = false -> (c <? hi) = true -> negb (c <? lo) && (c <? hi) = true.
Proof. now intros -> ->. Qed.

Lemma check_cp2_ok : forallb cp2_row all_bytes = true.
Proof. vm_compute. reflexivity. Qed.

Lemma check_cp3_ok : forallb cp3_row all_bytes = true.
Proof. vm_compute. reflexivity. Qed.

Lemma check_cp4_ok : forallb cp4_row all_bytes = true.
Proof. vm_compute. reflexivity. Qed.

Lemma cp2_not_replacement (b b2 : byte) :
  (byte_val b <? 0xC2) = false -> (byte_val b <? 0xE0) = true ->
  cp2 (byte_val b) (byte_val b2) <> REPLACEMENT_CHARACTER.
Proof.
  intros Hlo Hhi.
  pose proof (forallb_all_bytes cp2_row b check_cp2_ok) as H.
  apply (if_then_true _ _ (start_in_range _ _ _ Hlo Hhi)) in H.
  apply (forallb_all_bytes (cp2_cell b) b2) in H.
  now apply negb_true_iff, Z.eqb_neq in H.
Qed.

Lemma cp3_replacement (b b2 b3 : byte) :
  (byte_val b <? 0xE0) = false -> (byte_val b <? 0xF0) = true ->
  bad_second3 (byte_val b) (byte_val b2) = false ->
  is_cont (byte_val b3) = true ->
  cp3 (byte_val b) (byte_val b2) (byte_val b3) = REPLACEMENT_CHARACTER ->
  b = xef /\ b2 = xbf /\ b3 = xbd.
Proof.
  intros Hlo Hhi Hsecond Hthird Hcp.
  pose proof (forallb_all_bytes cp3_row b check_cp3_ok) as H.
  apply (if_then_true _ _ (start_in_range _ _ _ Hlo Hhi)) in H.
  apply (forallb_all_bytes (cp3_mid b) b2) in H.
  apply (if_else_true _ _ Hsecond) in H.
  apply (forallb_all_bytes (cp3_cell b b2) b3) in H.
  unfold cp3_cell in H. rewrite Hthird, Hcp, Z.eqb_refl in H.
  apply andb_true_iff in H as [H Hb3].
  apply andb_true_iff in H as [Hb Hb2].
  repeat split; now apply Byte.byte_dec_bl.
Qed.

Lemma third_byte_below_16 (b : byte) :
  Z.shiftr (Z.shiftl (Z.land (byte_val b) 0x3F) 6) 16 = 0.
Proof. destruct b; reflexivity. Qed.

Lemma fourth_byte_below_16 (b : byte) :
  Z.shiftr (Z.land (byte_val b) 0x3F) 16 = 0.
Proof. destruct b; reflexivity. Qed.

Lemma cp4_not_replacement (b b2 b3 b4 : byte) :
  (byte_val b <? 0xF0) = false -> (byte_val b <? 0xF5) = true ->
  bad_second4 (byte_val b) (byte_val b2) = false ->
  cp4 (byte_val b) (byte_val b2) (byte_val b3) (byte_val b4)
  <> REPLACEMENT_CHARACTER.
Proof.
  intros Hlo Hhi Hsecond Hcp.
  pose proof (forallb_all_bytes cp4_row b check_cp4_ok) as H.
  apply (if_then_true _ _ (start_in_range _ _ _ Hlo Hhi)) in H.
  apply (forallb_all_bytes (cp4_cell b) b2) in H.
  apply (if_else_true _ _ Hsecond) in H.
  apply negb_true_iff, Z.eqb_neq in H.
  apply H. unfold cp4_high.
  apply (f_equal (fun z => Z.shiftr z 16)) in Hcp.
  unfold cp4 in Hcp. rewrite !Z.shiftr_lor in Hcp.
  rewrite third_byte_below_16, fourth_byte_below_16, !Z.lor_0_r in Hcp.
  exact Hcp.
Qed.

Lemma encodes_replacement_cons (b : byte) (bs : list byte) :
  encodes_replacement bs -> encodes_replacement (b :: bs).
Proof. intros (pre & post & ->). now exists (b :: pre), post. Qed.

Lemma emit_returned (c : Z) (k : result str) (s : str) :
  emit c k = Returned s -> exists s', k = Returned s' /\ s = c :: s'.
Proof. destruct k as [s'|e]; [|discriminate]. intros [= <-]. eauto. Qed.

(** With [errors='ignore'], a U+FFFD in the result was in the data. *)
Lemma utf8_decode_ignore_replacement (bs : list byte) :
  forall s,
    utf8_decode ignore bs = Returned s ->
    In REPLACEMENT_CHARACTER s -> encodes_replacement bs.
Proof.
  functional induction (utf8_decode ignore bs); intros s Hs Hin;
    cbn [on_error] in *.
  all: try (injection Hs as <-; now destruct Hin).
  all: try (now eauto 6 using encodes_replacement_cons).
  all: apply emit_returned in Hs as (s' & Hs' & ->).
  all: destruct Hin as [Hc|Hin];
    [|now eauto 6 using encodes_replacement_cons].
  - match goal with
    | H : (byte_val b <? 128) = true |- _ => apply Z.ltb_lt in H
    end.
    unfold REPLACEMENT_CHARACTER in Hc. lia.
  - now apply cp2_not_replacement in Hc.
  - apply cp3_replacement in Hc as (-> & -> & ->); auto.
    now exists [], r2.
  - now apply cp4_not_replacement in Hc.
Qed.

Ltac use_tests :=
  repeat match goal with
    | H : ?t = true |- context [if ?t then _ else _] => rewrite H
    | H : ?t = false |- context [if ?t then _ else _] => rewrite H
    end.

(** One step of the decoder. *)
Lemma utf8_decode_nil (h : errors) : utf8_decode h [] = Returned [].
Proof. reflexivity. Qed.

Lemma utf8_decode_cons (h : errors) (b : byte) (r0 : list byte) :
  utf8_decode h (b :: r0) =
  let c := byte_val b in
  if c <? 0x80 then emit c (utf8_decode h r0)
  else if c <? 0xC2 then on_error h (utf8_decode h r0)
  else if c <? 0xE0 then
    match r0 with
    | [] => on_error h (Returned [])
    | b2 :: r1 =>
        let c2 := byte_val b2 in
        if is_cont c2 then emit (cp2 c c2) (utf8_decode h r1)
        else on_error h (utf8_decode h r0)
    end
  else if c <? 0xF0 then
    match r0 with
    | [] => on_error h (Returned [])
    | b2 :: r1 =>
        let c2 := byte_val b2 in
        if bad_second3 c c2 then on_error h (utf8_decode h r0)
        else
          match r1 with
          | [] => on_error h (Returned [])
          | b3 :: r2 =>
              let c3 := byte_val b3 in
              if is_cont c3 then emit (cp3 c c2 c3) (utf8_decode h r2)
              else on_error h (utf8_decode h r1)
          end
    end
  else if c <? 0xF5 then
    match r0 with
    | [] => on_error h (Returned [])
    | b2 :: r1 =>
        let c2 := byte_val b2 in
        if bad_second4 c c2 then on_error h (utf8_decode h r0)
        else
          match r1 with
          | [] => on_error h (Returned [])
          | b3 :: r2 =>
              let c3 := byte_val b3 in
              if negb (is_cont c3) then on_error h (utf8_decode h r1)
              else
                match r2 with
                | [] => on_error h (Returned [])
                | b4 :: r3 =>
                    let c4 := byte_val b4 in
                    if is_cont c4
                    then emit (cp4 c c2 c3 c4) (utf8_decode h r3)
                    else on_error h (utf8_decode h r2)
                end
          end
    end
  else on_error h (utf8_decode h r0).
Proof. reflexivity. Qed.

(** Unfold the decoder once in mode [h], along the path the tests in the
    context select. *)
Ltac step_decoder h :=
  match goal with
  | |- context [utf8_decode h (?b :: ?r)] =>
      rewrite (utf8_decode_cons h b r); cbv beta iota zeta; use_tests
  | |- context [utf8_decode h []] => rewrite (utf8_decode_nil h)
  end.

(** What ['ignore'] returns is what ['replace'] returns, less replacement
    characters. *)
Lemma utf8_decode_ignore_vs_replace (bs : list byte) :
  exists si sr,
    utf8_decode ignore bs = Returned si
    /\ utf8_decode replace bs = Returned sr
    /\ drops_replacements si sr.
Proof.
  functional induction (utf8_decode ignore bs);
    step_decoder replace; cbn [on_error emit];
    try match goal with
      | IH : exists _ _, _ /\ _ /\ _ |- _ =>
          destruct IH as (si & sr & -> & -> & Hd); cbn [emit]
      end;
    eauto 8 using drops_replacements.
Qed.

(** Well-formed data decodes the same under ['strict'] and ['ignore']. *)
Lemma utf8_decode_strict_ignore (bs : list byte) :
  forall s,
    utf8_decode strict bs = Returned s -> utf8_decode ignore bs = Returned s.
Proof.
  functional induction (utf8_decode strict bs); intros s Hs;
    cbn [on_error] in Hs; try discriminate;
    step_decoder ignore;
    try (apply emit_returned in Hs as (s' & Hs' & ->);
         match goal with
         | IH : forall _, _ -> _ |- _ => rewrite (IH _ Hs')
         end);
    try assumption; reflexivity.
Qed.

(** C2, as the code has it.  For every length-prefixed string,
    [read_utf8_string] returns a string and never raises, whatever the
    payload bytes are; it consumes the prefix and the payload.  The payload
    is decoded with [errors='ignore']: bytes that are not well-formed UTF-8
    are left out and no replacement character is put in their place.  A
    U+FFFD in the result comes from the bytes EF BF BD in the payload, and
    the result is what decoding with [errors='replace'] gives, less
    replacement characters; a well-formed payload decodes to its text. *)
Theorem read_utf8_string_ignores_invalid (p : Z) (payload tail : list byte) :
  exists s,
    read_utf8_string
      (mkfile p (Writer.encode_varint (len payload) ++ payload ++ tail))
    = (Returned s,
       mkfile (p + len (Writer.encode_varint (len payload)) + len payload)
              tail)
    /\ utf8_decode ignore payload = Returned s
    /\ (In REPLACEMENT_CHARACTER s -> encodes_replacement payload)
    /\ (exists sr,
          utf8_decode replace payload = Returned sr
          /\ drops_replacements s sr)
    /\ (forall s', utf8_decode strict payload = Returned s' -> s' = s).
Proof.
  destruct (utf8_decode_ignore_vs_replace payload) as (s & sr & Hs & Hr & Hd).
  exists s. split; [|split; [exact Hs | split; [|split; [eauto|]]]];
    [| |intros s' Hs'; apply utf8_decode_strict_ignore in Hs'; congruence].
  - rewrite read_utf8_string_cases.
    rewrite read_variable_byte_encode by apply len_nonneg.
    destruct payload as [|b payload].
    + cbn [utf8_decode] in Hs. injection Hs as <-.
      change (len (@nil byte)) with 0. cbn [Z.eqb app].
      now rewrite Z.add_0_r.
    + pose proof (len_nonneg payload). pose proof (len_cons b payload).
      destruct (Z.eqb_spec (len (b :: payload)) 0); [lia|].
      unfold read. cbn [pos rest].
      destruct (Z.ltb_spec (len (b :: payload)) 0); [lia|].
      rewrite take_exact, Hs. reflexivity.
  - now apply utf8_decode_ignore_replacement.
Qed.

(** C2, as stated, fails: the payload [61 FF 62] is not well-formed UTF-8
    (['strict'] raises on it, ['replace'] gives a U+FFFD between the two
    letters), and [read_utf8_string] returns the two letters with nothing
    between them. *)
Lemma replacement_character_not_inserted :
  utf8_decode strict [x61; xff; x62] = Raised UnicodeDecodeError
  /\ utf8_decode replace [x61; xff; x62]
     = Returned [0x61; REPLACEMENT_CHARACTER; 0x62]
  /\ read_utf8_string (mkfile 0 [x03; x61; xff; x62])
     = (Returned [0x61; 0x62], mkfile 4 [])
  /\ ~ In REPLACEMENT_CHARACTER [0x61; 0x62].
Proof.
  repeat split; try reflexivity.
  intros [H|[H|[]]]; discriminate.
Qed.

(* ------------------------------------------------------------------ *)
(** * Further properties of the reader *)

(** ** The cursor only moves forward *)

Lemma len_app_bytes (l r : list byte) : len (l ++ r) = len l + len r.
Proof. unfold len. rewrite length_app. lia. Qed.

Lemma advances_ret {A : Type} (a : A) : advances (ret a).
Proof.
  intros f r f' [= <- <-]. exists []. unfold len. cbn. split; [reflexivity|lia].
Qed.

Lemma advances_eval {A : Type} (r : result A) : advances (eval r).
Proof.
  intros f r' f' [= <- <-]. exists []. unfold len. cbn. split; [reflexivity|lia].
Qed.

Lemma advances_bind {A B : Type} (c : M A) (k : A -> M B) :
  advances c -> (forall a, advances (k a)) -> advances (bind c k).
Proof.
  intros Hc Hk f r f'. unfold bind.
  destruct (c f) as [[a|e] f1] eqn:E; intros H.
  - destruct (Hc _ _ _ E) as (g1 & H1 & P1).
    destruct (Hk a _ _ _ H) as (g2 & H2 & P2).
    exists (g1 ++ g2). rewrite <- app_assoc, <- H2, <- H1.
    split; [reflexivity|]. unfold len in *. rewrite length_app. lia.
  - injection H as <- <-. exact (Hc _ _ _ E).
Qed.

Lemma advances_read (size : Z) : advances (lift (read size)).
Proof.
  intros f r f'. unfold lift, read.
  destruct (size <? 0).
  - intros [= <- <-]. exists (rest f). cbn. now rewrite app_nil_r.
  - destruct (take size (rest f)) as [got left] eqn:E.
    intros [= <- <-]. exists got. cbn. split; [|reflexivity].
    clear - E. revert size got left E.
    induction (rest f) as [|b l IH]; intros size got left.
    + now intros [= <- <-].
    + rewrite take_cons. destruct (size <=? 0); [now intros [= <- <-]|].
      destruct (take (size - 1) l) as [g r] eqn:E'.
      intros [= <- <-]. cbn. f_equal. eauto.
Qed.

Lemma read_variable_byte_loop_advances (bs : list byte) :
  forall result shift p r f',
    read_variable_byte_loop result shift p bs = (r, f') ->
    exists got, bs = got ++ rest f' /\ pos f' = p + len got.
Proof.
  induction bs as [|b bs IH]; intros result shift p r f'; cbn [read_variable_byte_loop].
  - intros [= <- <-]. exists []. unfold len. cbn. split; [reflexivity|lia].
  - destruct (Z.land (byte_val b) 128 =? 0).
    + intros [= <- <-]. exists [b]. unfold len. now cbn.
    + intros H. apply IH in H as (got & -> & ->).
      exists (b :: got). rewrite len_cons. split; [reflexivity|lia].
Qed.

Lemma advances_read_variable_byte : advances (lift read_variable_byte).
Proof.
  intros f r f'. unfold lift.
  destruct (read_variable_byte f) as [n f1] eqn:E.
  intros [= <- <-]. unfold read_variable_byte in E.
  exact (read_variable_byte_loop_advances _ _ _ _ _ _ E).
Qed.

Lemma advances_read_utf8_string : advances read_utf8_string.
Proof.
  unfold read_utf8_string.
  apply advances_bind; [exact advances_read_variable_byte|].
  intros [[|n|n]|]; try apply advances_ret;
    (apply advances_bind; [apply advances_read | intros; apply advances_eval]).
Qed.

Lemma advances_for_range {A : Type} (body : M A) (n : nat) :
  advances body -> forall acc, advances (for_range n body acc).
Proof.
  intros Hb. induction n as [|n IH]; intros acc; cbn [for_range].
  - apply advances_ret.
  - apply advances_bind; [exact Hb | intros; apply IH].
Qed.

Lemma advances_when {A : Type} (cond : bool) (body : M A) :
  advances body -> advances (when cond body).
Proof.
  intros Hb. unfold when. destruct cond; [|apply advances_ret].
  apply advances_bind; [exact Hb | intros; apply advances_ret].
Qed.

Ltac advances_step :=
  first
    [ apply advances_ret
    | apply advances_eval
    | apply advances_read
    | apply advances_read_variable_byte
    | apply advances_read_utf8_string
    | apply advances_when
    | apply advances_for_range
    | apply advances_bind; [|intros] ].

Ltac advances_auto :=
  repeat (advances_step
          || match goal with
             | |- advances (match ?x with _ => _ end) => destruct x
             | |- advances (if ?x then _ else _) => destruct x
             end).

Lemma advances_extract_tags_body : advances extract_tags_body.
Proof.
  unfold extract_tags_body, read_header, read_optional, read_tables,
    read_zoom_interval, read_H, read_I, read_Q, read_i, read_B.
  advances_auto.
Qed.

Lemma decode_pos_le (content : list byte) :
  pos (snd (decode content)) <= len content.
Proof.
  unfold decode.
  destruct (extract_tags_body (mkfile 0 content)) as [r f] eqn:E.
  destruct (advances_extract_tags_body _ _ _ E) as (got & Hgot & Hpos).
  cbn [pos rest] in *.
  replace (pos (snd _)) with (pos f)
    by (destruct r as [[[[h o] t]|]|e]; reflexivity).
  rewrite Hgot, Hpos, len_app_bytes. pose proof (len_nonneg (rest f)). lia.
Qed.

(** X1.  Whatever [decode] does with a file, success or failure, what it
    consumed followed by what it left unread is the file, the cursor
    counts the bytes consumed, and it never passes the end of the file. *)
Theorem decode_cursor (content : list byte) :
  exists consumed,
    content = consumed ++ rest (snd (decode content))
    /\ pos (snd (decode content)) = len consumed
    /\ 0 <= pos (snd (decode content)) <= len content.
Proof.
  unfold decode.
  destruct (extract_tags_body (mkfile 0 content)) as [r f] eqn:E.
  destruct (advances_extract_tags_body _ _ _ E) as (got & Hgot & Hpos).
  cbn [pos rest] in *.
  exists got.
  assert (Hsnd : snd (match r with
                      | Returned (Some (h, o, t)) => (Extracted h o t, f)
                      | Returned None => (NotValidMapFile, f)
                      | Raised e => (ErrorReading e, f)
                      end) = f)
    by (destruct r as [[[[h o] t]|]|e]; reflexivity).
  rewrite Hsnd. pose proof (len_nonneg got). pose proof (len_nonneg (rest f)).
  assert (len content = len got + len (rest f))
    by (rewrite Hgot; now rewrite len_app_bytes).
  repeat split; try assumption; lia.
Qed.

(** ** More on the variable-length integer *)

Lemma read_variable_byte_loop_none (bs : list byte) :
  forall result shift p,
    fst (read_variable_byte_loop result shift p bs) = None
    <-> Forall (fun b => 128 <= byte_val b) bs.
Proof.
  induction bs as [|b bs IH]; intros result shift p;
    cbn [read_variable_byte_loop].
  - split; [constructor | reflexivity].
  - rewrite high_bit_clear.
    destruct (Z.ltb_spec (byte_val b) 128) as [Hlt|Hge].
    + split; [discriminate|]. intros H. inversion H; subst. lia.
    + rewrite IH. split; [now constructor | now inversion 1].
Qed.

(** X2.  [read_variable_byte] returns [None] exactly when no byte that is
    left ends a number, that is when every one of them has its high bit set
    (an empty rest included); it has then consumed them all. *)
Theorem read_variable_byte_none (f : file) :
  (fst (read_variable_byte f) = None
   <-> Forall (fun b => 128 <= byte_val b) (rest f))
  /\ (fst (read_variable_byte f) = None ->
      snd (read_variable_byte f) = mkfile (pos f + len (rest f)) []).
Proof.
  unfold read_variable_byte. split.
  - apply read_variable_byte_loop_none.
  - destruct (read_variable_byte_loop 0 0 (pos f) (rest f)) as [r f'] eqn:E.
    cbn [fst snd]. intros ->.
    now apply read_variable_byte_loop_eof in E.
Qed.

Lemma lor_below (a b k : Z) :
  0 <= k -> 0 <= a < 2 ^ k -> 0 <= b < 2 ^ k -> 0 <= Z.lor a b < 2 ^ k.
Proof.
  intros Hk Ha Hb.
  assert (Hnn : 0 <= Z.lor a b) by (apply Z.lor_nonneg; lia).
  split; [exact Hnn|].
  destruct (Z.eq_dec (Z.lor a b) 0) as [->|Hnz].
  - apply Z.pow_pos_nonneg; lia.
  - assert (0 < k).
    { destruct (Z.eq_dec k 0) as [->|]; [|lia].
      change (2 ^ 0) with 1 in *.
      assert (a = 0) by lia. assert (b = 0) by lia. subst. now cbn in Hnz. }
    apply Z.log2_lt_pow2; [lia|].
    rewrite Z.log2_lor by lia.
    apply Z.max_lub_lt.
    + destruct (Z.eq_dec a 0) as [->|]; [cbn; lia|].
      apply Z.log2_lt_pow2; lia.
    + destruct (Z.eq_dec b 0) as [->|]; [cbn; lia|].
      apply Z.log2_lt_pow2; lia.
Qed.

Lemma group_below (b : byte) (shift : Z) :
  0 <= shift ->
  0 <= Z.shiftl (Z.land (byte_val b) 0x7F) shift < 2 ^ (shift + 7).
Proof.
  intros Hs. rewrite low_seven_bits, Z.shiftl_mul_pow2 by lia.
  assert (0 <= byte_val b mod 128 < 128) by (apply Z.mod_pos_bound; lia).
  assert (0 < 2 ^ shift) by (apply Z.pow_pos_nonneg; lia).
  rewrite Z.pow_add_r by lia. change (2 ^ 7) with 128. nia.
Qed.

Lemma read_variable_byte_loop_bound (bs : list byte) :
  forall result shift p n f',
    0 <= shift -> 0 <= result < 2 ^ shift ->
    read_variable_byte_loop result shift p bs = (Some n, f') ->
    exists got,
      bs = got ++ rest f'
      /\ got <> []
      /\ pos f' = p + len got
      /\ 0 <= n < 2 ^ (shift + 7 * len got).
Proof.
  induction bs as [|b bs IH]; intros result shift p n f' Hs Hr;
    cbn [read_variable_byte_loop]; [discriminate|].
  assert (Hstep : 0 <= Z.lor result (Z.shiftl (Z.land (byte_val b) 0x7F) shift)
                  < 2 ^ (shift + 7)).
  { apply lor_below; [lia| |now apply group_below].
    split; [lia|]. apply Z.lt_le_trans with (2 ^ shift); [lia|].
    apply Z.pow_le_mono_r; lia. }
  destruct (Z.land (byte_val b) 128 =? 0).
  - intros [= <- <-]. exists [b]. cbn [rest pos app].
    change (len [b]) with 1. replace (shift + 7 * 1) with (shift + 7) by lia.
    split; [reflexivity | split; [discriminate | split; [reflexivity|]]].
    exact Hstep.
  - intros H. apply IH in H as (got & -> & _ & -> & Hn); [|lia|exact Hstep].
    exists (b :: got). rewrite len_cons. pose proof (len_nonneg got).
    replace (shift + 7 * (len got + 1)) with (shift + 7 + 7 * len got) by lia.
    split; [reflexivity | split; [discriminate | split; [lia|]]].
    exact Hn.
Qed.

(** X3.  When [read_variable_byte] returns a number it has consumed at
    least one byte, and a number read from [k] bytes is below [2^(7k)]; it
    is never negative. *)
Theorem read_variable_byte_bound (f f' : file) (n : Z) :
  read_variable_byte f = (Some n, f') ->
  exists got,
    rest f = got ++ rest f'
    /\ got <> []
    /\ pos f' = pos f + len got
    /\ 0 <= n < 2 ^ (7 * len got).
Proof.
  unfold read_variable_byte. intros H.
  apply read_variable_byte_loop_bound in H; [|lia|cbn; lia].
  exact H.
Qed.

Lemma read_variable_byte_bound_witness :
  read_variable_byte (mkfile 0 [xac; x02; x41]) = (Some 300, mkfile 2 [x41])
  /\ exists got,
       rest (mkfile 0 [xac; x02; x41]) = got ++ rest (mkfile 2 [x41])
       /\ got <> []
       /\ pos (mkfile 2 [x41]) = pos (mkfile 0 [xac; x02; x41]) + len got
       /\ 0 <= 300 < 2 ^ (7 * len got).
Proof.
  assert (H : read_variable_byte (mkfile 0 [xac; x02; x41])
              = (Some 300, mkfile 2 [x41])) by reflexivity.
  split; [exact H | exact (read_variable_byte_bound _ _ _ H)].
Defined.

(** ** The flags byte *)

Lemma flag_masked (flags mask : Z) :
  Z.land 0x7C mask = mask -> flag (Z.land flags 0x7C) mask = flag flags mask.
Proof.
  intros H. unfold flag. now rewrite <- Z.land_assoc, H.
Qed.

Lemma flag_clear (flags mask : Z) :
  Z.land flags 0x7C = 0 -> Z.land 0x7C mask = mask -> flag flags mask = false.
Proof.
  intros H0 Hm. rewrite <- (flag_masked flags mask Hm), H0. reflexivity.
Qed.

(** X4.  Which optional fields are read depends on the bits 0x40, 0x20,
    0x10, 0x08 and 0x04 of the flags only; the debug bit 0x80 and the two low
    bits change nothing.  When none of the five is set, no byte is read
    between the flags byte and the POI tag count. *)
Theorem read_optional_flag_bits :
  (forall flags f, read_optional flags f = read_optional (Z.land flags 0x7C) f)
  /\ (forall flags f,
        Z.land flags 0x7C = 0 ->
        read_optional flags f
        = (Returned (mkoptional None None None None None), f)).
Proof.
  split.
  - intros flags f. unfold read_optional.
    now rewrite !flag_masked by reflexivity.
  - intros flags f H. unfold read_optional.
    now rewrite !(flag_clear flags _ H) by reflexivity.
Qed.

(** ** Fixed-width fields *)

Lemma take_length (l : list byte) :
  forall n got left, 0 <= n -> take n l = (got, left) -> len got <= n.
Proof.
  induction l as [|b l IH]; intros n got left Hn.
  - intros [= <- <-]. exact Hn.
  - rewrite take_cons. destruct (Z.leb_spec n 0).
    + intros [= <- <-]. exact Hn.
    + destruct (take (n - 1) l) as [g r] eqn:E. intros [= <- <-].
      rewrite len_cons. apply IH in E; lia.
Qed.

Lemma be_value_below (bs : list byte) : be_value bs < 256 ^ len bs.
Proof.
  unfold be_value.
  assert (H : forall acc bound,
            0 <= acc < bound ->
            fold_left (fun a b => a * 256 + byte_val b) bs acc
            < bound * 256 ^ len bs).
  { induction bs as [|b bs IH]; intros acc bound Hacc; cbn [fold_left].
    - change (len (@nil byte)) with 0. lia.
    - rewrite len_cons, Z.pow_add_r by (pose proof (len_nonneg bs); lia).
      pose proof (byte_val_range b).
      specialize (IH (acc * 256 + byte_val b) (bound * 256)).
      change (256 ^ 1) with 256. 
      replace (bound * (256 ^ len bs * 256)) with (bound * 256 * 256 ^ len bs)
        by ring.
      apply IH. lia. }
  specialize (H 0 1). rewrite Z.mul_1_l in H. apply H. lia.
Qed.

(** A fixed-width unsigned read that returns has taken [width] bytes and
    its value fits in them. *)
Lemma read_unsigned_returned (width : Z) (f f' : file) (v : Z) :
  0 <= width ->
  bind (lift (read width)) (fun bs => eval (unpack_unsigned width bs)) f
  = (Returned v, f') ->
  0 <= v < 256 ^ width /\ pos f' = pos f + width.
Proof.
  intros Hw. unfold bind, lift, eval, unpack_unsigned, read.
  destruct (Z.ltb_spec width 0); [lia|].
  destruct (take width (rest f)) as [got left] eqn:E.
  destruct (Z.eqb_spec (len got) width) as [Hlen|]; [|discriminate].
  intros [= <- <-]. cbn [pos]. rewrite <- Hlen.
  split; [|reflexivity].
  split; [apply be_value_nonneg | apply be_value_below].
Qed.

Lemma read_i_returned (f f' : file) (v : Z) :
  read_i f = (Returned v, f') -> i32 v /\ pos f' = pos f + 4.
Proof.
  unfold read_i, bind, lift, eval, unpack_i, read.
  destruct (Z.ltb_spec 4 0); [lia|].
  destruct (take 4 (rest f)) as [got left] eqn:E.
  destruct (Z.eqb_spec (len got) 4) as [Hlen|]; [|discriminate].
  pose proof (be_value_nonneg got). pose proof (be_value_below got) as Hb.
  rewrite Hlen in Hb. change (256 ^ 4) with (2 ^ 32) in Hb.
  destruct (Z.ltb_spec (be_value got) (2 ^ 31));
    intros [= <- <-]; cbn [pos]; rewrite Hlen;
    (split; [unfold i32; lia | reflexivity]).
Qed.

Lemma read_B_returned (f f' : file) (v : Z) :
  read_B f = (Returned v, f') ->
  u8 v /\ pos f' = pos f + 1 /\ rest f <> [].
Proof.
  unfold read_B, bind, lift, eval, index0, read.
  destruct (Z.ltb_spec 1 0); [lia|].
  destruct (rest f) as [|b l] eqn:Hrest; [discriminate|].
  rewrite take_cons. destruct (Z.leb_spec 1 0); [lia|].
  change (1 - 1) with 0.
  destruct (take 0 l) as [g r] eqn:E.
  assert (g = []).
  { apply take_length in E; [|lia]. destruct g; [reflexivity|].
    rewrite len_cons in E. pose proof (len_nonneg g). lia. }
  subst g. intros [= <- <-]. cbn [pos].
  split; [apply byte_val_range | split; [reflexivity | discriminate]].
Qed.

Lemma read_H_returned (f f' : file) (v : Z) :
  read_H f = (Returned v, f') -> u16 v /\ pos f' = pos f + 2.
Proof. intros H. now apply read_unsigned_returned in H. Qed.

Lemma read_I_returned (f f' : file) (v : Z) :
  read_I f = (Returned v, f') -> u32 v /\ pos f' = pos f + 4.
Proof. intros H. now apply read_unsigned_returned in H. Qed.

Lemma read_Q_returned (f f' : file) (v : Z) :
  read_Q f = (Returned v, f') -> u64 v /\ pos f' = pos f + 8.
Proof. intros H. now apply read_unsigned_returned in H. Qed.

Lemma read_zoom_interval_returned (f f' : file) (z : ZoomInterval) :
  read_zoom_interval f = (Returned z, f') ->
  zoom_interval_in_range z /\ pos f' = pos f + 19.
Proof.
  unfold read_zoom_interval. intros H.
  apply bind_returned in H as (b & f1 & H1 & H).
  apply bind_returned in H as (mn & f2 & H2 & H).
  apply bind_returned in H as (mx & f3 & H3 & H).
  apply bind_returned in H as (st & f4 & H4 & H).
  apply bind_returned in H as (sz & f5 & H5 & H).
  injection H as <- <-.
  apply read_B_returned in H1 as (? & ? & _), H2 as (? & ? & _),
    H3 as (? & ? & _).
  apply read_Q_returned in H4 as (? & ?), H5 as (? & ?).
  split; [|lia]. unfold zoom_interval_in_range.
  cbn [base_zoom min_zoom max_zoom subfile_start subfile_size]. auto.
Qed.

Lemma for_range_Forall {A : Type} (P : A -> Prop) (body : M A) :
  (forall f a f', body f = (Returned a, f') -> P a) ->
  forall n acc f l f',
    Forall P acc ->
    for_range n body acc f = (Returned l, f') -> Forall P l.
Proof.
  intros Hbody. induction n as [|n IH]; intros acc f l f' Hacc H;
    cbn [for_range] in H.
  - now injection H as <- <-.
  - apply bind_returned in H as (x & f1 & Hx & H).
    apply IH in H; [exact H|].
    apply Forall_app. split; [exact Hacc|]. constructor; [|constructor].
    now apply Hbody in Hx.
Qed.

Lemma advances_pos {A : Type} (c : M A) f r f' :
  advances c -> c f = (r, f') -> pos f <= pos f'.
Proof.
  intros Hc H. destruct (Hc _ _ _ H) as (got & _ & ->).
  pose proof (len_nonneg got). lia.
Qed.

Lemma when_returned {A : Type} (P : A -> Prop) (cond : bool) (body : M A)
    f o f' :
  (forall a f1, body f = (Returned a, f1) -> P a) ->
  when cond body f = (Returned o, f') ->
  forall a, o = Some a -> P a.
Proof.
  intros Hb. unfold when. destruct cond.
  - intros H. apply bind_returned in H as (x & f1 & Hx & H).
    injection H as <- <-. intros a [= <-]. eauto.
  - intros [= <- <-]. discriminate.
Qed.

(** What [decode] took apart, step by step. *)
Lemma decode_extracted (content : list byte) h o t f_end :
  decode content = (Extracted h o t, f_end) ->
  exists f_h f_o,
    read_header (mkfile 0 content) = (Returned (Some h), f_h)
    /\ read_optional (flags h) f_h = (Returned o, f_o)
    /\ read_tables f_o = (Returned t, f_end).
Proof.
  unfold decode. intros H.
  destruct (extract_tags_body (mkfile 0 content)) as [[[[[h' o'] t']|]|e] f]
    eqn:Hbody; try discriminate.
  injection H as -> -> -> ->.
  unfold extract_tags_body in Hbody.
  apply bind_returned in Hbody as ([h'|] & f_h & Hh & Hbody);
    [|discriminate].
  apply bind_returned in Hbody as (o' & f0 & Ho & Hbody).
  apply bind_returned in Hbody as (t' & f3 & Ht & Hbody).
  injection Hbody as -> -> -> ->. eauto.
Qed.

Lemma read_utf8_string_progress (f f' : file) (r : result str) :
  read_utf8_string f = (r, f') -> rest f <> [] -> pos f + 1 <= pos f'.
Proof.
  rewrite read_utf8_string_cases. intros H Hne.
  destruct (read_variable_byte f) as [[n|] f1] eqn:E.
  - unfold read_variable_byte in E.
    apply read_variable_byte_loop_bound in E as (got & _ & Hgot & Hpos & _);
      [|lia|cbn; lia].
    assert (1 <= len got).
    { destruct got; [contradiction|]. rewrite len_cons.
      pose proof (len_nonneg got). lia. }
    destruct (n =? 0).
    + injection H as <- <-. lia.
    + destruct (read n f1) as [bs f2] eqn:Er. injection H as <- <-.
      assert (Hm : lift (read n) f1 = (Returned bs, f2))
        by (unfold lift; now rewrite Er).
      apply (advances_pos _ _ _ _ (advances_read n)) in Hm. lia.
  - injection H as <- <-.
    unfold read_variable_byte in E. apply read_variable_byte_loop_eof in E.
    subst f1. cbn [pos].
    destruct (rest f) as [|b l]; [contradiction|].
    rewrite len_cons. pose proof (len_nonneg l). lia.
Qed.

Lemma read_magic (f f' : file) (magic : list byte) :
  lift (read (len MAGIC_BYTE)) f = (Returned magic, f') ->
  bytes_eqb magic MAGIC_BYTE = true ->
  firstn 20 (rest f) = MAGIC_BYTE /\ pos f' = pos f + 20.
Proof.
  unfold lift, read. change (len MAGIC_BYTE) with 20.
  destruct (Z.ltb_spec 20 0); [lia|].
  rewrite take_firstn_skipn by lia. change (Z.to_nat 20) with 20%nat.
  remember (firstn 20 (rest f)) as pre eqn:Hpre.
  remember (skipn 20 (rest f)) as post eqn:Hpost.
  intros Hr Heq. apply bytes_eqb_eq in Heq. subst magic.
  injection Hr as Hp Hf. subst f'. cbn [pos]. rewrite Hp.
  split; reflexivity.
Qed.

(** What a header that was read is like. *)
Lemma read_header_returned (f f_h : file) (h : header) :
  read_header f = (Returned (Some h), f_h) ->
  firstn 20 (rest f) = MAGIC_BYTE
  /\ (u32 (header_size h) /\ u32 (file_version h)
      /\ u64 (file_size h) /\ u64 (date_created h)
      /\ i32 (min_lat h) /\ i32 (min_lon h)
      /\ i32 (max_lat h) /\ i32 (max_lon h)
      /\ u16 (tile_size h) /\ u8 (flags h))
  /\ pos f + 64 <= pos f_h.
Proof.
  unfold read_header. intros H.
  apply bind_returned in H as (magic & f0 & Hm & H).
  destruct (bytes_eqb magic MAGIC_BYTE) eqn:Heq; [|discriminate].
  cbn [negb] in H.
  apply (read_magic _ _ _ Hm) in Heq as (Hmagic & P0).
  apply bind_returned in H as (v1 & f1 & H1 & H).
  apply bind_returned in H as (v2 & f2 & H2 & H).
  apply bind_returned in H as (v3 & f3 & H3 & H).
  apply bind_returned in H as (v4 & f4 & H4 & H).
  apply bind_returned in H as (v5 & f5 & H5 & H).
  apply bind_returned in H as (v6 & f6 & H6 & H).
  apply bind_returned in H as (v7 & f7 & H7 & H).
  apply bind_returned in H as (v8 & f8 & H8 & H).
  apply bind_returned in H as (v9 & f9 & H9 & H).
  apply bind_returned in H as (pr & f10 & Hp & H).
  apply bind_returned in H as (fl & f11 & Hf & H).
  injection H as <- <-.
  apply read_I_returned in H1 as (? & ?), H2 as (? & ?).
  apply read_Q_returned in H3 as (? & ?), H4 as (? & ?).
  apply read_i_returned in H5 as (? & ?), H6 as (? & ?),
    H7 as (? & ?), H8 as (? & ?).
  apply read_H_returned in H9 as (? & ?).
  apply read_B_returned in Hf as (? & ? & Hne).
  assert (pos f9 + 1 <= pos f10).
  { apply (read_utf8_string_progress _ _ _ Hp).
    destruct (advances_read_utf8_string _ _ _ Hp) as (got & -> & _).
    destruct got; [exact Hne | discriminate]. }
  split; [exact Hmagic | split; [|lia]].
  cbn [header_size file_version file_size date_created min_lat min_lon
       max_lat max_lon tile_size flags].
  repeat match goal with |- _ /\ _ => split end; assumption.
Qed.

Lemma read_optional_returned (fl : Z) (f f' : file) (o : optional) :
  read_optional fl f = (Returned o, f') ->
  (forall lat lon, start_position o = Some (lat, lon) -> i32 lat /\ i32 lon)
  /\ (forall z, start_zoom o = Some z -> u8 z)
  /\ pos f <= pos f'.
Proof.
  intros H. split; [|split].
  - unfold read_optional in H.
    apply bind_returned in H as (sp & f1 & H1 & H).
    apply bind_returned in H as (sz & f2 & H2 & H).
    apply bind_returned in H as (la & f3 & H3 & H).
    apply bind_returned in H as (co & f4 & H4 & H).
    apply bind_returned in H as (cb & f5 & H5 & H).
    injection H as <- <-. cbn [start_position].
    intros lat lon ->. unfold when in H1.
    destruct (flag fl 64); [|discriminate].
    apply bind_returned in H1 as ([la' lo'] & g1 & Hb & H1).
    injection H1 as -> -> <-.
    apply bind_returned in Hb as (a & g2 & Ha & Hb).
    apply bind_returned in Hb as (b & g3 & Hb' & Hb).
    injection Hb as -> -> <-.
    apply read_i_returned in Ha as (? & _), Hb' as (? & _). now split.
  - unfold read_optional in H.
    apply bind_returned in H as (sp & f1 & H1 & H).
    apply bind_returned in H as (sz & f2 & H2 & H).
    apply bind_returned in H as (la & f3 & H3 & H).
    apply bind_returned in H as (co & f4 & H4 & H).
    apply bind_returned in H as (cb & f5 & H5 & H).
    injection H as <- <-. cbn [start_zoom].
    intros z ->. unfold when in H2.
    destruct (flag fl 32); [|discriminate].
    apply bind_returned in H2 as (z' & g1 & Hb & H2).
    injection H2 as -> <-.
    now apply read_B_returned in Hb as (? & _).
  - eapply advances_pos; [|exact H].
    unfold read_optional, read_i, read_B. advances_auto.
Qed.

Lemma read_tables_returned (f f' : file) (t : tables) :
  read_tables f = (Returned t, f') ->
  (u16 (num_poi_tags t) /\ u16 (num_way_tags t) /\ u8 (num_zoom_intervals t)
   /\ Forall zoom_interval_in_range (zoom_intervals t))
  /\ pos f + 5 <= pos f'.
Proof.
  unfold read_tables. intros H.
  apply bind_returned in H as (n1 & g1 & Hn1 & H).
  apply bind_returned in H as (l1 & f1 & Hl1 & H).
  apply bind_returned in H as (n2 & g2 & Hn2 & H).
  apply bind_returned in H as (l2 & f2 & Hl2 & H).
  apply bind_returned in H as (n3 & g3 & Hn3 & H).
  apply bind_returned in H as (l3 & f3 & Hl3 & H).
  injection H as <- <-.
  cbn [num_poi_tags num_way_tags num_zoom_intervals zoom_intervals].
  apply read_H_returned in Hn1 as (? & ?), Hn2 as (? & ?).
  apply read_B_returned in Hn3 as (? & ? & _).
  pose proof (advances_pos _ _ _ _
                (advances_for_range _ _ advances_read_utf8_string []) Hl1).
  pose proof (advances_pos _ _ _ _
                (advances_for_range _ _ advances_read_utf8_string []) Hl2).
  assert (Hz : advances read_zoom_interval)
    by (unfold read_zoom_interval, read_B, read_Q; advances_auto).
  pose proof (advances_pos _ _ _ _ (advances_for_range _ _ Hz []) Hl3).
  split; [|lia]. repeat match goal with |- _ /\ _ => split end;
    try assumption.
  eapply for_range_Forall; [|constructor|exact Hl3].
  intros g z g' Hg. now apply read_zoom_interval_returned in Hg.
Qed.

(** X5.  Every number that a successful decode hands out fits the width of
    the field it was read from: unsigned 32- and 64-bit header fields,
    signed 32-bit coordinates, 16-bit tag counts and tile size, one-byte
    flags, zoom levels and zoom interval count, 64-bit subfile offsets and
    sizes. *)
Theorem decode_ranges (content : list byte) h o t f_end :
  decode content = (Extracted h o t, f_end) ->
  (u32 (header_size h) /\ u32 (file_version h)
   /\ u64 (file_size h) /\ u64 (date_created h)
   /\ i32 (min_lat h) /\ i32 (min_lon h)
   /\ i32 (max_lat h) /\ i32 (max_lon h)
   /\ u16 (tile_size h) /\ u8 (flags h))
  /\ (forall lat lon, start_position o = Some (lat, lon) -> i32 lat /\ i32 lon)
  /\ (forall z, start_zoom o = Some z -> u8 z)
  /\ (u16 (num_poi_tags t) /\ u16 (num_way_tags t)
      /\ u8 (num_zoom_intervals t)
      /\ Forall zoom_interval_in_range (zoom_intervals t)).
Proof.
  intros H. apply decode_extracted in H as (f_h & f_o & Hh & Ho & Ht).
  apply read_header_returned in Hh as (_ & Hh & _).
  apply read_optional_returned in Ho as (Hsp & Hsz & _).
  apply read_tables_returned in Ht as (Ht & _).
  auto.
Qed.

Lemma decode_ranges_witness :
  decode Writer.synthetic
  = (Extracted Sample.expected_header Sample.no_optional
       Sample.expected_tables, mkfile 144 [])
  /\ u16 (num_poi_tags Sample.expected_tables)
  /\ Forall zoom_interval_in_range (zoom_intervals Sample.expected_tables).
Proof.
  split; [exact decode_synthetic|].
  destruct (decode_ranges _ _ _ _ _ decode_synthetic)
    as (_ & _ & _ & Hp & _ & _ & Hz).
  split; [exact Hp | exact Hz].
Defined.

(** X6.  A file that decodes begins with the marker and has at least 69
    bytes; 69 is reached, by a file with an empty projection, flags 0 and
    three empty tables.  So every file shorter than 69 bytes fails. *)
Theorem decode_needs_69_bytes :
  (forall content h o t f_end,
      decode content = (Extracted h o t, f_end) ->
      firstn 20 content = MAGIC_BYTE /\ 69 <= len content)
  /\ (len smallest_file = 69
      /\ exists h o t, decode smallest_file = (Extracted h o t, mkfile 69 [])).
Proof.
  split.
  - intros content h o t f_end H.
    pose proof (decode_pos_le content) as Hle.
    rewrite H in Hle. cbn [snd] in Hle.
    apply decode_extracted in H as (f_h & f_o & Hh & Ho & Ht).
    apply read_header_returned in Hh as (Hmagic & _ & Ph).
    apply read_optional_returned in Ho as (_ & _ & Po).
    apply read_tables_returned in Ht as (_ & Pt).
    cbn [pos rest] in *. split; [exact Hmagic | lia].
  - split; [reflexivity|]. do 3 eexists. vm_compute. reflexivity.
Qed.

(** ** Writing a file and reading it back *)

Lemma len_app {A : Type} (l r : list A) : len (l ++ r) = len l + len r.
Proof. unfold len. rewrite length_app. lia. Qed.

Lemma reads_ret {A : Type} (a : A) : reads (ret a) [] a.
Proof.
  intros p tail. unfold ret. cbn [app]. change (len (@nil byte)) with 0.
  now rewrite Z.add_0_r.
Qed.

Lemma reads_bind {A B : Type} (c : M A) (k : A -> M B) b1 b2 a r :
  reads c b1 a -> reads (k a) b2 r -> reads (bind c k) (b1 ++ b2) r.
Proof.
  intros Hc Hk p tail. rewrite <- app_assoc.
  rewrite (bind_step _ _ _ _ _ (Hc p (b2 ++ tail))), Hk.
  unfold len. rewrite length_app. do 2 f_equal. lia.
Qed.

Lemma len_encode_fixed (width : nat) (v : Z) :
  len (Writer.encode_fixed width v) = Z.of_nat width.
Proof.
  induction width as [|w IH]; [reflexivity|].
  cbn [Writer.encode_fixed]. rewrite len_cons, IH. lia.
Qed.

Lemma be_value_cons (b : byte) (bs : list byte) :
  be_value (b :: bs) = byte_val b * 256 ^ len bs + be_value bs.
Proof.
  unfold be_value. cbn [fold_left]. rewrite Z.mul_0_l, Z.add_0_l.
  generalize (byte_val b) as acc. 
  induction bs as [|x bs IH]; intros acc; cbn [fold_left].
  - change (len (@nil byte)) with 0. cbn. lia.
  - rewrite IH, (IH (0 * 256 + byte_val x)), len_cons.
    rewrite Z.pow_add_r by (pose proof (len_nonneg bs); lia).
    ring.
Qed.

Lemma be_value_encode_fixed (width : nat) (v : Z) :
  0 <= v ->
  be_value (Writer.encode_fixed width v) = v mod 256 ^ Z.of_nat width.
Proof.
  intros Hv. induction width as [|w IH].
  - cbn. now rewrite Z.mod_1_r.
  - cbn [Writer.encode_fixed].
    rewrite be_value_cons, IH, len_encode_fixed.
    assert (Hp : 0 < 256 ^ Z.of_nat w) by (apply Z.pow_pos_nonneg; lia).
    rewrite byte_val_byte_of by (apply Z.mod_pos_bound; lia).
    replace (Z.of_nat (S w)) with (Z.of_nat w + 1) by lia.
    rewrite Z.pow_add_r by lia. change (256 ^ 1) with 256.
    rewrite Z.rem_mul_r by lia. ring.
Qed.

(** A fixed-width unsigned field written most significant byte first is
    read back as it was, from exactly its [width] bytes. *)
Lemma reads_unsigned (width : nat) (v : Z) :
  0 <= v < 256 ^ Z.of_nat width ->
  reads (bind (lift (read (Z.of_nat width)))
           (fun bs => eval (unpack_unsigned (Z.of_nat width) bs)))
    (Writer.encode_fixed width v) v.
Proof.
  intros Hv p tail. unfold bind, lift, read, eval, unpack_unsigned.
  destruct (Z.ltb_spec (Z.of_nat width) 0); [lia|]. cbn [rest pos].
  rewrite <- (len_encode_fixed width v) at 1. rewrite take_exact.
  rewrite len_encode_fixed, Z.eqb_refl.
  rewrite be_value_encode_fixed, Z.mod_small by lia. reflexivity.
Qed.

Lemma reads_H (v : Z) : u16 v -> reads read_H (Writer.encode_fixed 2 v) v.
Proof. intros H. now apply (reads_unsigned 2). Qed.

Lemma reads_I (v : Z) : u32 v -> reads read_I (Writer.encode_fixed 4 v) v.
Proof. intros H. now apply (reads_unsigned 4). Qed.

Lemma reads_Q (v : Z) : u64 v -> reads read_Q (Writer.encode_fixed 8 v) v.
Proof. intros H. now apply (reads_unsigned 8). Qed.

Lemma reads_B (v : Z) : u8 v -> reads read_B (Writer.encode_fixed 1 v) v.
Proof.
  intros Hv p tail. unfold read_B, bind, lift, read, eval.
  destruct (Z.ltb_spec 1 0); [lia|]. cbn [rest pos].
  change 1 with (len (Writer.encode_fixed 1 v)) at 1. rewrite take_exact.
  cbn [Writer.encode_fixed index0]. change (256 ^ Z.of_nat 0) with 1.
  rewrite Z.div_1_r, Z.mod_small, byte_val_byte_of by exact Hv.
  reflexivity.
Qed.

Lemma reads_i (v : Z) : i32 v -> reads read_i (MapWriter.encode_i v) v.
Proof.
  intros Hv p tail. unfold read_i, bind, lift, read, eval, unpack_i,
    MapWriter.encode_i.
  destruct (Z.ltb_spec 4 0); [lia|]. cbn [rest pos].
  change 4 with (len (Writer.encode_fixed 4 (v mod 2 ^ 32))) at 1.
  rewrite take_exact, len_encode_fixed. change (Z.of_nat 4 =? 4) with true.
  cbv iota.
  assert (Hm : 0 <= v mod 2 ^ 32 < 2 ^ 32) by (apply Z.mod_pos_bound; lia).
  rewrite be_value_encode_fixed by lia.
  change (256 ^ Z.of_nat 4) with (2 ^ 32). rewrite Z.mod_mod by lia.
  unfold i32 in Hv.
  destruct (Z.ltb_spec (v mod 2 ^ 32) (2 ^ 31)) as [Hlt|Hge];
    do 2 f_equal.
  - destruct (Z.lt_ge_cases v 0) as [Hneg|Hpos'].
    + rewrite <- (Z.mod_add v 1) in Hlt by lia.
      rewrite Z.mod_small in Hlt by lia. lia.
    + now rewrite Z.mod_small by lia.
  - destruct (Z.lt_ge_cases v 0) as [Hneg|Hpos'].
    + rewrite <- (Z.mod_add v 1) by lia.
      rewrite Z.mod_small by lia. lia.
    + rewrite Z.mod_small in Hge by lia. lia.
Qed.

Lemma lenient_returned (payload : list byte) :
  utf8_decode ignore payload = Returned (lenient payload).
Proof.
  unfold lenient. now destruct (utf8_decode_ignore_returns payload) as [s ->].
Qed.

Lemma reads_payload (payload : list byte) :
  reads read_utf8_string (MapWriter.encode_payload payload) (lenient payload).
Proof.
  intros p tail. unfold MapWriter.encode_payload.
  rewrite <- app_assoc, read_utf8_string_cases.
  rewrite read_variable_byte_encode by apply len_nonneg.
  rewrite len_app.
  destruct payload as [|b payload].
  - change (len (@nil byte)) with 0. cbn [Z.eqb app].
    now rewrite Z.add_0_r.
  - pose proof (len_nonneg payload). pose proof (len_cons b payload).
    destruct (Z.eqb_spec (len (b :: payload)) 0); [lia|].
    unfold read. cbn [pos rest].
    destruct (Z.ltb_spec (len (b :: payload)) 0); [lia|].
    rewrite take_exact, lenient_returned. do 2 f_equal. lia.
Qed.

Lemma reads_zoom_interval (z : ZoomInterval) :
  zoom_interval_in_range z ->
  reads read_zoom_interval (MapWriter.encode_zoom_interval z) z.
Proof.
  intros (H1 & H2 & H3 & H4 & H5).
  unfold read_zoom_interval, MapWriter.encode_zoom_interval.
  apply reads_bind with (a := base_zoom z); [now apply reads_B|].
  apply reads_bind with (a := min_zoom z); [now apply reads_B|].
  apply reads_bind with (a := max_zoom z); [now apply reads_B|].
  apply reads_bind with (a := subfile_start z); [now apply reads_Q|].
  rewrite <- (app_nil_r (Writer.encode_fixed 8 (subfile_size z))).
  apply reads_bind with (a := subfile_size z); [now apply reads_Q|].
  destruct z. apply reads_ret.
Qed.

(** A loop over entries written one after the other reads them all. *)
Lemma reads_for_range {A B : Type} (body : M B) (enc : A -> list byte)
    (dec : A -> B) (P : A -> Prop) :
  (forall x, P x -> reads body (enc x) (dec x)) ->
  forall xs acc,
    Forall P xs ->
    reads (for_range (List.length xs) body acc)
      (flat_map enc xs) (acc ++ map dec xs).
Proof.
  intros Hbody. induction xs as [|x xs IH]; intros acc Hxs.
  - cbn [List.length for_range flat_map map]. rewrite app_nil_r.
    apply reads_ret.
  - inversion Hxs as [|? ? Hx Hxs']; subst.
    cbn [List.length for_range flat_map map].
    apply reads_bind with (a := dec x); [now apply Hbody|].
    replace (acc ++ dec x :: map dec xs) with ((acc ++ [dec x]) ++ map dec xs)
      by (now rewrite <- app_assoc).
    now apply IH.
Qed.

Lemma reads_magic : reads (lift (read (len MAGIC_BYTE))) MAGIC_BYTE MAGIC_BYTE.
Proof.
  intros p tail. unfold lift, read. cbn [rest pos].
  destruct (Z.ltb_spec (len MAGIC_BYTE) 0);
    [pose proof (len_nonneg MAGIC_BYTE); lia|].
  now rewrite take_exact.
Qed.

Lemma option_map_same {A : Type} (o : option A) :
  option_map (fun a => a) o = o.
Proof. now destruct o. Qed.

Lemma reads_when {A B : Type} (body : M B) (enc : A -> list byte)
    (dec : A -> B) (o : option A) (cond : bool) :
  cond = is_some o ->
  (forall a, o = Some a -> reads body (enc a) (dec a)) ->
  reads (when cond body) (MapWriter.encode_option enc o) (option_map dec o).
Proof.
  intros -> Hbody. unfold when. destruct o as [a|]; cbn.
  - rewrite <- (app_nil_r (enc a)).
    apply reads_bind with (a := dec a); [now apply Hbody | apply reads_ret].
  - apply reads_ret.
Qed.

(** The flags byte of a source has the bit of each optional field it
    holds, and fits in a byte. *)
Lemma flags_of_bits (s : MapWriter.source) :
  flag (MapWriter.flags_of s) 0x40
  = is_some (MapWriter.s_start_position s)
  /\ flag (MapWriter.flags_of s) 0x20
     = is_some (MapWriter.s_start_zoom s)
  /\ flag (MapWriter.flags_of s) 0x10
     = is_some (MapWriter.s_language s)
  /\ flag (MapWriter.flags_of s) 0x08
     = is_some (MapWriter.s_comment s)
  /\ flag (MapWriter.flags_of s) 0x04
     = is_some (MapWriter.s_created_by s)
  /\ u8 (MapWriter.flags_of s).
Proof.
  unfold MapWriter.flags_of, u8.
  destruct (MapWriter.s_debug s), (MapWriter.s_start_position s),
    (MapWriter.s_start_zoom s), (MapWriter.s_language s),
    (MapWriter.s_comment s), (MapWriter.s_created_by s);
    cbn; repeat split; lia.
Qed.

Lemma reads_header (s : MapWriter.source) :
  MapWriter.in_range s ->
  reads read_header (MapWriter.encode_header s)
    (Some (MapWriter.header_of s)).
Proof.
  intros (H1 & H2 & H3 & H4 & H5 & H6 & H7 & H8 & H9 & _).
  destruct (flags_of_bits s) as (_ & _ & _ & _ & _ & Hf).
  unfold read_header, MapWriter.encode_header.
  apply reads_bind with (a := MAGIC_BYTE); [exact reads_magic|].
  change (bytes_eqb MAGIC_BYTE MAGIC_BYTE) with true. cbn [negb].
  apply reads_bind with (a := MapWriter.s_header_size s);
    [now apply reads_I|].
  apply reads_bind with (a := MapWriter.s_file_version s);
    [now apply reads_I|].
  apply reads_bind with (a := MapWriter.s_file_size s); [now apply reads_Q|].
  apply reads_bind with (a := MapWriter.s_date_created s);
    [now apply reads_Q|].
  apply reads_bind with (a := MapWriter.s_min_lat s); [now apply reads_i|].
  apply reads_bind with (a := MapWriter.s_min_lon s); [now apply reads_i|].
  apply reads_bind with (a := MapWriter.s_max_lat s); [now apply reads_i|].
  apply reads_bind with (a := MapWriter.s_max_lon s); [now apply reads_i|].
  apply reads_bind with (a := MapWriter.s_tile_size s); [now apply reads_H|].
  apply reads_bind with (a := lenient (MapWriter.s_projection s));
    [apply reads_payload|].
  rewrite <- (app_nil_r (Writer.encode_fixed 1 (MapWriter.flags_of s))).
  apply reads_bind with (a := MapWriter.flags_of s); [now apply reads_B|].
  apply reads_ret.
Qed.

Lemma reads_optional (s : MapWriter.source) :
  MapWriter.in_range s ->
  reads (read_optional (MapWriter.flags_of s)) (MapWriter.encode_optional s)
    (MapWriter.optional_of s).
Proof.
  intros (_ & _ & _ & _ & _ & _ & _ & _ & _ & Hsp & Hsz & _).
  destruct (flags_of_bits s) as (F1 & F2 & F3 & F4 & F5 & _).
  unfold read_optional, MapWriter.encode_optional.
  apply reads_bind with (a := MapWriter.s_start_position s).
  { rewrite <- (option_map_same (MapWriter.s_start_position s)) at 2.
    apply reads_when; [exact F1|].
    intros [lat lon] E. rewrite E in Hsp. destruct Hsp as [Hlat Hlon].
    apply reads_bind with (a := lat); [now apply reads_i|].
    rewrite <- (app_nil_r (MapWriter.encode_i lon)).
    apply reads_bind with (a := lon); [now apply reads_i | apply reads_ret]. }
  apply reads_bind with (a := MapWriter.s_start_zoom s).
  { rewrite <- (option_map_same (MapWriter.s_start_zoom s)) at 2.
    apply reads_when; [exact F2|].
    intros z E. rewrite E in Hsz. now apply reads_B. }
  apply reads_bind with (a := option_map lenient (MapWriter.s_language s)).
  { apply reads_when; [exact F3 | intros; apply reads_payload]. }
  apply reads_bind with (a := option_map lenient (MapWriter.s_comment s)).
  { apply reads_when; [exact F4 | intros; apply reads_payload]. }
  rewrite <- (app_nil_r (MapWriter.encode_option _ (MapWriter.s_created_by s))).
  apply reads_bind with (a := option_map lenient (MapWriter.s_created_by s)).
  { apply reads_when; [exact F5 | intros; apply reads_payload]. }
  apply reads_ret.
Qed.

Lemma Forall_True {A : Type} (l : list A) : Forall (fun _ => True) l.
Proof. induction l; constructor; auto. Qed.

(** The three tables written one after the other, each count followed by
    its entries, are read back entry for entry. *)
Lemma reads_tables (s : MapWriter.source) :
  MapWriter.in_range s ->
  reads read_tables (MapWriter.encode_tables s) (MapWriter.tables_of s).
Proof.
  intros (_ & _ & _ & _ & _ & _ & _ & _ & _ & _ & _ & Hp & Hw & Hz & Hzs).
  unfold read_tables, MapWriter.encode_tables.
  apply reads_bind with (a := len (MapWriter.s_poi_tags s));
    [now apply reads_H|].
  unfold len at 1. rewrite Nat2Z.id.
  apply reads_bind with (a := map lenient (MapWriter.s_poi_tags s)).
  { apply (reads_for_range read_utf8_string MapWriter.encode_payload lenient
             (fun _ => True)); [intros; apply reads_payload|].
    apply Forall_True. }
  apply reads_bind with (a := len (MapWriter.s_way_tags s));
    [now apply reads_H|].
  unfold len at 1. rewrite Nat2Z.id.
  apply reads_bind with (a := map lenient (MapWriter.s_way_tags s)).
  { apply (reads_for_range read_utf8_string MapWriter.encode_payload lenient
             (fun _ => True)); [intros; apply reads_payload|].
    apply Forall_True. }
  apply reads_bind with (a := len (MapWriter.s_zoom_intervals s));
    [now apply reads_B|].
  unfold len at 1. rewrite Nat2Z.id.
  rewrite <- (app_nil_r (flat_map _ (MapWriter.s_zoom_intervals s))).
  apply reads_bind with (a := MapWriter.s_zoom_intervals s).
  { rewrite <- (map_id (MapWriter.s_zoom_intervals s)) at 3.
    apply (reads_for_range read_zoom_interval MapWriter.encode_zoom_interval
             (fun z => z) zoom_interval_in_range);
      [exact reads_zoom_interval | exact Hzs]. }
  apply reads_ret.
Qed.

(** X9.  Writing a file and reading it back.  For every source whose
    numbers fit their fields, with at most 65535 tags in each table and at
    most 255 zoom intervals, decoding the encoded file consumes all of it
    and returns the header, the optional fields and the three tables that
    were written, strings being the lenient decoding of their payload
    bytes; [extract_tags] returns [True] and stores the tables. *)
Theorem decode_encode (s : MapWriter.source) :
  MapWriter.in_range s ->
  decode (MapWriter.encode s)
  = (Extracted (MapWriter.header_of s) (MapWriter.optional_of s)
       (MapWriter.tables_of s),
     mkfile (len (MapWriter.encode s)) [])
  /\ forall fs self,
       fs (filepath self) = Some (MapWriter.encode s) ->
       extract_tags fs self
       = (true,
          {| filepath := filepath self;
             tags := TagsDict (map lenient (MapWriter.s_poi_tags s))
                              (map lenient (MapWriter.s_way_tags s))
                              (MapWriter.s_zoom_intervals s) |}).
Proof.
  intros Hs.
  assert (Hbody : reads extract_tags_body (MapWriter.encode s)
                    (Some (MapWriter.header_of s, MapWriter.optional_of s,
                           MapWriter.tables_of s))).
  { unfold extract_tags_body, MapWriter.encode.
    apply reads_bind with (a := Some (MapWriter.header_of s));
      [now apply reads_header|].
    apply reads_bind with (a := MapWriter.optional_of s);
      [now apply reads_optional|].
    rewrite <- (app_nil_r (MapWriter.encode_tables s)).
    apply reads_bind with (a := MapWriter.tables_of s);
      [now apply reads_tables | apply reads_ret]. }
  assert (Hd : decode (MapWriter.encode s)
               = (Extracted (MapWriter.header_of s) (MapWriter.optional_of s)
                    (MapWriter.tables_of s),
                  mkfile (len (MapWriter.encode s)) [])).
  { unfold decode. specialize (Hbody 0 []). rewrite app_nil_r in Hbody.
    now rewrite Hbody. }
  split; [exact Hd|].
  intros fs self Hfs. unfold extract_tags. now rewrite Hfs, Hd.
Qed.

(* ------------------------------------------------------------------ *)
(** * Decoded strings and the text export *)

(** ** Decoded strings are Unicode scalar values *)

Lemma check_scalar_cp2 : forallb scalar_cp2_row all_bytes = true.
Proof. vm_compute. reflexivity. Qed.

Lemma check_scalar_cp3 : forallb scalar_cp3_row all_bytes = true.
Proof. vm_compute. reflexivity. Qed.

Lemma check_scalar_cp4 : forallb scalar_cp4_row all_bytes = true.
Proof. vm_compute. reflexivity. Qed.

Lemma cp2_scalar (b b2 : byte) :
  (byte_val b <? 0xC2) = false -> (byte_val b <? 0xE0) = true ->
  is_scalar (cp2 (byte_val b) (byte_val b2)) = true.
Proof.
  intros Hlo Hhi.
  pose proof (forallb_all_bytes scalar_cp2_row b check_scalar_cp2) as H.
  apply (if_then_true _ _ (start_in_range _ _ _ Hlo Hhi)) in H.
  exact (forallb_all_bytes (scalar_cp2_cell b) b2 H).
Qed.

Lemma cp3_scalar (b b2 b3 : byte) :
  (byte_val b <? 0xE0) = false -> (byte_val b <? 0xF0) = true ->
  bad_second3 (byte_val b) (byte_val b2) = false ->
  is_scalar (cp3 (byte_val b) (byte_val b2) (byte_val b3)) = true.
Proof.
  intros Hlo Hhi Hsecond.
  pose proof (forallb_all_bytes scalar_cp3_row b check_scalar_cp3) as H.
  apply (if_then_true _ _ (start_in_range _ _ _ Hlo Hhi)) in H.
  apply (forallb_all_bytes (scalar_cp3_mid b) b2) in H.
  apply (if_else_true _ _ Hsecond) in H.
  exact (forallb_all_bytes (scalar_cp3_cell b b2) b3 H).
Qed.

Lemma cp4_shiftr (b b2 b3 b4 : byte) :
  Z.shiftr (cp4 (byte_val b) (byte_val b2) (byte_val b3) (byte_val b4)) 16
  = cp4_high (byte_val b) (byte_val b2).
Proof.
  unfold cp4, cp4_high. rewrite !Z.shiftr_lor.
  now rewrite third_byte_below_16, fourth_byte_below_16, !Z.lor_0_r.
Qed.

Lemma cp4_scalar (b b2 b3 b4 : byte) :
  (byte_val b <? 0xF0) = false -> (byte_val b <? 0xF5) = true ->
  bad_second4 (byte_val b) (byte_val b2) = false ->
  is_scalar (cp4 (byte_val b) (byte_val b2) (byte_val b3) (byte_val b4))
  = true.
Proof.
  intros Hlo Hhi Hsecond.
  pose proof (forallb_all_bytes scalar_cp4_row b check_scalar_cp4) as H.
  apply (if_then_true _ _ (start_in_range _ _ _ Hlo Hhi)) in H.
  apply (forallb_all_bytes (scalar_cp4_cell b) b2) in H.
  apply (if_else_true _ _ Hsecond) in H.
  rewrite <- (cp4_shiftr b b2 b3 b4) in H.
  apply andb_true_iff in H as [H1 H2].
  apply Z.leb_le in H1, H2.
  rewrite Z.shiftr_div_pow2 in H1, H2 by lia.
  change (2 ^ 16) with 65536 in *.
  set (x := cp4 _ _ _ _) in *.
  assert (65536 <= x < 1114112).
  { pose proof (Z.div_mod x 65536 ltac:(lia)).
    pose proof (Z.mod_pos_bound x 65536 ltac:(lia)). lia. }
  unfold is_scalar. apply orb_true_iff. right.
  apply andb_true_iff. split; [apply Z.leb_le | apply Z.leb_le]; lia.
Qed.

Lemma ascii_scalar (b : byte) :
  (byte_val b <? 0x80) = true -> is_scalar (byte_val b) = true.
Proof.
  intros H. apply Z.ltb_lt in H. pose proof (byte_val_range b).
  unfold is_scalar. apply orb_true_iff. left.
  apply andb_true_iff. split; [apply Z.leb_le | apply Z.ltb_lt]; lia.
Qed.

Lemma utf8_decode_ignore_scalar (bs : list byte) :
  forall s,
    utf8_decode ignore bs = Returned s -> forallb is_scalar s = true.
Proof.
  functional induction (utf8_decode ignore bs); intros s Hs;
    cbn [on_error] in *.
  all: try (injection Hs as <-; reflexivity).
  all: try (now eauto).
  all: apply emit_returned in Hs as (s' & Hs' & ->).
  all: cbn [forallb]; apply andb_true_iff; split; [|now eauto].
  - now apply ascii_scalar.
  - now apply cp2_scalar.
  - now apply cp3_scalar.
  - now apply cp4_scalar.
Qed.

Lemma read_utf8_string_only_scalars (f f' : file) (s : str) :
  read_utf8_string f = (Returned s, f') -> forallb is_scalar s = true.
Proof.
  rewrite read_utf8_string_cases.
  destruct (read_variable_byte f) as [[n|] f1].
  - destruct (n =? 0); [now intros [= <- _]|].
    destruct (read n f1) as [bs f2]. intros [= H _].
    now apply utf8_decode_ignore_scalar in H.
  - now intros [= <- _].
Qed.

(** X10.  Every string [read_utf8_string] returns is made of Unicode
    scalar values: no surrogate, nothing above U+10FFFF, whatever the bytes
    were. *)
Theorem read_utf8_string_scalar (f f' : file) (s : str) :
  read_utf8_string f = (Returned s, f') -> forallb is_scalar s = true.
Proof.
  rewrite read_utf8_string_cases.
  destruct (read_variable_byte f) as [[n|] f1].
  - destruct (n =? 0); [now intros [= <- _]|].
    destruct (read n f1) as [bs f2]. intros [= H _].
    now apply utf8_decode_ignore_scalar in H.
  - now intros [= <- _].
Qed.

Lemma read_utf8_string_scalar_witness :
  read_utf8_string (mkfile 0 [x04; xed; xa0; x80; x41])
  = (Returned [0x41], mkfile 5 [])
  /\ forallb is_scalar [0x41] = true.
Proof.
  assert (H : read_utf8_string (mkfile 0 [x04; xed; xa0; x80; x41])
              = (Returned [0x41], mkfile 5 [])) by reflexivity.
  split; [exact H | exact (read_utf8_string_scalar _ _ _ H)].
Defined.

Lemma decode_tags_scalar (content : list byte) h o t f_end :
  decode content = (Extracted h o t, f_end) ->
  all_scalar (poi_tags t) /\ all_scalar (way_tags t).
Proof.
  intros H. apply decode_extracted in H as (f_h & f_o & _ & _ & H).
  unfold read_tables in H.
  apply bind_returned in H as (n1 & g1 & Hn1 & H).
  apply bind_returned in H as (l1 & f1 & Hl1 & H).
  apply bind_returned in H as (n2 & g2 & Hn2 & H).
  apply bind_returned in H as (l2 & f2 & Hl2 & H).
  apply bind_returned in H as (n3 & g3 & Hn3 & H).
  apply bind_returned in H as (l3 & f3 & Hl3 & H).
  injection H as <- <-. cbn [poi_tags way_tags].
  split.
  - eapply for_range_Forall; [|constructor|exact Hl1].
    intros g s g'. apply read_utf8_string_only_scalars.
  - eapply for_range_Forall; [|constructor|exact Hl2].
    intros g s g'. apply read_utf8_string_only_scalars.
Qed.

(** ** export_tags_to_file *)

Lemma digits_scalar (d : Decimal.uint) :
  forallb is_scalar (str_of_string (NilEmpty.string_of_uint d)) = true.
Proof.
  induction d; cbn [NilEmpty.string_of_uint str_of_string
                    list_ascii_of_string map forallb];
    try reflexivity; rewrite andb_true_iff; (split; [reflexivity|exact IHd]).
Qed.

Lemma decimal_scalar (i : nat) : forallb is_scalar (decimal i) = true.
Proof.
  unfold decimal, NilZero.string_of_uint.
  destruct (Nat.to_uint i) eqn:E; try apply digits_scalar. reflexivity.
Qed.

Lemma tag_line_scalar (i : nat) (tag : str) :
  forallb is_scalar tag = true -> forallb is_scalar (tag_line i tag) = true.
Proof.
  intros H. unfold tag_line.
  rewrite !forallb_app, decimal_scalar, H. reflexivity.
Qed.

Lemma write_scalar (s t : str) :
  forallb is_scalar s = true ->
  TextFile.write s t = (TextFile.Done tt, t ++ s).
Proof. unfold TextFile.write. now intros ->. Qed.

Lemma write_tag_lines_done (tags : list str) :
  all_scalar tags ->
  forall i t,
    write_tag_lines i tags t
    = (TextFile.Done tt,
       t ++ List.concat (map (fun '(i, tag) => tag_line i tag)
                           (combine (seq i (List.length tags)) tags))).
Proof.
  induction 1 as [|tag tags Htag _ IH]; intros i t;
    cbn [write_tag_lines List.length seq combine map List.concat].
  - unfold TextFile.done. now rewrite app_nil_r.
  - unfold TextFile.then_.
    rewrite write_scalar by now apply tag_line_scalar.
    rewrite IH. now rewrite <- app_assoc.
Qed.

(** X11.  Exporting from a reader that holds no extracted tags (the list
    [[]] of [__init__], as after a failed [extract_tags]) returns [False];
    if the output file could be opened it is left holding the first heading
    and nothing else. *)
Theorem export_without_tags (self : MapFileReader) :
  tags self = EmptyList ->
  export_tags_to_file self true
  = (false, Some (str_of_string "=== POI Tags ===" ++ newline))
  /\ export_tags_to_file self false = (false, None).
Proof.
  intros H. unfold export_tags_to_file, export_body. now rewrite H.
Qed.

Lemma export_without_tags_witness :
  tags (init "europe.map") = EmptyList
  /\ export_tags_to_file (init "europe.map") true
     = (false, Some (str_of_string "=== POI Tags ===" ++ newline))
  /\ export_tags_to_file (init "europe.map") false = (false, None).
Proof.
  split; [reflexivity | exact (export_without_tags (init "europe.map") eq_refl)].
Defined.

Lemma export_dict (self : MapFileReader) poi way zi :
  tags self = TagsDict poi way zi ->
  all_scalar poi -> all_scalar way ->
  export_tags_to_file self true = (true, Some (export_text poi way)).
Proof.
  intros H Hp Hw. unfold export_tags_to_file, export_body, TextFile.then_.
  rewrite write_scalar by reflexivity. rewrite H. cbn [tags_get TextFile.done].
  rewrite (write_tag_lines_done poi Hp).
  rewrite write_scalar by reflexivity.
  rewrite (write_tag_lines_done way Hw).
  unfold export_text. cbn [app]. now rewrite <- !app_assoc.
Qed.

Lemma extract_tags_true (fs : filesystem) (self self' : MapFileReader) :
  extract_tags fs self = (true, self') ->
  exists content h o t f_end,
    fs (filepath self) = Some content
    /\ decode content = (Extracted h o t, f_end)
    /\ self' = {| filepath := filepath self;
                  tags := TagsDict (poi_tags t) (way_tags t)
                                   (zoom_intervals t) |}.
Proof.
  unfold extract_tags.
  destruct (fs (filepath self)) as [content|]; [|discriminate].
  destruct (decode content) as [[h o t| |e] f_end] eqn:E; cbn [fst];
    try discriminate.
  intros [= <-]. now exists content, h, o, t, f_end.
Qed.

Lemma export_of_extracted (fs : filesystem) (self self' : MapFileReader) :
  extract_tags fs self = (true, self') ->
  exists poi way zi,
    tags self' = TagsDict poi way zi
    /\ export_tags_to_file self' true = (true, Some (export_text poi way)).
Proof.
  intros H.
  apply extract_tags_true in H as (content & h & o & t & f_end & _ & Hd & ->).
  exists (poi_tags t), (way_tags t), (zoom_intervals t).
  split; [reflexivity|].
  apply decode_tags_scalar in Hd as [Hp Hw].
  now apply (export_dict _ _ _ (zoom_intervals t)).
Qed.

(** X12.  After a successful [extract_tags], the export never fails on
    the text: every tag can be written, so [export_tags_to_file] returns
    [True] whenever the output file can be opened, and the file holds the
    two headings and one numbered line per tag, POI tags first. *)
Theorem export_after_extract (fs : filesystem) (self self' : MapFileReader) :
  extract_tags fs self = (true, self') ->
  exists poi way zi,
    tags self' = TagsDict poi way zi
    /\ export_tags_to_file self' true = (true, Some (export_text poi way)).
Proof.
  intros H.
  apply extract_tags_true in H as (content & h & o & t & f_end & _ & Hd & ->).
  exists (poi_tags t), (way_tags t), (zoom_intervals t).
  split; [reflexivity|].
  apply decode_tags_scalar in Hd as [Hp Hw].
  now apply (export_dict _ _ _ (zoom_intervals t)).
Qed.

Lemma export_after_extract_witness :
  extract_tags (Sample.fs_of Writer.synthetic) (init "synthetic.map")
  = (true,
     {| filepath := "synthetic.map";
        tags := TagsDict (poi_tags Sample.expected_tables)
                         (way_tags Sample.expected_tables)
                         (zoom_intervals Sample.expected_tables) |})
  /\ exists poi way zi,
       tags {| filepath := "synthetic.map";
               tags := TagsDict (poi_tags Sample.expected_tables)
                                (way_tags Sample.expected_tables)
                                (zoom_intervals Sample.expected_tables) |}
       = TagsDict poi way zi
       /\ export_tags_to_file
            {| filepath := "synthetic.map";
               tags := TagsDict (poi_tags Sample.expected_tables)
                                (way_tags Sample.expected_tables)
                                (zoom_intervals Sample.expected_tables) |}
            true
          = (true, Some (export_text poi way)).
Proof.
  assert (H : extract_tags (Sample.fs_of Writer.synthetic)
                (init "synthetic.map")
              = (true,
                 {| filepath := "synthetic.map";
                    tags := TagsDict (poi_tags Sample.expected_tables)
                                     (way_tags Sample.expected_tables)
                                     (zoom_intervals Sample.expected_tables) |}))
    by (vm_compute; reflexivity).
  split; [exact H | exact (export_after_extract _ _ _ H)].
Defined.

(** X13.  [process_single_file] returns what [extract_tags] returns.  The
    export is attempted only after a successful extraction, and its outcome
    does not change the result: with an output file that cannot be opened
    the function still returns [True], and nothing is written. *)
Theorem process_single_file_result (fs : filesystem) (map_file : string) :
  (forall output,
      fst (process_single_file fs map_file output)
      = fst (extract_tags fs (init map_file)))
  /\ (fst (extract_tags fs (init map_file)) = false ->
      forall output, process_single_file fs map_file output = (false, None))
  /\ (fst (extract_tags fs (init map_file)) = true ->
      process_single_file fs map_file (Some false) = (true, None)
      /\ exists poi way zi,
           tags (snd (extract_tags fs (init map_file))) = TagsDict poi way zi
           /\ process_single_file fs map_file (Some true)
              = (true, Some (export_text poi way))).
Proof.
  unfold process_single_file.
  destruct (extract_tags fs (init map_file)) as [[|] r] eqn:E; cbn [fst snd].
  - split; [now intros [[|]|] | split; [discriminate|]]. intros _.
    split; [reflexivity|].
    destruct (export_of_extracted _ _ _ E) as (poi & way & zi & Ht & He).
    exists poi, way, zi. now rewrite He.
  - split; [reflexivity | split; [reflexivity | discriminate]].
Qed.

(** ** process_folder *)

Lemma str_eqb_eq (a b : str) : str_eqb a b = true <-> a = b.
Proof.
  unfold str_eqb. destruct (list_eq_dec Z.eq_dec a b); split;
    auto; discriminate.
Qed.

Lemma existsb_str_eqb (a : str) (s : list str) :
  existsb (str_eqb a) s = true <-> In a s.
Proof.
  rewrite existsb_exists. split.
  - intros (x & Hx & Heq). apply str_eqb_eq in Heq. now subst.
  - intros H. exists a. split; [exact H | now apply str_eqb_eq].
Qed.

Lemma set_add_spec (s : list str) (a x : str) :
  In x (set_add s a) <-> In x s \/ x = a.
Proof.
  unfold set_add. destruct (existsb (str_eqb a) s) eqn:E.
  - apply existsb_str_eqb in E. split; [auto|]. intros [H| ->]; auto.
  - rewrite in_app_iff. cbn. intuition auto.
Qed.

Lemma set_add_NoDup (s : list str) (a : str) :
  NoDup s -> NoDup (set_add s a).
Proof.
  intros H. unfold set_add. destruct (existsb (str_eqb a) s) eqn:E; [exact H|].
  assert (~ In a s).
  { intros Hin. apply existsb_str_eqb in Hin. congruence. }
  apply NoDup_app; [exact H | constructor; [intros []|constructor] |].
  intros x Hx [<-|[]]. contradiction.
Qed.

Lemma set_update_spec (l : list str) :
  forall s x, In x (set_update s l) <-> In x s \/ In x l.
Proof.
  unfold set_update. induction l as [|a l IH]; intros s x; cbn [fold_left].
  - cbn. intuition auto.
  - rewrite IH, set_add_spec. cbn. intuition auto.
Qed.

Lemma set_update_NoDup (l : list str) :
  forall s, NoDup s -> NoDup (set_update s l).
Proof.
  unfold set_update. induction l as [|a l IH]; intros s H; cbn [fold_left].
  - exact H.
  - now apply IH, set_add_NoDup.
Qed.

(** Two strings neither of which is before the other are equal. *)
Lemma str_ltb_total (a : str) :
  forall b, str_ltb a b = false -> str_ltb b a = false -> a = b.
Proof.
  induction a as [|x a IH]; intros [|y b]; cbn [str_ltb];
    try discriminate; [reflexivity|].
  destruct (Z.ltb_spec x y), (Z.ltb_spec y x); try discriminate; try lia.
  intros H1 H2. assert (x = y) by lia. subst. f_equal. now apply IH.
Qed.

Lemma insert_sorted_In (a x : str) (l : list str) :
  In x (insert_sorted a l) <-> x = a \/ In x l.
Proof.
  induction l as [|b l IH]; cbn [insert_sorted].
  - cbn. intuition auto.
  - destruct (str_ltb a b); cbn; [intuition auto|].
    rewrite IH. intuition auto.
Qed.

Lemma sorted_In (x : str) (l : list str) : In x (sorted l) <-> In x l.
Proof.
  induction l as [|a l IH]; cbn [sorted]; [reflexivity|].
  rewrite insert_sorted_In, IH. cbn. intuition auto.
Qed.

Lemma insert_sorted_Sorted (a : str) (l : list str) :
  ~ In a l -> Sorted str_lt l -> Sorted str_lt (insert_sorted a l).
Proof.
  intros Hnotin Hs. induction Hs as [|b l Hs IH Hhd]; cbn [insert_sorted].
  - repeat constructor.
  - destruct (str_ltb a b) eqn:Hab.
    + constructor; [now constructor | now constructor].
    + assert (Hba : str_lt b a).
      { unfold str_lt. destruct (str_ltb b a) eqn:E; [reflexivity|].
        exfalso. apply Hnotin. left. symmetry. now apply str_ltb_total. }
      constructor.
      * apply IH. intros H. apply Hnotin. now right.
      * destruct l as [|c l]; cbn [insert_sorted]; [now constructor|].
        destruct (str_ltb a c); constructor; [exact Hba|].
        now inversion Hhd.
Qed.

Lemma sorted_Sorted (l : list str) : NoDup l -> Sorted str_lt (sorted l).
Proof.
  induction 1 as [|a l Hnotin _ IH]; cbn [sorted]; [constructor|].
  apply insert_sorted_Sorted; [|exact IH]. now rewrite sorted_In.
Qed.

Lemma extracts_true_dict (fs : filesystem) (p : string) :
  extracts fs p = true ->
  exists poi way zi,
    extract_tags fs (init p)
    = (true, {| filepath := p; tags := TagsDict poi way zi |})
    /\ tags_of_file fs p = TagsDict poi way zi
    /\ all_scalar poi /\ all_scalar way.
Proof.
  unfold extracts, tags_of_file.
  destruct (extract_tags fs (init p)) as [[|] r] eqn:E; [|discriminate].
  intros _.
  apply extract_tags_true in E as (content & h & o & t & f_end & _ & Hd & ->).
  apply decode_tags_scalar in Hd as [Hp Hw].
  exists (poi_tags t), (way_tags t), (zoom_intervals t). auto.
Qed.

(** The state of the loop after some more files. *)
Lemma process_files (fs : filesystem) (files : list string) :
  forall st,
    let st' := fold_left (process_one fs) files st in
    success_count st'
    = (success_count st + List.length (filter (extracts fs) files))%nat
    /\ failed_files st'
       = failed_files st ++ filter (fun p => negb (extracts fs p)) files
    /\ (NoDup (all_poi_tags st) -> NoDup (all_poi_tags st'))
    /\ (NoDup (all_way_tags st) -> NoDup (all_way_tags st'))
    /\ (forall tag,
          In tag (all_poi_tags st') <->
          In tag (all_poi_tags st)
          \/ exists p poi way zi,
               In p files /\ extracts fs p = true
               /\ tags_of_file fs p = TagsDict poi way zi /\ In tag poi)
    /\ (forall tag,
          In tag (all_way_tags st') <->
          In tag (all_way_tags st)
          \/ exists p poi way zi,
               In p files /\ extracts fs p = true
               /\ tags_of_file fs p = TagsDict poi way zi /\ In tag way).
Proof.
  induction files as [|p files IH]; intros st; cbn [fold_left filter].
  - cbn zeta. rewrite app_nil_r, Nat.add_0_r.
    repeat split; auto; try tauto.
    + intros [H|(q & _ & _ & _ & [] & _)]; exact H.
    + intros [H|(q & _ & _ & _ & [] & _)]; exact H.
  - specialize (IH (process_one fs st p)). cbn zeta in *.
    destruct IH as (Hc & Hf & Hnp & Hnw & Hp & Hw).
    rewrite Hc, Hf. clear Hc Hf.
    destruct (extracts fs p) eqn:E.
    + destruct (extracts_true_dict fs p E) as (poi & way & zi & He & Ht & _).
      unfold process_one in *. rewrite He in *.
      cbn [tags success_count failed_files all_poi_tags all_way_tags negb] in *.
      split; [cbn [List.length]; lia|]. split; [reflexivity|].
      split; [intros H; now apply Hnp, set_update_NoDup|].
      split; [intros H; now apply Hnw, set_update_NoDup|].
      split; intros tag.
      * rewrite Hp, set_update_spec. split.
        -- intros [[H|H]|(q & a & b & c & Hq & H)].
           ++ now left.
           ++ right. exists p, poi, way, zi. cbn. auto.
           ++ right. exists q, a, b, c. cbn. tauto.
        -- intros [H|(q & a & b & c & [<-|Hq] & Hx & Hy & Hz)].
           ++ auto.
           ++ rewrite Ht in Hy. injection Hy as <- <- <-. auto.
           ++ right. now exists q, a, b, c.
      * rewrite Hw, set_update_spec. split.
        -- intros [[H|H]|(q & a & b & c & Hq & H)].
           ++ now left.
           ++ right. exists p, poi, way, zi. cbn. auto.
           ++ right. exists q, a, b, c. cbn. tauto.
        -- intros [H|(q & a & b & c & [<-|Hq] & Hx & Hy & Hz)].
           ++ auto.
           ++ rewrite Ht in Hy. injection Hy as <- <- <-. auto.
           ++ right. now exists q, a, b, c.
    + assert (He : process_one fs st p
                   = {| success_count := success_count st;
                        failed_files := failed_files st ++ [p];
                        all_poi_tags := all_poi_tags st;
                        all_way_tags := all_way_tags st |}).
      { unfold process_one. unfold extracts in E.
        destruct (extract_tags fs (init p)) as [[|] r]; [discriminate|].
        reflexivity. }
      rewrite He in *.
      cbn [success_count failed_files all_poi_tags all_way_tags negb] in *.
      split; [reflexivity|]. split; [now rewrite <- app_assoc|].
      split; [exact Hnp|]. split; [exact Hnw|].
      split; intros tag.
      * rewrite Hp. split.
        -- intros [H|(q & a & b & c & Hq & H)]; [now left|].
           right. exists q, a, b, c. cbn. tauto.
        -- intros [H|(q & a & b & c & [<-|Hq] & Hx & Hy)];
             [now left | congruence |].
           right. now exists q, a, b, c.
      * rewrite Hw. split.
        -- intros [H|(q & a & b & c & Hq & H)]; [now left|].
           right. exists q, a, b, c. cbn. tauto.
        -- intros [H|(q & a & b & c & [<-|Hq] & Hx & Hy)];
             [now left | congruence |].
           right. now exists q, a, b, c.
Qed.

Lemma process_folder_some (fs : filesystem) (files : list string) b r :
  process_folder fs (Some files) = (b, Some r) ->
  files <> []
  /\ b = Nat.eqb (List.length
                    (failed_files (fold_left (process_one fs) files
                                     (mkfolder_state 0 [] [] [])))) 0
  /\ r = {| total_files := List.length files;
            successful := success_count
                            (fold_left (process_one fs) files
                               (mkfolder_state 0 [] [] []));
            failed := failed_files
                        (fold_left (process_one fs) files
                           (mkfolder_state 0 [] [] []));
            sorted_poi_tags := sorted (all_poi_tags
                                 (fold_left (process_one fs) files
                                    (mkfolder_state 0 [] [] [])));
            sorted_way_tags := sorted (all_way_tags
                                 (fold_left (process_one fs) files
                                    (mkfolder_state 0 [] [] []))) |}.
Proof.
  unfold process_folder. destruct files as [|p files]; [discriminate|].
  intros [= <- <-]. split; [discriminate | split; reflexivity].
Qed.

Lemma filter_partition_length {A : Type} (f : A -> bool) (l : list A) :
  (List.length (filter f l) + List.length (filter (fun x => negb (f x)) l)
   = List.length l)%nat.
Proof.
  induction l as [|a l IH]; [reflexivity|]. cbn [filter].
  destruct (f a); cbn [negb List.length]; lia.
Qed.

Lemma filter_negb_nil {A : Type} (f : A -> bool) (l : list A) :
  Nat.eqb (List.length (filter (fun x => negb (f x)) l)) 0 = forallb f l.
Proof.
  induction l as [|a l IH]; [reflexivity|]. cbn [filter forallb].
  destruct (f a); cbn [negb andb]; [exact IH | reflexivity].
Qed.

(** X14.  [process_folder] gives up with [False] when the folder is missing
    or holds no [.map] file.  Otherwise every file is counted once, as
    successful or as failed; the failed ones are listed in the order they
    were met; and the function returns [True] exactly when extraction
    succeeded on every file. *)
Theorem process_folder_counts (fs : filesystem) :
  process_folder fs None = (false, None)
  /\ process_folder fs (Some []) = (false, None)
  /\ forall files b r,
       process_folder fs (Some files) = (b, Some r) ->
       total_files r = List.length files
       /\ (successful r + List.length (failed r) = total_files r)%nat
       /\ successful r = List.length (filter (extracts fs) files)
       /\ failed r = filter (fun p => negb (extracts fs p)) files
       /\ b = forallb (extracts fs) files.
Proof.
  split; [reflexivity | split; [reflexivity|]].
  intros files b r H. apply process_folder_some in H as (_ & -> & ->).
  destruct (process_files fs files (mkfolder_state 0 [] [] []))
    as (Hc & Hf & _).
  cbn [total_files successful failed success_count failed_files] in *.
  rewrite Hc, Hf. cbn [app Nat.add].
  pose proof (filter_partition_length (extracts fs) files).
  repeat split; auto. apply filter_negb_nil.
Qed.

(** X15.  The consolidated tag lists of [process_folder] are in strictly
    increasing order, so without repetition, and hold exactly the tags of
    the files on which extraction succeeded. *)
Theorem process_folder_tags (fs : filesystem) (files : list string) b r :
  process_folder fs (Some files) = (b, Some r) ->
  (Sorted str_lt (sorted_poi_tags r)
   /\ forall tag,
        In tag (sorted_poi_tags r) <->
        exists p poi way zi,
          In p files /\ extracts fs p = true
          /\ tags_of_file fs p = TagsDict poi way zi /\ In tag poi)
  /\ (Sorted str_lt (sorted_way_tags r)
      /\ forall tag,
           In tag (sorted_way_tags r) <->
           exists p poi way zi,
             In p files /\ extracts fs p = true
             /\ tags_of_file fs p = TagsDict poi way zi /\ In tag way).
Proof.
  intros H. apply process_folder_some in H as (_ & _ & ->).
  destruct (process_files fs files (mkfolder_state 0 [] [] []))
    as (_ & _ & Hnp & Hnw & Hp & Hw).
  cbn [sorted_poi_tags sorted_way_tags all_poi_tags all_way_tags] in *.
  split; split.
  - apply sorted_Sorted, Hnp. constructor.
  - intros tag. rewrite sorted_In, Hp. cbn. tauto.
  - apply sorted_Sorted, Hnw. constructor.
  - intros tag. rewrite sorted_In, Hw. cbn. tauto.
Qed.

(* ------------------------------------------------------------------ *)
(** * The PBF tag extractor *)

(** ** Parts and tags *)

Lemma split_once_join (sep : Z) (s : str) :
  PBF.contains sep s = true ->
  fst (PBF.split_once sep s) ++ [sep] ++ snd (PBF.split_once sep s) = s.
Proof.
  unfold PBF.contains. induction s as [|c s IH]; cbn [existsb PBF.split_once];
    [discriminate|].
  rewrite (Z.eqb_sym sep c).
  destruct (Z.eqb_spec c sep) as [->|Hne]; cbn [orb].
  - reflexivity.
  - intros H. apply IH in H.
    destruct (PBF.split_once sep s) as [k v]. cbn [fst snd app] in *.
    now rewrite H.
Qed.

(** X16.  What is counted for a part [T...] is the part without its [T],
    unchanged: cutting it at the first [=] and joining the two pieces with
    [=] gives it back.  A part without [=] after the [T], and a part that
    does not start with [T], count for nothing. *)
Theorem count_part_cases (elem_type : Z) (st : PBF.counters) :
  (forall tag,
      PBF.contains PBF.char_eq tag = true ->
      PBF.count_part elem_type (PBF.char_T :: tag) st
      = PBF.count_tag elem_type tag st)
  /\ (forall tag,
        PBF.contains PBF.char_eq tag = false ->
        PBF.count_part elem_type (PBF.char_T :: tag) st = st)
  /\ (forall c part,
        c <> PBF.char_T -> PBF.count_part elem_type (c :: part) st = st)
  /\ PBF.count_part elem_type [] st = st.
Proof.
  repeat split.
  - intros tag H. unfold PBF.count_part. rewrite Z.eqb_refl, H.
    pose proof (split_once_join PBF.char_eq tag H) as J.
    destruct (PBF.split_once PBF.char_eq tag) as [k v]. cbn [fst snd] in J.
    now rewrite J.
  - intros tag H. unfold PBF.count_part. now rewrite Z.eqb_refl, H.
  - intros c part H. unfold PBF.count_part.
    now destruct (Z.eqb_spec c PBF.char_T).
Qed.

(** ** Counters *)

Lemma get_incr (c : PBF.Counter) (k k' : str) :
  PBF.get (PBF.incr c k) k'
  = PBF.get c k' + (if str_eqb k k' then 1 else 0).
Proof.
  induction c as [|[k0 n] c IH]; cbn [PBF.incr PBF.get].
  - destruct (str_eqb k k'); lia.
  - destruct (str_eqb k0 k) eqn:E0; cbn [PBF.get].
    + apply str_eqb_eq in E0. subst k0.
      destruct (str_eqb k k'); lia.
    + destruct (str_eqb k0 k') eqn:E1; [|exact IH].
      apply str_eqb_eq in E1. subst k0.
      destruct (str_eqb k k') eqn:E2; [|lia].
      apply str_eqb_eq in E2. subst k'.
      assert (str_eqb k k = true) by now apply str_eqb_eq. congruence.
Qed.

Lemma incr_keys (c : PBF.Counter) (k x : str) :
  In x (map fst (PBF.incr c k)) <-> In x (map fst c) \/ x = k.
Proof.
  induction c as [|[k0 n] c IH]; cbn [PBF.incr map fst In].
  - intuition auto.
  - destruct (str_eqb k0 k) eqn:E; cbn [map fst In].
    + apply str_eqb_eq in E. subst k0. intuition auto.
    + rewrite IH. intuition auto.
Qed.

Lemma incr_well_formed (c : PBF.Counter) (k : str) :
  counter_ok c -> counter_ok (PBF.incr c k).
Proof.
  unfold counter_ok. induction c as [|[k0 n] c IH]; cbn [PBF.incr map fst].
  - intros _. split; [repeat constructor; intros []|].
    repeat constructor. cbn. lia.
  - intros [Hnd Hpos]. inversion Hnd as [|? ? Hnotin Hnd']; subst.
    inversion Hpos as [|? ? Hn Hpos']; subst. cbn [snd] in Hn.
    destruct (str_eqb k0 k) eqn:E; cbn [map fst].
    + split; [now constructor|]. constructor; [cbn; lia | exact Hpos'].
    + destruct (IH (conj Hnd' Hpos')) as [IH1 IH2].
      split; [|now constructor].
      constructor; [|exact IH1].
      rewrite incr_keys. intros [H| ->]; [contradiction|].
      assert (str_eqb k k = true) by now apply str_eqb_eq. congruence.
Qed.

Lemma count_tag_ok (e : Z) (tag : str) (st : PBF.counters) :
  counters_ok st -> counters_ok (PBF.count_tag e tag st).
Proof.
  unfold counters_ok, PBF.count_tag. intros (Hn & Hw & Hr).
  destruct (e =? PBF.char_n); [|destruct (e =? PBF.char_w);
                                 [|destruct (e =? PBF.char_r)]];
    cbn [PBF.node_tags PBF.way_tags PBF.relation_tags];
    auto using incr_well_formed.
Qed.

Lemma count_part_ok (e : Z) (part : str) (st : PBF.counters) :
  counters_ok st -> counters_ok (PBF.count_part e part st).
Proof.
  intros H. unfold PBF.count_part. destruct part as [|c tag]; [exact H|].
  destruct (c =? PBF.char_T); [|exact H].
  destruct (PBF.contains PBF.char_eq tag); [|exact H].
  destruct (PBF.split_once PBF.char_eq tag). now apply count_tag_ok.
Qed.

Lemma count_parts_ok (e : Z) (parts : list str) :
  forall st, counters_ok st -> counters_ok (PBF.count_parts e parts st).
Proof.
  unfold PBF.count_parts. induction parts as [|p parts IH]; intros st H;
    cbn [fold_left]; [exact H|].
  now apply IH, count_part_ok.
Qed.

Lemma count_line_ok (line : str) (st st' : PBF.counters) :
  PBF.count_line line st = Some st' -> counters_ok st -> counters_ok st'.
Proof.
  unfold PBF.count_line. destruct (PBF.strip line); [now intros [= <-]|].
  destruct (len (PBF.split PBF.char_space line) <? 2); [now intros [= <-]|].
  destruct (PBF.split PBF.char_space line) as [|[|e p0] parts];
    try discriminate.
  intros H Hok. injection H as H. rewrite <- H.
  now apply (count_parts_ok e ((e :: p0) :: parts)).
Qed.

(** X17.  Whatever the tool printed, and whether the loop ran to its end or
    was cut short by an exception, each of the three counters still has
    distinct keys and only counts of at least 1, if it had before. *)
Theorem count_lines_ok (lines : list str) :
  forall st, counters_ok st -> counters_ok (snd (PBF.count_lines lines st)).
Proof.
  induction lines as [|line lines IH]; intros st H; cbn [PBF.count_lines];
    [exact H|].
  destruct (PBF.count_line line st) as [st'|] eqn:E; [|exact H].
  apply IH. now apply (count_line_ok line st).
Qed.

(** ** A line that starts with a space *)

Lemma split_not_nil (sep : Z) (s : str) : PBF.split sep s <> [].
Proof.
  destruct s as [|c s]; cbn [PBF.split]; [discriminate|].
  destruct (c =? sep); [discriminate|].
  destruct (PBF.split sep s); discriminate.
Qed.

Lemma count_line_none (line : str) (st : PBF.counters) :
  PBF.count_line line st = None
  <-> PBF.strip line <> [] /\ exists rest, line = PBF.char_space :: rest.
Proof.
  unfold PBF.count_line.
  destruct (PBF.strip line) as [|x xs] eqn:Hs.
  - split; [discriminate | now intros [[] _]].
  - destruct line as [|c rest]; [discriminate|].
    cbn [PBF.split].
    destruct (Z.eqb_spec c PBF.char_space) as [->|Hne].
    + pose proof (split_not_nil PBF.char_space rest) as Hnn.
      destruct (PBF.split PBF.char_space rest) as [|w ws] eqn:E;
        [contradiction|].
      match goal with
      | |- context [?a <? 2] => destruct (Z.ltb_spec a 2) as [Hlt|Hge]
      end;
        [exfalso; unfold len in Hlt; cbn [List.length] in Hlt; lia|].
      split; [|reflexivity].
      intros _. split; [discriminate | now exists rest].
    + split.
      * destruct (PBF.split PBF.char_space rest) as [|w ws];
          destruct (_ <? 2); discriminate.
      * intros [_ (r & [= -> _])]. contradiction.
Qed.

Lemma count_lines_app (before : list str) :
  forall after st st1,
    PBF.count_lines before st = (true, st1) ->
    PBF.count_lines (before ++ after) st = PBF.count_lines after st1.
Proof.
  induction before as [|l before IH]; intros after st st1;
    cbn [PBF.count_lines app].
  - now intros [= <-].
  - destruct (PBF.count_line l st) as [st'|]; [apply IH | discriminate].
Qed.

(** X18.  A line of the tool's output that begins with a space and is not
    blank makes [extract_tags_with_osmium] fail, on [parts[0][0]].  The
    function returns [False], but the counters keep what the lines before
    that one added: a failed call can leave them partly filled. *)
Theorem osmium_line_starting_with_space
    (st st1 : PBF.counters) (version : PBF.run) (stdout stderr : str)
    (before after : list str) (rest : str) :
  PBF.check_osmium_installed version = Some true ->
  PBF.split PBF.char_newline stdout
  = before ++ (PBF.char_space :: rest) :: after ->
  PBF.strip (PBF.char_space :: rest) <> [] ->
  PBF.count_lines before st = (true, st1) ->
  PBF.extract_tags_with_osmium st version (PBF.Completed 0 stdout stderr)
  = (false, st1).
Proof.
  intros Hv Hsplit Hstrip Hbefore. unfold PBF.extract_tags_with_osmium.
  rewrite Hv, Hsplit. cbn [Z.eqb negb].
  rewrite (count_lines_app before _ st st1 Hbefore). cbn [PBF.count_lines].
  assert (Hn : PBF.count_line (PBF.char_space :: rest) st1 = None).
  { apply count_line_none. split; [exact Hstrip | now exists rest]. }
  now rewrite Hn.
Qed.

(** ** Counting into counters that are not empty *)

Lemma sums_count_tag (e : Z) (tag : str) st0 d st :
  sums st0 d st ->
  sums st0 (PBF.count_tag e tag d) (PBF.count_tag e tag st).
Proof.
  intros H k. destruct (H k) as (Hn & Hw & Hr). unfold PBF.count_tag.
  destruct (e =? PBF.char_n); [|destruct (e =? PBF.char_w);
                                 [|destruct (e =? PBF.char_r)]];
    cbn [PBF.node_tags PBF.way_tags PBF.relation_tags];
    rewrite ?get_incr; repeat split; lia.
Qed.

Lemma sums_count_part (e : Z) (part : str) st0 d st :
  sums st0 d st ->
  sums st0 (PBF.count_part e part d) (PBF.count_part e part st).
Proof.
  intros H. unfold PBF.count_part. destruct part as [|c tag]; [exact H|].
  destruct (c =? PBF.char_T); [|exact H].
  destruct (PBF.contains PBF.char_eq tag); [|exact H].
  destruct (PBF.split_once PBF.char_eq tag). now apply sums_count_tag.
Qed.

Lemma sums_count_parts (e : Z) (parts : list str) :
  forall st0 d st,
    sums st0 d st ->
    sums st0 (PBF.count_parts e parts d) (PBF.count_parts e parts st).
Proof.
  unfold PBF.count_parts. induction parts as [|p parts IH];
    intros st0 d st H; cbn [fold_left]; [exact H|].
  now apply IH, sums_count_part.
Qed.

Lemma sums_count_line (line : str) st0 d st :
  sums st0 d st ->
  match PBF.count_line line st, PBF.count_line line d with
  | Some st', Some d' => sums st0 d' st'
  | None, None => True
  | _, _ => False
  end.
Proof.
  intros H. unfold PBF.count_line. destruct (PBF.strip line); [exact H|].
  destruct (len (PBF.split PBF.char_space line) <? 2); [exact H|].
  destruct (PBF.split PBF.char_space line) as [|[|e p0] parts]; try exact I.
  now apply (sums_count_parts e ((e :: p0) :: parts)).
Qed.

Lemma sums_count_lines (lines : list str) :
  forall st0 d st,
    sums st0 d st ->
    fst (PBF.count_lines lines st) = fst (PBF.count_lines lines d)
    /\ sums st0 (snd (PBF.count_lines lines d))
         (snd (PBF.count_lines lines st)).
Proof.
  induction lines as [|line lines IH]; intros st0 d st H;
    cbn [PBF.count_lines]; [now split|].
  pose proof (sums_count_line line st0 d st H) as Hl.
  destruct (PBF.count_line line st) as [st'|],
    (PBF.count_line line d) as [d'|]; try contradiction.
  - now apply IH.
  - now split.
Qed.

Lemma sums_fresh (st : PBF.counters) : sums st PBF.fresh st.
Proof. intros k. cbn. repeat split; lia. Qed.

(** X19.  [extract_tags_with_osmium] counts into the counters the extractor
    already has: after the call each count is what it was before plus what
    the same call gives on a fresh extractor, and the returned value is the
    same.  So a second call on the same output doubles every count. *)
Theorem osmium_counts_add_up (version filter : PBF.run) :
  (forall st,
      fst (PBF.extract_tags_with_osmium st version filter)
      = fst (PBF.extract_tags_with_osmium PBF.fresh version filter)
      /\ sums st
           (snd (PBF.extract_tags_with_osmium PBF.fresh version filter))
           (snd (PBF.extract_tags_with_osmium st version filter)))
  /\ (forall k,
        let once := snd (PBF.extract_tags_with_osmium PBF.fresh
                           version filter) in
        let twice := snd (PBF.extract_tags_with_osmium once version filter) in
        PBF.get (PBF.node_tags twice) k = 2 * PBF.get (PBF.node_tags once) k
        /\ PBF.get (PBF.way_tags twice) k
           = 2 * PBF.get (PBF.way_tags once) k
        /\ PBF.get (PBF.relation_tags twice) k
           = 2 * PBF.get (PBF.relation_tags once) k).
Proof.
  assert (Hadd : forall st,
             fst (PBF.extract_tags_with_osmium st version filter)
             = fst (PBF.extract_tags_with_osmium PBF.fresh version filter)
             /\ sums st
                  (snd (PBF.extract_tags_with_osmium PBF.fresh version filter))
                  (snd (PBF.extract_tags_with_osmium st version filter))).
  { intros st. unfold PBF.extract_tags_with_osmium.
    destruct (PBF.check_osmium_installed version) as [[|]|];
      try (split; [reflexivity | apply sums_fresh]).
    destruct filter as [rc out err| | |];
      try (split; [reflexivity | apply sums_fresh]).
    destruct (negb (rc =? 0)); [split; [reflexivity | apply sums_fresh]|].
    apply sums_count_lines, sums_fresh. }
  split; [exact Hadd|].
  intros k once twice.
  destruct (Hadd once) as [_ H]. destruct (H k) as (Hn & Hw & Hr).
  fold once in Hn, Hw, Hr. fold twice in Hn, Hw, Hr. lia.
Qed.

(** ** Which tool is used *)

(** X20.  With [use_osmium=None], osmium-tool is tried only when pyosmium
    raises while reading the file.  When pyosmium is not installed,
    [extract_tags] returns [False] at once, whatever osmium-tool would have
    done, and the counters are untouched.  When pyosmium works, its counts
    replace the extractor's counters, whatever they held. *)
Theorem extract_tags_dispatch (st : PBF.counters) (version filter : PBF.run) :
  PBF.extract_tags st None PBF.NotInstalled version filter = (Some false, st)
  /\ PBF.extract_tags st None PBF.ApplyFails version filter
     = (Some (fst (PBF.extract_tags_with_osmium st version filter)),
        snd (PBF.extract_tags_with_osmium st version filter))
  /\ (forall objects,
        PBF.extract_tags st None (PBF.Applied objects) version filter
        = (Some true, fold_left PBF.handle objects PBF.fresh)).
Proof.
  unfold PBF.extract_tags, PBF.extract_tags_with_pyosmium.
  repeat split.
  now destruct (PBF.extract_tags_with_osmium st version filter).
Qed.

(** ** What the exports select *)

Lemma insert_by_count_perm (x : str * Z) (l : list (str * Z)) :
  Permutation (PBF.insert_by_count x l) (x :: l).
Proof.
  induction l as [|y l IH]; cbn [PBF.insert_by_count]; [reflexivity|].
  destruct (snd y <=? snd x); [reflexivity|].
  rewrite IH. apply perm_swap.
Qed.

Lemma most_common_perm (c : PBF.Counter) : Permutation (PBF.most_common c) c.
Proof.
  induction c as [|x c IH]; cbn [PBF.most_common]; [reflexivity|].
  rewrite insert_by_count_perm. now constructor.
Qed.

Lemma insert_by_count_sorted (x : str * Z) (l : list (str * Z)) :
  Sorted count_ge l -> Sorted count_ge (PBF.insert_by_count x l).
Proof.
  intros Hs. induction Hs as [|y l Hs IH Hhd]; cbn [PBF.insert_by_count].
  - repeat constructor.
  - destruct (Z.leb_spec (snd y) (snd x)) as [Hle|Hgt].
    + constructor; [now constructor | now constructor].
    + constructor; [exact IH|].
      destruct l as [|z l]; cbn [PBF.insert_by_count].
      * constructor. unfold count_ge. lia.
      * destruct (snd z <=? snd x); constructor.
        -- unfold count_ge. lia.
        -- now inversion Hhd.
Qed.

Lemma most_common_sorted (c : PBF.Counter) :
  StronglySorted count_ge (PBF.most_common c).
Proof.
  apply Sorted_StronglySorted.
  - intros x y z. unfold count_ge. lia.
  - induction c as [|x c IH]; cbn [PBF.most_common]; [constructor|].
    now apply insert_by_count_sorted.
Qed.

Lemma until_below_filter (min_count : Z) (l : list (str * Z)) :
  StronglySorted count_ge l ->
  PBF.until_below min_count l
  = filter (fun '(tag, count) => min_count <=? count) l.
Proof.
  induction 1 as [|[tag count] l Hs IH Hall];
    cbn [PBF.until_below filter]; [reflexivity|].
  destruct (Z.ltb_spec count min_count) as [Hlt|Hge].
  - destruct (Z.leb_spec min_count count); [lia|].
    symmetry. clear IH Hs.
    induction l as [|[t n] l IHl]; cbn [filter]; [reflexivity|].
    inversion Hall as [|? ? Hn Hall']; subst. unfold count_ge in Hn.
    cbn [snd] in Hn.
    destruct (Z.leb_spec min_count n); [lia | now apply IHl].
  - destruct (Z.leb_spec min_count count); [|lia]. now rewrite IH.
Qed.

Lemma filter_perm {A : Type} (f : A -> bool) (l l' : list A) :
  Permutation l l' -> Permutation (filter f l) (filter f l').
Proof.
  induction 1 as [|x l l' _ IH|x y l|l l' l'' _ IH1 _ IH2]; cbn [filter].
  - reflexivity.
  - destruct (f x); [now constructor | exact IH].
  - destruct (f x), (f y); try reflexivity. apply perm_swap.
  - now transitivity (filter f l').
Qed.

(** X21.  The loops of the text and CSV exports, which walk the tags
    from the most common down and stop at the first count below
    [min_count], leave out no tag that reaches [min_count]: the CSV rows are
    the heading and then, for nodes, ways and relations in turn, exactly
    the tags with a count of at least [min_count], larger counts first.
    These are the same tags, with the same counts, as the JSON export
    keeps. *)
Theorem export_selection (min_count : Z) :
  (forall st,
      PBF.export_csv_rows st min_count
      = [PBF.Text (str_of_string "Element Type"); PBF.Text (str_of_string "Tag");
         PBF.Text (str_of_string "Count")]
        :: map (fun '(tag, count) =>
                  [PBF.Text (str_of_string "node"); PBF.Text tag; PBF.Number count])
             (filter (fun '(tag, count) => min_count <=? count)
                (PBF.most_common (PBF.node_tags st)))
        ++ map (fun '(tag, count) =>
                  [PBF.Text (str_of_string "way"); PBF.Text tag; PBF.Number count])
             (filter (fun '(tag, count) => min_count <=? count)
                (PBF.most_common (PBF.way_tags st)))
        ++ map (fun '(tag, count) =>
                  [PBF.Text (str_of_string "relation"); PBF.Text tag; PBF.Number count])
             (filter (fun '(tag, count) => min_count <=? count)
                (PBF.most_common (PBF.relation_tags st))))
  /\ (forall c,
        StronglySorted count_ge
          (PBF.until_below min_count (PBF.most_common c))
        /\ Permutation (PBF.until_below min_count (PBF.most_common c))
             (PBF.export_json_tags c min_count)
        /\ (forall tag count,
              In (tag, count) (PBF.until_below min_count (PBF.most_common c))
              <-> In (tag, count) c /\ min_count <= count)).
Proof.
  split.
  - intros st. unfold PBF.export_csv_rows.
    now rewrite !(until_below_filter min_count _ (most_common_sorted _)).
  - intros c.
    pose proof (most_common_sorted c) as Hs.
    rewrite (until_below_filter min_count _ Hs). split; [|split].
    + induction Hs as [|x l Hs IH Hall]; cbn [filter]; [constructor|].
      destruct x as [t n]. destruct (min_count <=? n); [|exact IH].
      constructor; [exact IH|].
      rewrite Forall_forall in *. intros y Hy.
      apply filter_In in Hy as [Hy _]. now apply Hall.
    + unfold PBF.export_json_tags. apply filter_perm, most_common_perm.
    + intros tag count. rewrite filter_In.
      rewrite (Permutation_in' (eq_refl (tag, count)) (most_common_perm c)).
      now rewrite Z.leb_le.
Qed.

(** ** Fixed-width fields, written and read back *)

(** X7.  An unsigned field written most significant byte first is read
    back as it was, from exactly its bytes: two bytes for ['>H'], four for
    ['>I'], eight for ['>Q'], one for a single byte. *)
Theorem unsigned_field_roundtrip :
  (forall v, u8 v -> reads read_B (Writer.encode_fixed 1 v) v)
  /\ (forall v, u16 v -> reads read_H (Writer.encode_fixed 2 v) v)
  /\ (forall v, u32 v -> reads read_I (Writer.encode_fixed 4 v) v)
  /\ (forall v, u64 v -> reads read_Q (Writer.encode_fixed 8 v) v).
Proof.
  repeat split; intros v Hv p tail;
    [apply reads_B | apply reads_H | apply reads_I | apply reads_Q];
    exact Hv.
Qed.

Lemma unsigned_field_roundtrip_witness :
  u16 65535 /\ reads read_H (Writer.encode_fixed 2 65535) 65535.
Proof.
  assert (H : u16 65535) by (unfold u16; lia).
  split; [exact H|].
  destruct unsigned_field_roundtrip as (_ & H16 & _). exact (H16 _ H).
Defined.

(** X8.  A signed 32-bit coordinate, negative or not, written in two's
    complement is read back as it was by the ['>i'] read. *)
Theorem signed_field_roundtrip (v : Z) :
  i32 v -> reads read_i (MapWriter.encode_i v) v.
Proof.
  intros Hv p tail. unfold read_i, bind, lift, read, eval, unpack_i,
    MapWriter.encode_i.
  destruct (Z.ltb_spec 4 0); [lia|]. cbn [rest pos].
  change 4 with (len (Writer.encode_fixed 4 (v mod 2 ^ 32))) at 1.
  rewrite take_exact, len_encode_fixed. change (Z.of_nat 4 =? 4) with true.
  cbv iota.
  assert (Hm : 0 <= v mod 2 ^ 32 < 2 ^ 32) by (apply Z.mod_pos_bound; lia).
  rewrite be_value_encode_fixed by lia.
  change (256 ^ Z.of_nat 4) with (2 ^ 32). rewrite Z.mod_mod by lia.
  unfold i32 in Hv.
  destruct (Z.ltb_spec (v mod 2 ^ 32) (2 ^ 31)) as [Hlt|Hge];
    do 2 f_equal.
  - destruct (Z.lt_ge_cases v 0) as [Hneg|Hpos'].
    + rewrite <- (Z.mod_add v 1) in Hlt by lia.
      rewrite Z.mod_small in Hlt by lia. lia.
    + now rewrite Z.mod_small by lia.
  - destruct (Z.lt_ge_cases v 0) as [Hneg|Hpos'].
    + rewrite <- (Z.mod_add v 1) by lia.
      rewrite Z.mod_small by lia. lia.
    + rewrite Z.mod_small in Hge by lia. lia.
Qed.

Lemma signed_field_roundtrip_witness :
  i32 (-23500000) /\ reads read_i (MapWriter.encode_i (-23500000)) (-23500000).
Proof.
  assert (H : i32 (-23500000)) by (unfold i32; lia).
  split; [exact H | exact (signed_field_roundtrip _ H)].
Defined.

Lemma sample_source_in_range : MapWriter.in_range Sample2.source.
Proof.
  unfold MapWriter.in_range, zoom_interval_in_range, u8, u16, u32, u64, i32.
  cbn [Sample2.source MapWriter.s_header_size MapWriter.s_file_version
       MapWriter.s_file_size MapWriter.s_date_created MapWriter.s_min_lat
       MapWriter.s_min_lon MapWriter.s_max_lat MapWriter.s_max_lon
       MapWriter.s_tile_size MapWriter.s_start_position
       MapWriter.s_start_zoom MapWriter.s_poi_tags MapWriter.s_way_tags
       MapWriter.s_zoom_intervals].
  repeat match goal with
         | |- _ /\ _ => split
         | |- Forall _ _ => constructor
         end;
    cbn [base_zoom min_zoom max_zoom subfile_start subfile_size];
    vm_compute; (reflexivity || discriminate).
Qed.

Lemma decode_encode_witness :
  MapWriter.in_range Sample2.source
  /\ decode (MapWriter.encode Sample2.source)
     = (Extracted (MapWriter.header_of Sample2.source)
          (MapWriter.optional_of Sample2.source)
          (MapWriter.tables_of Sample2.source),
        mkfile (len (MapWriter.encode Sample2.source)) []).
Proof.
  split; [exact sample_source_in_range|].
  exact (proj1 (decode_encode Sample2.source sample_source_in_range)).
Defined.

Lemma sample_folder :
  process_folder Sample2.folder_fs (Some Sample2.folder_files)
  = (false, Some Sample2.folder_report_expected).
Proof. vm_compute. reflexivity. Qed.

Lemma process_folder_tags_witness :
  process_folder Sample2.folder_fs (Some Sample2.folder_files)
  = (false, Some Sample2.folder_report_expected)
  /\ Sorted str_lt (sorted_poi_tags Sample2.folder_report_expected)
  /\ Sorted str_lt (sorted_way_tags Sample2.folder_report_expected).
Proof.
  split; [exact sample_folder|].
  destruct (process_folder_tags _ _ _ _ sample_folder) as [[H1 _] [H2 _]].
  split; [exact H1 | exact H2].
Defined.

Lemma fresh_ok : counters_ok PBF.fresh.
Proof. repeat split; constructor. Qed.

Lemma count_lines_ok_witness :
  counters_ok PBF.fresh
  /\ counters_ok
       (snd (PBF.count_lines
               (PBF.split PBF.char_newline Sample2.stdout_with_bad_line)
               PBF.fresh)).
Proof.
  split; [exact fresh_ok | exact (count_lines_ok _ _ fresh_ok)].
Defined.

Lemma osmium_line_starting_with_space_witness :
  PBF.extract_tags_with_osmium PBF.fresh
    (PBF.Completed 0 (str_of_string "osmium version 1.16.0") [])
    (PBF.Completed 0 Sample2.stdout_with_bad_line [])
  = (false, Sample2.counters_before_bad_line).
Proof.
  apply (osmium_line_starting_with_space PBF.fresh
           Sample2.counters_before_bad_line
           (PBF.Completed 0 (str_of_string "osmium version 1.16.0") [])
           Sample2.stdout_with_bad_line []
           Sample2.lines_before
           [str_of_string "n4 Tamenity=cafe"]
           (str_of_string "n3 Tamenity=bar")).
  - reflexivity.
  - vm_compute. reflexivity.
  - vm_compute. discriminate.
  - vm_compute. reflexivity.
Defined.

(** ** Options on the command line *)

Lemma parse_even (int : string -> option Z) (n : nat) :
  forall args o o',
    (List.length args <= n)%nat ->
    CommandLine.parse int args o = Some o' ->
    Nat.even (List.length args) = true
    /\ (CommandLine.known_format (CommandLine.format_type o) = true ->
        CommandLine.known_format (CommandLine.format_type o') = true).
Proof.
  induction n as [|n IH]; intros args o o' Hlen H.
  - destruct args; [|cbn in Hlen; lia]. cbn in H. injection H as <-.
    now split.
  - destruct args as [|arg [|value rest]]; cbn [CommandLine.parse] in H.
    + injection H as <-. now split.
    + discriminate.
    + cbn [List.length] in Hlen. cbn [List.length Nat.even].
      assert (Hr : (List.length rest <= n)%nat) by lia.
      destruct (CommandLine.one_of arg "-o" "--output").
      { apply (IH _ _ _ Hr) in H as [He Hf]. split; [exact He | exact Hf]. }
      destruct (CommandLine.one_of arg "-f" "--format").
      { destruct (CommandLine.known_format value) eqn:Hk; [|discriminate].
        cbn [negb] in H. apply (IH _ _ _ Hr) in H as [He Hf].
        split; [exact He | intros _; now apply Hf]. }
      destruct (CommandLine.one_of arg "-m" "--min-count").
      { destruct (int value); [|discriminate].
        apply (IH _ _ _ Hr) in H as [He Hf]. split; [exact He | exact Hf]. }
      destruct (CommandLine.one_of arg "-d" "--display").
      { destruct (int value); [|discriminate].
        apply (IH _ _ _ Hr) in H as [He Hf]. split; [exact He | exact Hf]. }
      discriminate.
Qed.

(** X22.  The option loop of [main] accepts only pairs: it succeeds only
    on an even number of arguments, so an option given last without its
    value ends in the unknown-argument exit.  When it succeeds, the format
    it hands on is one of [text], [json], [csv]. *)
Theorem parse_options (int : string -> option Z) (args : list string)
    (o : CommandLine.options) :
  CommandLine.parse int args CommandLine.defaults = Some o ->
  Nat.even (List.length args) = true
  /\ CommandLine.known_format (CommandLine.format_type o) = true.
Proof.
  intros H.
  apply (parse_even int (List.length args)) in H as [He Hf]; [|lia].
  split; [exact He | now apply Hf].
Qed.

Lemma parse_options_witness :
  CommandLine.parse (fun _ => Some 10)
    ["-f"%string; "json"%string; "-m"%string; "10"%string]
    CommandLine.defaults
  = Some (CommandLine.mkoptions None "json" 10 50)
  /\ Nat.even (List.length
                 ["-f"%string; "json"%string; "-m"%string; "10"%string])
     = true
  /\ CommandLine.known_format
       (CommandLine.format_type (CommandLine.mkoptions None "json" 10 50))
     = true.
Proof.
  assert (H : CommandLine.parse (fun _ => Some 10)
                ["-f"%string; "json"%string; "-m"%string; "10"%string]
                CommandLine.defaults
              = Some (CommandLine.mkoptions None "json" 10 50))
    by reflexivity.
  split; [exact H | exact (parse_options _ _ _ H)].
Defined.

(** ** Counting with pyosmium *)

Lemma total_incr (c : PBF.Counter) (k : str) :
  total (PBF.incr c k) = total c + 1.
Proof.
  induction c as [|[k0 n] c IH]; cbn [PBF.incr total fold_right snd].
  - lia.
  - destruct (str_eqb k0 k); cbn [total fold_right snd]; [lia|].
    fold (total (PBF.incr c k)). fold (total c). lia.
Qed.

Lemma count_tags_total (tags : list (str * str)) :
  forall c,
    total (PBF.count_tags tags c) = total c + len tags
    /\ (counter_ok c -> counter_ok (PBF.count_tags tags c)).
Proof.
  unfold PBF.count_tags. induction tags as [|[k v] tags IH]; intros c;
    cbn [fold_left].
  - change (len (@nil (str * str))) with 0. split; [lia | auto].
  - destruct (IH (PBF.incr c (k ++ [PBF.char_eq] ++ v))) as [Ht Hok].
    rewrite Ht, total_incr, len_cons. split; [lia|].
    intros H. now apply Hok, incr_well_formed.
Qed.

Lemma handle_totals (objects : list PBF.osm_object) :
  forall st,
    let st' := fold_left PBF.handle objects st in
    (counters_ok st -> counters_ok st')
    /\ total (PBF.node_tags st')
       = total (PBF.node_tags st) + tags_of_kind PBF.node objects
    /\ total (PBF.way_tags st')
       = total (PBF.way_tags st) + tags_of_kind PBF.way objects
    /\ total (PBF.relation_tags st')
       = total (PBF.relation_tags st) + tags_of_kind PBF.relation objects.
Proof.
  induction objects as [|x objects IH]; intros st; cbn zeta;
    cbn [fold_left tags_of_kind fold_right].
  - split; [auto|]. split; [lia|]. split; lia.
  - specialize (IH (PBF.handle st x)). cbn zeta in IH.
    destruct IH as (Hok & Hn & Hw & Hr).
    fold (tags_of_kind PBF.node objects). fold (tags_of_kind PBF.way objects).
    fold (tags_of_kind PBF.relation objects).
    rewrite Hn, Hw, Hr. clear Hn Hw Hr.
    unfold PBF.handle in *.
    destruct (PBF.okind x);
      cbn [same_kind PBF.node_tags PBF.way_tags PBF.relation_tags] in *;
      destruct (count_tags_total (PBF.otags x) (PBF.node_tags st)) as [Tn On];
      destruct (count_tags_total (PBF.otags x) (PBF.way_tags st)) as [Tw Ow];
      destruct (count_tags_total (PBF.otags x) (PBF.relation_tags st))
        as [Tr Or];
      (split; [intros (H1 & H2 & H3); apply Hok; split; [|split]; auto|]);
      (split; [lia|]); split; lia.
Qed.

(** X23.  When pyosmium reads the file, every tag of every object is
    counted exactly once, under the kind of its object: the counts of the
    node counter add up to the number of tags on nodes, and likewise for
    ways and relations, whatever the counters held before; and each
    counter has distinct keys and counts of at least 1. *)
Theorem pyosmium_counts_every_tag (st : PBF.counters)
    (objects : list PBF.osm_object) :
  fst (PBF.extract_tags_with_pyosmium st (PBF.Applied objects)) = Some true
  /\ counters_ok (snd (PBF.extract_tags_with_pyosmium st (PBF.Applied objects)))
  /\ total (PBF.node_tags
              (snd (PBF.extract_tags_with_pyosmium st (PBF.Applied objects))))
     = tags_of_kind PBF.node objects
  /\ total (PBF.way_tags
              (snd (PBF.extract_tags_with_pyosmium st (PBF.Applied objects))))
     = tags_of_kind PBF.way objects
  /\ total (PBF.relation_tags
              (snd (PBF.extract_tags_with_pyosmium st (PBF.Applied objects))))
     = tags_of_kind PBF.relation objects.
Proof.
  cbn [PBF.extract_tags_with_pyosmium fst snd].
  destruct (handle_totals objects PBF.fresh) as (Hok & Hn & Hw & Hr).
  cbn zeta in *. split; [reflexivity|].
  split; [apply Hok, fresh_ok|].
  rewrite Hn, Hw, Hr. cbn [PBF.fresh PBF.node_tags PBF.way_tags
    PBF.relation_tags total fold_right]. split; [lia|]. split; lia.
Qed.

(* ------------------------------------------------------------------ *)
(** * The reader within the limits of [f.read] *)

(** ** What the limits cannot change *)

Lemma follows_ret {A : Type} (a : A) : follows (CPython.ret a) (ret a).
Proof. intros f. reflexivity. Qed.

Lemma follows_plain {A : Type} (c : M A) : follows (CPython.plain c) c.
Proof.
  intros f. unfold CPython.plain. now destruct (c f) as [[a|e] f'].
Qed.

Lemma follows_bind {A B : Type} (c' : CPython.M A) (c : M A)
    (k' : A -> CPython.M B) (k : A -> M B) :
  follows c' c -> (forall a, follows (k' a) (k a)) ->
  follows (CPython.bind c' k') (bind c k).
Proof.
  intros Hc Hk f. specialize (Hc f). unfold CPython.bind, bind.
  destruct (c' f) as [[a|e] f1].
  - rewrite Hc. apply Hk.
  - destruct e; try exact I. now rewrite Hc.
Qed.

Lemma follows_read_utf8_string (can_allocate : Z -> bool) :
  follows (CPython.read_utf8_string can_allocate) read_utf8_string.
Proof.
  intros f.
  rewrite limited_read_utf8_string_cases, read_utf8_string_cases.
  destruct (read_variable_byte f) as [[n|] f1]; [|reflexivity].
  destruct (n =? 0); [reflexivity|].
  destruct (CPython.bytes_max <? n); [exact I|].
  destruct (can_allocate n); [|exact I].
  unfold CPython.plain. destruct (read n f1) as [bs f2].
  now destruct (utf8_decode ignore bs).
Qed.

Lemma follows_for_range {A : Type} (body' : CPython.M A) (body : M A)
    (n : nat) :
  follows body' body ->
  forall acc, follows (CPython.for_range n body' acc) (for_range n body acc).
Proof.
  intros Hb. induction n as [|n IH]; intros acc;
    cbn [CPython.for_range for_range].
  - apply follows_ret.
  - apply follows_bind; [exact Hb | intros; apply IH].
Qed.

Lemma follows_when {A : Type} (cond : bool) (body' : CPython.M A)
    (body : M A) :
  follows body' body -> follows (CPython.when cond body') (when cond body).
Proof.
  intros Hb. unfold CPython.when, when. destruct cond; [|apply follows_ret].
  apply follows_bind; [exact Hb | intros; apply follows_ret].
Qed.

Ltac follows_step :=
  first
    [ apply follows_ret
    | apply follows_plain
    | apply follows_read_utf8_string
    | apply follows_when
    | apply follows_for_range
    | apply follows_bind; [|intros] ].

Ltac follows_auto :=
  repeat (follows_step
          || match goal with
             | |- follows (match ?x with _ => _ end) _ => destruct x
             | |- follows (if ?x then _ else _) _ => destruct x
             end).

Lemma follows_extract_tags_body (can_allocate : Z -> bool) :
  follows (CPython.extract_tags_body can_allocate) extract_tags_body.
Proof.
  unfold CPython.extract_tags_body, extract_tags_body,
    CPython.read_header, read_header, CPython.read_optional, read_optional,
    CPython.read_tables, read_tables, read_magic_bytes, read_start_position.
  follows_auto.
Qed.

(** ** What the limits do not change when the file is the larger *)

Lemma advances_rest_le {A : Type} (c : M A) f r f' :
  advances c -> c f = (r, f') -> len (rest f') <= len (rest f).
Proof.
  intros Hc H. destruct (Hc _ _ _ H) as (got & -> & _).
  rewrite len_app_bytes. pose proof (len_nonneg got). lia.
Qed.

Lemma advances_exhausted {A : Type} (c : M A) f r f' :
  advances c -> c f = (r, f') -> rest f = [] -> rest f' = [].
Proof.
  intros Hc H E. destruct (Hc _ _ _ H) as (got & Hgot & _).
  rewrite E in Hgot. symmetry in Hgot. now apply app_eq_nil in Hgot.
Qed.

Ltac advances_fixed :=
  unfold read_H, read_I, read_Q, read_i, read_B, read_zoom_interval,
    read_start_position, read_magic_bytes;
  advances_auto.

Lemma starves_first {A B : Type} (c : M A) (k : A -> M B) :
  starves c -> starves (bind c k).
Proof.
  intros Hc f b f' E H. apply bind_returned in H as (a & f1 & H & _).
  exact (Hc f a f1 E H).
Qed.

Lemma starves_later {A B : Type} (c : M A) (k : A -> M B) :
  advances c -> (forall a, starves (k a)) -> starves (bind c k).
Proof.
  intros Hc Hk f b f' E H. apply bind_returned in H as (a & f1 & H & H').
  exact (Hk a f1 b f' (advances_exhausted c f _ f1 Hc H E) H').
Qed.

Lemma starves_read_H : starves read_H.
Proof.
  intros [p bs] a f'. cbn [rest]. intros ->. vm_compute. discriminate.
Qed.

Lemma starves_read_B : starves read_B.
Proof.
  intros [p bs] a f'. cbn [rest]. intros ->. vm_compute. discriminate.
Qed.

Section Tracks.

Variable can_allocate : Z -> bool.
Variable bound : Z.
Hypothesis served :
  forall n, 0 < n <= bound -> CPython.accepts can_allocate n = true.

Lemma tracks_all_weaken {A : Type} (c' : CPython.M A) (c : M A) :
  tracks_all bound c' c -> tracks bound c' c.
Proof. intros H f a f' Hb E. left. exact (H f a f' Hb E). Qed.

Lemma tracks_all_ret {A : Type} (a : A) :
  tracks_all bound (CPython.ret a) (ret a).
Proof. intros f a' f' _ E. injection E as <- <-. reflexivity. Qed.

Lemma tracks_all_plain {A : Type} (c : M A) :
  tracks_all bound (CPython.plain c) c.
Proof. intros f a f' _ E. unfold CPython.plain. now rewrite E. Qed.

Lemma tracks_bind {A B : Type} (c' : CPython.M A) (c : M A)
    (k' : A -> CPython.M B) (k : A -> M B) :
  tracks bound c' c -> (forall a, tracks bound (k' a) (k a)) ->
  advances c -> (forall a, advances (k a)) ->
  tracks bound (CPython.bind c' k') (bind c k).
Proof.
  intros Hc Hk Ac Ak f b f' Hb H.
  apply bind_returned in H as (a & f1 & H & H').
  destruct (Hc f a f1 Hb H) as [E|E].
  - unfold CPython.bind. rewrite E. apply Hk; [|exact H'].
    pose proof (advances_rest_le c f _ f1 Ac H). lia.
  - right. exact (advances_exhausted (k a) f1 _ f' (Ak a) H' E).
Qed.

Lemma tracks_all_bind {A B : Type} (c' : CPython.M A) (c : M A)
    (k' : A -> CPython.M B) (k : A -> M B) :
  tracks_all bound c' c -> (forall a, tracks_all bound (k' a) (k a)) ->
  advances c ->
  tracks_all bound (CPython.bind c' k') (bind c k).
Proof.
  intros Hc Hk Ac f b f' Hb H.
  apply bind_returned in H as (a & f1 & H & H').
  unfold CPython.bind. rewrite (Hc f a f1 Hb H). apply Hk; [|exact H'].
  pose proof (advances_rest_le c f _ f1 Ac H). lia.
Qed.

(** A read that ran into the end of the file is found out by the next
    field that must be there. *)
Lemma tracks_all_bind_starved {A B : Type} (c' : CPython.M A) (c : M A)
    (k' : A -> CPython.M B) (k : A -> M B) :
  tracks bound c' c -> (forall a, tracks_all bound (k' a) (k a)) ->
  (forall a, starves (k a)) -> advances c ->
  tracks_all bound (CPython.bind c' k') (bind c k).
Proof.
  intros Hc Hk Sk Ac f b f' Hb H.
  apply bind_returned in H as (a & f1 & H & H').
  destruct (Hc f a f1 Hb H) as [E|E].
  - unfold CPython.bind. rewrite E. apply Hk; [|exact H'].
    pose proof (advances_rest_le c f _ f1 Ac H). lia.
  - destruct (Sk a f1 b f' E H').
Qed.

Lemma tracks_read_utf8_string :
  tracks bound (CPython.read_utf8_string can_allocate) read_utf8_string.
Proof.
  intros f s f' Hb H.
  destruct (read_variable_byte f) as [length f1] eqn:E.
  assert (Hf1 : len (rest f1) <= len (rest f)).
  { apply (advances_rest_le (lift read_variable_byte) f (Returned length) f1
             advances_read_variable_byte).
    unfold lift. now rewrite E. }
  destruct length as [n|].
  - pose proof (declared_length_nonneg f f1 n E) as Hn.
    destruct (Z.eq_dec n 0) as [Hz|Hz].
    + left.
      rewrite (limited_read_utf8_string_served can_allocate f f1 (Some n) E
                 (or_introl Hz)).
      unfold CPython.plain. now rewrite H.
    + destruct (Z.le_gt_cases n (len (rest f1))) as [Hle|Hgt].
      * left.
        rewrite (limited_read_utf8_string_served can_allocate f f1 (Some n) E
                   (or_intror (served n ltac:(lia)))).
        unfold CPython.plain. now rewrite H.
      * right.
        destruct read_utf8_string_unlimited as (_ & _ & Hshort).
        destruct (Hshort f n f1 E Hgt) as (s0 & _ & Hr).
        rewrite Hr in H. now injection H as _ <-.
  - left.
    rewrite (limited_read_utf8_string_served can_allocate f f1 None E I).
    unfold CPython.plain. now rewrite H.
Qed.

Lemma tracks_for_range {A : Type} (body' : CPython.M A) (body : M A)
    (n : nat) :
  tracks bound body' body -> advances body ->
  forall acc,
    tracks bound (CPython.for_range n body' acc) (for_range n body acc).
Proof.
  intros Hb Ab. induction n as [|n IH]; intros acc;
    cbn [CPython.for_range for_range].
  - apply tracks_all_weaken, tracks_all_ret.
  - apply tracks_bind; [exact Hb | intros; apply IH | exact Ab |].
    intros. now apply advances_for_range.
Qed.

Lemma tracks_all_for_range {A : Type} (body' : CPython.M A) (body : M A)
    (n : nat) :
  tracks_all bound body' body -> advances body ->
  forall acc,
    tracks_all bound (CPython.for_range n body' acc) (for_range n body acc).
Proof.
  intros Hb Ab. induction n as [|n IH]; intros acc;
    cbn [CPython.for_range for_range].
  - apply tracks_all_ret.
  - apply tracks_all_bind; [exact Hb | intros; apply IH | exact Ab].
Qed.

Lemma tracks_when {A : Type} (cond : bool) (body' : CPython.M A)
    (body : M A) :
  tracks bound body' body -> advances body ->
  tracks bound (CPython.when cond body') (when cond body).
Proof.
  intros Hb Ab. unfold CPython.when, when.
  destruct cond; [|apply tracks_all_weaken, tracks_all_ret].
  apply tracks_bind; [exact Hb | | exact Ab | intros; apply advances_ret].
  intros. apply tracks_all_weaken, tracks_all_ret.
Qed.

Ltac plain_steps :=
  repeat (apply tracks_all_bind;
          [apply tracks_all_plain | intros ? | advances_fixed]).

(** The projection is followed by the flags byte. *)
Lemma tracks_read_header :
  tracks_all bound (CPython.read_header can_allocate) read_header.
Proof.
  unfold CPython.read_header, read_header.
  apply tracks_all_bind; [apply tracks_all_plain | intros magic | advances_fixed].
  destruct (negb (bytes_eqb magic MAGIC_BYTE)); [apply tracks_all_ret|].
  plain_steps.
  apply tracks_all_bind_starved.
  - exact tracks_read_utf8_string.
  - intros projection. plain_steps. apply tracks_all_ret.
  - intros projection. apply starves_first, starves_read_B.
  - exact advances_read_utf8_string.
Qed.

Lemma tracks_read_optional (flags : Z) :
  tracks bound (CPython.read_optional can_allocate flags)
         (read_optional flags).
Proof.
  unfold CPython.read_optional, read_optional.
  repeat (apply tracks_bind;
          [ apply tracks_when;
            [ first [ exact tracks_read_utf8_string
                    | apply tracks_all_weaken, tracks_all_plain ]
            | advances_fixed ]
          | intros ?
          | advances_fixed
          | intros; advances_fixed ]).
  apply tracks_all_weaken, tracks_all_ret.
Qed.

(** Each tag table is followed by a count. *)
Lemma tracks_read_tables :
  tracks_all bound (CPython.read_tables can_allocate) read_tables.
Proof.
  unfold CPython.read_tables, read_tables.
  apply tracks_all_bind; [apply tracks_all_plain | intros num_poi_tags | advances_fixed].
  apply tracks_all_bind_starved.
  - apply tracks_for_range;
      [exact tracks_read_utf8_string | exact advances_read_utf8_string].
  - intros poi_tags.
    apply tracks_all_bind; [apply tracks_all_plain | intros num_way_tags | advances_fixed].
    apply tracks_all_bind_starved.
    + apply tracks_for_range;
        [exact tracks_read_utf8_string | exact advances_read_utf8_string].
    + intros way_tags.
      apply tracks_all_bind; [apply tracks_all_plain | intros n | advances_fixed].
      apply tracks_all_bind;
        [ apply tracks_all_for_range; [apply tracks_all_plain | advances_fixed]
        | intros; apply tracks_all_ret
        | advances_fixed ].
    + intros way_tags. apply starves_first, starves_read_B.
    + apply advances_for_range, advances_read_utf8_string.
  - intros poi_tags. apply starves_first, starves_read_H.
  - apply advances_for_range, advances_read_utf8_string.
Qed.

Lemma starves_read_tables : starves read_tables.
Proof. unfold read_tables. apply starves_first, starves_read_H. Qed.

Lemma tracks_extract_tags_body :
  tracks_all bound (CPython.extract_tags_body can_allocate) extract_tags_body.
Proof.
  unfold CPython.extract_tags_body, extract_tags_body.
  apply tracks_all_bind; [exact tracks_read_header | intros [h|] |].
  - apply tracks_all_bind_starved.
    + apply tracks_read_optional.
    + intros o.
      apply tracks_all_bind; [exact tracks_read_tables | | ].
      * intros; apply tracks_all_ret.
      * unfold read_tables. advances_fixed.
    + intros o. apply starves_first, starves_read_tables.
    + unfold read_optional. advances_fixed.
  - apply tracks_all_ret.
  - unfold read_header. advances_fixed.
Qed.

End Tracks.

Lemma extract_tags_true_inv (fs : filesystem) (self r : MapFileReader) :
  extract_tags fs self = (true, r) ->
  exists content h o t f',
    fs (filepath self) = Some content
    /\ extract_tags_body (mkfile 0 content) = (Returned (Some (h, o, t)), f')
    /\ r = {| filepath := filepath self;
              tags := TagsDict (poi_tags t) (way_tags t) (zoom_intervals t) |}.
Proof.
  unfold extract_tags, decode.
  destruct (fs (filepath self)) as [content|]; [|discriminate].
  destruct (extract_tags_body (mkfile 0 content))
    as [[[[[h o] t]|]|e] f'] eqn:Hb;
    cbn [fst]; intros H; try discriminate.
  injection H as <-. now exists content, h, o, t, f'.
Qed.

Lemma extract_tags_of_body (fs : filesystem) (self : MapFileReader)
    content h o t f' :
  fs (filepath self) = Some content ->
  extract_tags_body (mkfile 0 content) = (Returned (Some (h, o, t)), f') ->
  extract_tags fs self
  = (true, {| filepath := filepath self;
              tags := TagsDict (poi_tags t) (way_tags t)
                               (zoom_intervals t) |}).
Proof. unfold extract_tags, decode. now intros -> ->. Qed.

Lemma limited_extract_tags_true_inv (can_allocate : Z -> bool)
    (fs : filesystem) (self r : MapFileReader) :
  CPython.extract_tags can_allocate fs self = (true, r) ->
  exists content h o t f',
    fs (filepath self) = Some content
    /\ CPython.extract_tags_body can_allocate (mkfile 0 content)
       = (CPython.Returned (Some (h, o, t)), f')
    /\ r = {| filepath := filepath self;
              tags := TagsDict (poi_tags t) (way_tags t) (zoom_intervals t) |}.
Proof.
  unfold CPython.extract_tags, CPython.decode.
  destruct (fs (filepath self)) as [content|]; [|discriminate].
  destruct (CPython.extract_tags_body can_allocate (mkfile 0 content))
    as [[[[[h o] t]|]|e] f'] eqn:Hb;
    cbn [fst]; intros H; try discriminate.
  injection H as <-. now exists content, h, o, t, f'.
Qed.

Lemma limited_extract_tags_of_body (can_allocate : Z -> bool)
    (fs : filesystem) (self : MapFileReader) content h o t f' :
  fs (filepath self) = Some content ->
  CPython.extract_tags_body can_allocate (mkfile 0 content)
  = (CPython.Returned (Some (h, o, t)), f') ->
  CPython.extract_tags can_allocate fs self
  = (true, {| filepath := filepath self;
              tags := TagsDict (poi_tags t) (way_tags t)
                               (zoom_intervals t) |}).
Proof. unfold CPython.extract_tags, CPython.decode. now intros -> ->. Qed.

(** Both readers leave the object as it was when they return [False]. *)
Lemma extract_tags_false (fs : filesystem) (self r : MapFileReader) :
  extract_tags fs self = (false, r) -> r = self.
Proof.
  unfold extract_tags.
  destruct (fs (filepath self)) as [content|]; [|now intros [= <-]].
  destruct (fst (decode content)); intros H; try discriminate;
    now injection H as <-.
Qed.

Lemma limited_extract_tags_false (can_allocate : Z -> bool)
    (fs : filesystem) (self r : MapFileReader) :
  CPython.extract_tags can_allocate fs self = (false, r) -> r = self.
Proof.
  unfold CPython.extract_tags.
  destruct (fs (filepath self)) as [content|]; [|now intros [= <-]].
  destruct (fst (CPython.decode can_allocate content)); intros H;
    try discriminate; now injection H as <-.
Qed.

(** X24.  The limits of [f.read] on the length a string announces
    ([OverflowError] above [sys.maxsize - 33], [MemoryError] when there is
    no buffer) do not change what [extract_tags] can return.  A run that
    returns [True] under the limits returns [True] without them, with the
    same tags stored; a run that returns [False] without them returns
    [False] under them, the object untouched in both.  And when the
    interpreter can serve every length up to the size of the file, the two
    agree on every file: a string that announces more than the file holds
    takes what is left, and the next count or flags byte is missing. *)
Theorem extract_tags_within_limits (can_allocate : Z -> bool)
    (fs : filesystem) (self : MapFileReader) :
  (forall r,
     CPython.extract_tags can_allocate fs self = (true, r) ->
     extract_tags fs self = (true, r))
  /\ (forall r,
        extract_tags fs self = (false, r) ->
        CPython.extract_tags can_allocate fs self = (false, r))
  /\ (forall content,
        fs (filepath self) = Some content ->
        (forall n, 0 < n <= len content ->
                   CPython.accepts can_allocate n = true) ->
        CPython.extract_tags can_allocate fs self = extract_tags fs self).
Proof.
  assert (Hup : forall r,
             CPython.extract_tags can_allocate fs self = (true, r) ->
             extract_tags fs self = (true, r)).
  { intros r H.
    apply limited_extract_tags_true_inv
      in H as (content & h & o & t & f' & Hfs & Hb & ->).
    pose proof (follows_extract_tags_body can_allocate (mkfile 0 content))
      as Hf.
    rewrite Hb in Hf. exact (extract_tags_of_body fs self _ _ _ _ _ Hfs Hf). }
  assert (Hdown : forall r,
             extract_tags fs self = (false, r) ->
             CPython.extract_tags can_allocate fs self = (false, r)).
  { intros r H. pose proof (extract_tags_false _ _ _ H) as ->.
    destruct (CPython.extract_tags can_allocate fs self) as [[|] r'] eqn:E.
    - rewrite (Hup r' eq_refl) in H. discriminate.
    - now rewrite (limited_extract_tags_false _ _ _ _ E). }
  split; [exact Hup | split; [exact Hdown|]].
  intros content Hfs Hserved.
  destruct (extract_tags fs self) as [[|] r] eqn:E;
    [clear Hup Hdown | exact (Hdown r eq_refl)].
  apply extract_tags_true_inv
    in E as (content' & h & o & t & f' & Hfs' & Hb & ->).
  rewrite Hfs in Hfs'. injection Hfs' as <-.
  apply (limited_extract_tags_of_body can_allocate fs self content h o t f' Hfs).
  apply (tracks_extract_tags_body can_allocate (len content) Hserved);
    [cbn [rest]; lia | exact Hb].
Qed.

Lemma sample_lengths_served (n : Z) :
  0 < n <= len (MapWriter.encode Sample2.source) ->
  CPython.accepts CPython.below_4GiB n = true.
Proof.
  intros [Hpos Hle]. unfold CPython.accepts, CPython.below_4GiB.
  assert (len (MapWriter.encode Sample2.source) < 2 ^ 32)
    by (vm_compute; reflexivity).
  assert (2 ^ 32 <= CPython.bytes_max) by (vm_compute; discriminate).
  apply andb_true_iff. split; [apply Z.leb_le | apply Z.ltb_lt]; lia.
Qed.

Lemma extract_tags_within_limits_witness :
  (CPython.extract_tags CPython.below_4GiB
     (Sample.fs_of (MapWriter.encode Sample2.source)) (init "sample.map")
   = extract_tags (Sample.fs_of (MapWriter.encode Sample2.source))
       (init "sample.map"))
  /\ (extract_tags (Sample.fs_of CPython.announces_too_much)
        (init "sample.map")
      = (false, init "sample.map")
      /\ CPython.extract_tags CPython.every_buffer
           (Sample.fs_of CPython.announces_too_much) (init "sample.map")
         = (false, init "sample.map")).
Proof.
  split.
  - apply (proj2 (proj2 (extract_tags_within_limits CPython.below_4GiB
                           (Sample.fs_of (MapWriter.encode Sample2.source))
                           (init "sample.map")))
             (MapWriter.encode Sample2.source)).
    + reflexivity.
    + exact sample_lengths_served.
  - assert (H : extract_tags (Sample.fs_of CPython.announces_too_much)
                  (init "sample.map") = (false, init "sample.map"))
      by (vm_compute; reflexivity).
    split; [exact H|].
    exact (proj1 (proj2 (extract_tags_within_limits CPython.every_buffer
                           (Sample.fs_of CPython.announces_too_much)
                           (init "sample.map"))) _ H).
Defined.
